(** * Ontology tree manager ([deeppavlov_kg/core/ontology.py])

    A shallow embedding of the ontology store: a persisted, rooted tree of
    kinds, each carrying a set of property names.  The tree itself is a
    [treelib.Tree]; the persisted snapshot is reached through the loader's
    [load_ontology_graph] / [save_ontology_graph] pair.  Every public
    operation is a function from the persisted store to an outcome and a
    new persisted store. *)

From Stdlib Require Import Ascii String.
From stdpp Require Import base option list gmap sets strings.

Local Open Scope string_scope.
Set Warnings "-clear-no-such-hyp".

(** * Python outcomes *)

(** The exceptions that can be raised by the modelled code. *)
Inductive Exn : Type :=
  | TypeError
  | IndexError
  | KeyError
  | AttributeError
  | RecursionError
  | NodeIDAbsentError
  | DuplicatedNodeIdError
  | MultipleRootError.

(** A call either returns a value or raises. *)
Inductive Outcome (A : Type) : Type :=
  | Ret (a : A)
  | Raise (e : Exn).
Arguments Ret {A} a.
Arguments Raise {A} e.

#[global] Instance Exn_eq_dec : EqDecision Exn.
Proof. solve_decision. Defined.

(** * [str.capitalize] *)

(** Python strings are kept as their UTF-8 bytes.  On a string of ASCII
    characters [str.capitalize] is computed here; on any other string it
    depends on the Unicode case tables, which are a parameter of the
    development. *)

Module Str.

Definition is_lower (c : ascii) : bool :=
  let n := nat_of_ascii c in Nat.leb 97 n && Nat.leb n 122.

Definition is_upper (c : ascii) : bool :=
  let n := nat_of_ascii c in Nat.leb 65 n && Nat.leb n 90.

Definition upper (c : ascii) : ascii :=
  if is_lower c then ascii_of_nat (nat_of_ascii c - 32) else c.

Definition lower (c : ascii) : ascii :=
  if is_upper c then ascii_of_nat (nat_of_ascii c + 32) else c.

Fixpoint lower_all (s : string) : string :=
  match s with
  | EmptyString => EmptyString
  | String c r => String (lower c) (lower_all r)
  end.

(** [s.capitalize()] for a string of ASCII characters: first character
    upper-cased, the rest lower-cased. *)
Definition ascii_capitalize (s : string) : string :=
  match s with
  | EmptyString => EmptyString
  | String c r => String (upper c) (lower_all r)
  end.

(** A byte below 128 is an ASCII character. *)
Definition is_ascii (c : ascii) : bool := Nat.ltb (nat_of_ascii c) 128.

Fixpoint ascii_only (s : string) : bool :=
  match s with
  | EmptyString => true
  | String c r => is_ascii c && ascii_only r
  end.

(** [s.capitalize()], given what it does on the strings that have a
    character outside ASCII. *)
Definition capitalize_with (unicode : string → string) (s : string) : string :=
  if ascii_only s then ascii_capitalize s else unicode s.

(** The Unicode side of [str.capitalize]: title case of the first
    character and lower case of the rest, by the full case mappings, so the
    result may be longer than the argument and need not be a fixed point
    (the capitalized form of the name made of U+0149 is U+02BC followed by
    [N], whose capitalized form ends in [n]).  The one fact taken from the
    tables: a capitalized name other than ["Kind"] does not capitalize to
    ["Kind"]. *)
Class UnicodeCase : Type := {
  unicode_capitalize : string → string;
  unicode_capitalize_root :
    ∀ x, capitalize_with unicode_capitalize (capitalize_with unicode_capitalize x) = "Kind" →
         capitalize_with unicode_capitalize x = "Kind"
}.

(** [s.capitalize()] *)
Definition capitalize `{UnicodeCase} (s : string) : string :=
  capitalize_with unicode_capitalize s.

(** The table that leaves a name with a character outside ASCII as it is.
    It serves to evaluate calls on ASCII names, where no table is read. *)
Definition unchanged_unicode : UnicodeCase.
Proof.
  refine {| unicode_capitalize := id |}.
  assert (∀ c, upper (upper c) = upper c) as Hupper
    by (intros [[] [] [] [] [] [] [] []]; reflexivity).
  assert (∀ c, lower (lower c) = lower c) as Hlower
    by (intros [[] [] [] [] [] [] [] []]; reflexivity).
  assert (∀ s, lower_all (lower_all s) = lower_all s) as Hrest.
  { induction s as [|c r IH]; simpl; [reflexivity|]. by rewrite Hlower, IH. }
  intros x. unfold capitalize_with. destruct (ascii_only x) eqn:Hx.
  - destruct (ascii_only (ascii_capitalize x)); [|done].
    destruct x as [|c r]; simpl; [done|]. by rewrite Hupper, Hrest.
  - unfold id. by rewrite Hx.
Defined.

End Str.

(** * The [treelib] tree *)

(** [treelib] is the tree library the ontology is built on.  Its [Tree]
    keeps a dictionary from identifiers to nodes and the identifier of the
    root; a node keeps a back pointer to its parent and the ordered list of
    its children.  The definitions below follow the methods of [Tree] that
    [ontology.py] calls. *)

Module Treelib.

(** [Entity]: the payload of a node ([ontology.Entity]).  The Python
    object keeps the set it is given, without copying it, and
    [update_properties_of_kind] changes that set in place.  Every call of
    the interface works on a tree it loads itself, and the set it gives to
    a new node is a fresh [set()] or the caller's argument, an object that
    is no part of the loaded tree; so no two nodes of a tree that such calls
    persist hold the same set object, and a node's set is kept here as a
    value.  The module [Objects] below reads the same operations on set
    objects, and the end of the file shows that they save what the
    operations on values save.  A tree in which nodes share a set object
    (built by a caller that threads [start_tree] and a set already in it)
    is read there, not here. *)
Record Entity : Type := mkEntity { properties : gset string }.

(** A [treelib.Node]: tag, identifier, payload, back pointer to the parent
    and the ordered list of forward pointers to the children. *)
Record Node : Type := mkNode {
  tag : string;
  identifier : string;
  data : Entity;
  predecessor : option string;
  successors : list string
}.

(** A [treelib.Tree]: the dictionary of nodes and the root identifier. *)
Record Tree : Type := mkTree {
  nodes : gmap string Node;
  root : option string
}.

(** [Tree()] *)
Definition empty_tree : Tree := mkTree ∅ None.

(** [len(tree)], which also decides the truth value of a tree. *)
Definition len (t : Tree) : nat := size (nodes t).

(** [tree.contains(nid)] *)
Definition contains (t : Tree) (nid : string) : bool :=
  bool_decide (is_Some (nodes t !! nid)).

(** [tree.get_node(nid)]: the node, or [None] when it is not in the tree. *)
Definition get_node (t : Tree) (nid : string) : option Node :=
  nodes t !! nid.

Definition set_successors (n : Node) (l : list string) : Node :=
  mkNode (tag n) (identifier n) (data n) (predecessor n) l.

Definition set_data (n : Node) (d : Entity) : Node :=
  mkNode (tag n) (identifier n) d (predecessor n) (successors n).

(** [list.remove(x)]: drops the first occurrence. *)
Fixpoint list_remove (x : string) (l : list string) : list string :=
  match l with
  | [] => []
  | y :: l' => if decide (x = y) then l' else y :: list_remove x l'
  end.

(** [node.update_successors(cid, ADD)] *)
Definition add_successor (cid : string) (n : Node) : Node :=
  set_successors n (successors n ++ [cid]).

(** [node.update_successors(cid, DELETE)] *)
Definition delete_successor (cid : string) (n : Node) : Node :=
  set_successors n (list_remove cid (successors n)).

(** [tree.create_node(tag, identifier, parent, data)], that is [add_node]
    on a new node: refuses a duplicate identifier, a second root and an
    absent parent; otherwise registers the node, appends it to the
    parent's children and sets its back pointer. *)
Definition create_node (t : Tree) (tg nid : string) (parent : option string)
    (d : Entity) : Outcome Tree :=
  if contains t nid then Raise DuplicatedNodeIdError
  else match parent with
       | None =>
           match root t with
           | Some _ => Raise MultipleRootError
           | None => Ret (mkTree (<[nid := mkNode tg nid d None []]> (nodes t)) (Some nid))
           end
       | Some pid =>
           if contains t pid
           then Ret (mkTree (alter (add_successor nid) pid
                               (<[nid := mkNode tg nid d (Some pid) []]> (nodes t)))
                            (root t))
           else Raise NodeIDAbsentError
       end.

(** Successors of a node of the tree (none when the node is unknown). *)
Definition successors_of (t : Tree) (nid : string) : list string :=
  match nodes t !! nid with
  | Some n => successors n
  | None => []
  end.

(** The depth-first worklist of [tree.expand_tree]: yields the head of the
    queue and replaces it by its children.  One unit of fuel is used per
    yielded identifier. *)
Fixpoint expand_queue (fuel : nat) (t : Tree) (queue : list string) : list string :=
  match fuel with
  | 0 => []
  | S fuel' =>
      match queue with
      | [] => []
      | q :: rest => q :: expand_queue fuel' t (successors_of t q ++ rest)
      end
  end.

(** [list(tree.expand_tree(nid))]: a tree yields each of its nodes at most
    once, so the number of nodes bounds the traversal. *)
Definition expand_tree (t : Tree) (nid : string) : list string :=
  expand_queue (len t) t [nid].

(** [tree.remove_node(nid)]: removes the node and its whole subtree,
    forgets the root if it was removed and unlinks the node from its
    parent. *)
Definition remove_node (t : Tree) (nid : string) : Outcome Tree :=
  match nodes t !! nid with
  | None => Raise NodeIDAbsentError
  | Some n =>
      let removed := expand_tree t nid in
      let root' := match root t with
                   | Some r => if bool_decide (r ∈ removed) then None else Some r
                   | None => None
                   end in
      let unlinked := match predecessor n with
                      | Some pid => alter (delete_successor nid) pid (nodes t)
                      | None => nodes t
                      end in
      Ret (mkTree (foldr delete unlinked removed) root')
  end.

(** [[tree[i] for i in ids]]: a dictionary lookup per identifier. *)
Fixpoint lookup_all (t : Tree) (ids : list string) : Outcome (list Node) :=
  match ids with
  | [] => Ret []
  | i :: ids' =>
      match nodes t !! i with
      | None => Raise KeyError
      | Some n =>
          match lookup_all t ids' with
          | Ret ns => Ret (n :: ns)
          | Raise e => Raise e
          end
      end
  end.

(** [tree.children(nid)]: the child nodes, in the order of the forward
    pointers. *)
Definition children (t : Tree) (nid : string) : Outcome (list Node) :=
  match nodes t !! nid with
  | None => Raise NodeIDAbsentError
  | Some n => lookup_all t (successors n)
  end.

End Treelib.

(** * The persistence gateway and the ontology operations *)

Module Ontology.
Import Treelib.

Section Case.
Context {unicode : Str.UnicodeCase}.

(** The persisted snapshot: absent until a tree is saved for the first
    time. *)
Definition Store : Type := option Tree.

(** Modelled from the spec: [loader.load_ontology_graph] of
    [deeppavlov_kg.utils] is not part of the sources; it returns the
    previously saved full tree snapshot, or an absent value if none has
    ever been saved.  A snapshot shares no object with the trees and sets
    the callers hold. *)
Definition load_ontology_graph (st : Store) : option Tree := st.

(** Modelled from the spec: [loader.save_ontology_graph] of
    [deeppavlov_kg.utils] is not part of the sources; it replaces the
    persisted snapshot with the given full tree. *)
Definition save_ontology_graph (t : Tree) (st : Store) : Store := Some t.

(** The tree [create_kind] starts from when none is threaded in: the
    persisted one, or a fresh tree holding only the root. *)
Definition initial_tree (st : Store) : Outcome Tree :=
  match load_ontology_graph st with
  | Some t => Ret t
  | None => create_node empty_tree "Kind" "Kind" None (mkEntity ∅)
  end.

(** The tail of [create_kind], from [kind_properties.update] on: inherit
    the parent's properties, insert the node and save; a duplicate
    identifier is caught and leaves tree and store as they are. *)
Definition insert_kind (tree : Tree) (kind parent : string) (parent_node : Node)
    (kind_properties : gset string) (st : Store) : Outcome Tree * Store :=
  let kind_properties := kind_properties ∪ properties (data parent_node) in
  match create_node tree kind kind (Some parent) (mkEntity kind_properties) with
  | Ret tree' => (Ret tree', save_ontology_graph tree' st)
  | Raise DuplicatedNodeIdError => (Ret tree, st)
  | Raise e => (Raise e, st)
  end.

(** [create_kind(kind, parent, start_tree, kind_properties)].  [limit] is
    the interpreter's bound on nested calls: a call that would exceed it
    raises [RecursionError]. *)
Fixpoint create_kind (limit : nat) (kind parent : string) (start_tree : option Tree)
    (kind_properties : option (gset string)) (st : Store) : Outcome Tree * Store :=
  match limit with
  | 0 => (Raise RecursionError, st)
  | S limit' =>
      let kind_properties := default ∅ kind_properties in
      let kind := Str.capitalize kind in
      let parent := Str.capitalize parent in
      match (match start_tree with
             | Some t => Ret t
             | None => initial_tree st
             end) with
      | Raise e => (Raise e, st)
      | Ret tree =>
          match get_node tree parent with
          | Some parent_node => insert_kind tree kind parent parent_node kind_properties st
          | None =>
              match create_kind limit' parent "Kind" (Some tree) None st with
              | (Raise e, st') => (Raise e, st')
              | (Ret tree', st') =>
                  match get_node tree' parent with
                  | Some parent_node =>
                      insert_kind tree' kind parent parent_node kind_properties st'
                  | None => (Raise AttributeError, st')
                  end
              end
          end
      end
  end.

(** [get_kind_node(tree, kind)] *)
Definition get_kind_node (tree : option Tree) (kind : string) : option Node :=
  match tree with
  | None => None
  | Some t => get_node t kind
  end.

(** [remove_kind(kind)] *)
Definition remove_kind (kind : string) (st : Store) : Outcome unit * Store :=
  let tree := load_ontology_graph st in
  match get_kind_node tree kind with
  | None => (Ret tt, st)
  | Some _ =>
      match tree with
      | None => (Raise AttributeError, st)
      | Some t =>
          match remove_node t kind with
          | Raise e => (Raise e, st)
          | Ret t' => (Ret tt, save_ontology_graph t' st)
          end
      end
  end.

(** The loop of [update_properties_of_kind] on the node's live property
    set: [Ret (Some ps)] when every pair was applied, [Ret None] when an
    old property was missing ([return None]), [IndexError] when
    [new_properties] has no entry at the current index. *)
Fixpoint update_loop (ps : gset string) (idx : nat) (old_properties new_properties : list string)
    : Outcome (option (gset string)) :=
  match old_properties with
  | [] => Ret (Some ps)
  | prop :: rest =>
      if bool_decide (prop ∈ ps) then
        match new_properties !! idx with
        | None => Raise IndexError
        | Some new_prop => update_loop ((ps ∖ {[prop]}) ∪ {[new_prop]}) (S idx) rest new_properties
        end
      else Ret None
  end.

(** What [update_properties_of_kind] reports to its caller. *)
Inductive UpdateResult : Type :=
  | KindNotFound
  | PropertyNotFound
  | Updated.

(** [update_properties_of_kind(kind, old_properties, new_properties)] *)
Definition update_properties_of_kind (kind : string) (old_properties new_properties : list string)
    (st : Store) : Outcome UpdateResult * Store :=
  let tree := load_ontology_graph st in
  match get_kind_node tree kind with
  | None => (Ret KindNotFound, st)
  | Some kind_node =>
      match update_loop (properties (data kind_node)) 0 old_properties new_properties with
      | Raise e => (Raise e, st)
      | Ret None => (Ret PropertyNotFound, st)
      | Ret (Some ps) =>
          match tree with
          | None => (Raise AttributeError, st)
          | Some t =>
              let t' := mkTree (<[kind := set_data kind_node (mkEntity ps)]> (nodes t)) (root t) in
              (Ret Updated, save_ontology_graph t' st)
          end
      end
  end.

(** [get_descendant_kinds(kind)]: [Some] list, or [None] when the kind is
    not in a tree that has nodes. *)
Definition get_descendant_kinds (kind : string) (st : Store) : Outcome (option (list string)) :=
  match load_ontology_graph st with
  | None => Ret (Some [])
  | Some t =>
      if bool_decide (len t = 0) then Ret (Some [])
      else match children t kind with
           | Ret ns => Ret (Some (map tag ns))
           | Raise NodeIDAbsentError => Ret None
           | Raise e => Raise e
           end
  end.

(** [get_kind_properties(kind)] *)
Definition get_kind_properties (kind : string) (st : Store) : option (gset string) :=
  match get_kind_node (load_ontology_graph st) kind with
  | Some kind_node => Some (properties (data kind_node))
  | None => None
  end.

(** The loop of [are_properties_in_kind]: [prop not in kind_properties]
    is a [TypeError] when [kind_properties] is [None]. *)
Fixpoint membership_loop (props : list string) (kind_properties : option (gset string))
    : Outcome bool :=
  match props with
  | [] => Ret true
  | prop :: rest =>
      match kind_properties with
      | None => Raise TypeError
      | Some ps =>
          if bool_decide (prop ∈ ps) then membership_loop rest kind_properties
          else Ret false
      end
  end.

(** [are_properties_in_kind(list_of_property_kinds, kind)] *)
Definition are_properties_in_kind (list_of_property_kinds : list string) (kind : string)
    (st : Store) : Outcome bool :=
  membership_loop list_of_property_kinds (get_kind_properties kind st).

(** ** Sequences of calls *)

(** A call of the public interface. *)
Inductive Op : Type :=
  | CreateKind (kind parent : string) (kind_properties : option (gset string))
  | RemoveKind (kind : string)
  | UpdateProperties (kind : string) (old_properties new_properties : list string)
  | GetDescendantKinds (kind : string)
  | GetKindProperties (kind : string)
  | ArePropertiesInKind (props : list string) (kind : string).

(** The persisted store after one call; queries leave it alone, and so
    does a call that raises before it saves. *)
Definition step (limit : nat) (o : Op) (st : Store) : Store :=
  match o with
  | CreateKind k p ps => (create_kind limit k p None ps st).2
  | RemoveKind k => (remove_kind k st).2
  | UpdateProperties k old new => (update_properties_of_kind k old new st).2
  | GetDescendantKinds _ | GetKindProperties _ | ArePropertiesInKind _ _ => st
  end.

(** The persisted store after a sequence of calls, first call first. *)
Definition run (limit : nat) (ops : list Op) (st : Store) : Store :=
  foldl (fun s o => step limit o s) st ops.

(** ** Trees the proofs talk about *)

(** The tree [create_kind] builds when nothing was saved yet. *)
Definition root_tree : Tree :=
  mkTree {[ "Kind" := mkNode "Kind" "Kind" (mkEntity ∅) None [] ]} (Some "Kind").

(** The tree with a new leaf [k], carrying [d], appended to the children
    of [p]. *)
Definition add_child (t : Tree) (k p : string) (d : gset string) : Tree :=
  mkTree (alter (add_successor k) p
            (<[k := mkNode k k (mkEntity d) (Some p) []]> (nodes t)))
         (root t).

(** The persisted tree holds the root ["Kind"], with no property. *)
Definition has_root (st : Store) : Prop :=
  ∃ t n, st = Some t ∧ root t = Some "Kind" ∧
         nodes t !! "Kind" = Some n ∧ properties (data n) = ∅.

End Case.

End Ontology.

(** * The property sets as objects *)

(** [Entity] keeps the set object it is given, and the update loop changes
    a set in place.  This module reads the operations that touch the sets
    on a heap of set objects; the by-value operations above are what they
    save, as proved at the end of the file. *)

Module Objects.
Import Treelib Ontology.

(** A reference to a set object: the set of a node of the tree the loader
    hands out, named by the node, or a set made by the caller or by a call
    of [set()], numbered. *)
Definition Ref : Type := string + nat.

#[global] Instance Ref_eq_dec : EqDecision Ref := _.
#[global] Instance Ref_countable : Countable Ref := _.

(** The sets the references denote. *)
Abbreviation Heap := (gmap Ref (gset string)).

Section Case.
Context {unicode : Str.UnicodeCase}.

Definition deref (h : Heap) (r : Ref) : gset string := default ∅ (h !! r).

(** A node in memory: its [Entity] refers to a set. *)
Record ObjNode : Type := mkObjNode {
  obj_tag : string;
  obj_identifier : string;
  obj_data : Ref;
  obj_predecessor : option string;
  obj_successors : list string
}.

Record ObjTree : Type := mkObjTree {
  obj_nodes : gmap string ObjNode;
  obj_root : option string
}.

Definition snapshot_node (h : Heap) (n : ObjNode) : Node :=
  mkNode (obj_tag n) (obj_identifier n) (mkEntity (deref h (obj_data n)))
    (obj_predecessor n) (obj_successors n).

Definition snapshot (h : Heap) (t : ObjTree) : Tree :=
  mkTree (snapshot_node h <$> obj_nodes t) (obj_root t).

Definition loaded_node (id : string) (n : Node) : ObjNode :=
  mkObjNode (tag n) (identifier n) (inl id) (predecessor n) (successors n).

Definition loaded_tree (t : Tree) : ObjTree :=
  mkObjTree (map_imap (λ id n, Some (loaded_node id n)) (nodes t)) (root t).

Definition loaded_heap (t : Tree) : Heap :=
  kmap inl ((λ n, properties (data n)) <$> nodes t).

Definition held (h : Heap) : gset nat :=
  set_omap (λ r : Ref, match r with inr n => Some n | inl _ => None end) (dom h).

Definition new_set (h : Heap) : Ref * Heap :=
  let r : Ref := inr (fresh (held h)) in (r, <[r := ∅]> h).


(** [tree.get_node(nid)] *)
Definition obj_get_node (t : ObjTree) (nid : string) : option ObjNode :=
  obj_nodes t !! nid.

(** [tree.contains(nid)] *)
Definition obj_contains (t : ObjTree) (nid : string) : bool :=
  bool_decide (is_Some (obj_nodes t !! nid)).

Definition obj_add_successor (cid : string) (n : ObjNode) : ObjNode :=
  mkObjNode (obj_tag n) (obj_identifier n) (obj_data n) (obj_predecessor n)
    (obj_successors n ++ [cid]).

(** [tree.create_node(tag, identifier, parent, data)] *)
Definition obj_create_node (t : ObjTree) (tg nid : string) (parent : option string)
    (d : Ref) : Outcome ObjTree :=
  if obj_contains t nid then Raise DuplicatedNodeIdError
  else match parent with
       | None =>
           match obj_root t with
           | Some _ => Raise MultipleRootError
           | None => Ret (mkObjTree (<[nid := mkObjNode tg nid d None []]> (obj_nodes t))
                            (Some nid))
           end
       | Some pid =>
           if obj_contains t pid
           then Ret (mkObjTree (alter (obj_add_successor nid) pid
                                  (<[nid := mkObjNode tg nid d (Some pid) []]> (obj_nodes t)))
                               (obj_root t))
           else Raise NodeIDAbsentError
       end.

(** The loop of [update_properties_of_kind], lines 117-123, on the set
    object of the node: [remove] and [add] change the set in place. *)
Fixpoint update_in_place (h : Heap) (r : Ref) (idx : nat)
    (old_properties new_properties : list string) : Outcome bool * Heap :=
  match old_properties with
  | [] => (Ret true, h)
  | prop :: rest =>
      if bool_decide (prop ∈ deref h r) then
        let h := <[r := deref h r ∖ {[prop]}]> h in
        match new_properties !! idx with
        | None => (Raise IndexError, h)
        | Some new_prop =>
            update_in_place (<[r := deref h r ∪ {[new_prop]}]> h) r (S idx) rest new_properties
        end
      else (Ret false, h)
  end.

(** Lines 113-123 on a tree in memory. *)
Definition update_in_memory (tree : ObjTree) (h : Heap) (kind : string)
    (old_properties new_properties : list string) : Outcome UpdateResult * Heap :=
  match obj_get_node tree kind with
  | None => (Ret KindNotFound, h)
  | Some kind_node =>
      match update_in_place h (obj_data kind_node) 0 old_properties new_properties with
      | (Raise e, h') => (Raise e, h')
      | (Ret false, h') => (Ret PropertyNotFound, h')
      | (Ret true, h') => (Ret Updated, h')
      end
  end.

(** [update_properties_of_kind(kind, old_properties, new_properties)] on
    objects: the tree is loaded, changed in memory and saved. *)
Definition obj_update_properties_of_kind (kind : string)
    (old_properties new_properties : list string) (h : Heap) (st : Store)
    : Outcome UpdateResult * Heap * Store :=
  match load_ontology_graph st with
  | None => (Ret KindNotFound, h, st)
  | Some t =>
      let tree := loaded_tree t in
      match update_in_memory tree (loaded_heap t ∪ h) kind old_properties new_properties with
      | (Ret Updated, h') => (Ret Updated, h', save_ontology_graph (snapshot h' tree) st)
      | (r, h') => (r, h', st)
      end
  end.

(** [kind_properties] after lines 36-37: the caller's set, or a new
    empty one. *)
Definition own_set (kind_properties : option Ref) (h : Heap) : Ref * Heap :=
  match kind_properties with
  | Some r => (r, h)
  | None => new_set h
  end.

(** The tree [create_kind] starts from when none is threaded in: what the
    loader hands out, or a new tree holding only the root, with a new
    empty set. *)
Definition obj_initial_tree (h : Heap) (st : Store) : Outcome ObjTree * Heap :=
  match load_ontology_graph st with
  | Some t => (Ret (loaded_tree t), loaded_heap t ∪ h)
  | None =>
      (obj_create_node (mkObjTree ∅ None) "Kind" "Kind" None (new_set h).1, (new_set h).2)
  end.

(** The tail of [create_kind], from line 59 on: [kind_properties.update]
    changes the set [kind_properties] in place, and the [Entity] of the
    new node keeps that very set. *)
Definition obj_insert_kind (tree : ObjTree) (h : Heap) (kind parent : string)
    (parent_node : ObjNode) (kind_properties : Ref) (st : Store)
    : Outcome ObjTree * Heap * Store :=
  let h := <[kind_properties := deref h kind_properties ∪ deref h (obj_data parent_node)]> h in
  match obj_create_node tree kind kind (Some parent) kind_properties with
  | Ret tree' => (Ret tree', h, save_ontology_graph (snapshot h tree') st)
  | Raise DuplicatedNodeIdError => (Ret tree, h, st)
  | Raise e => (Raise e, h, st)
  end.

(** Lines 53-74 of [create_kind], given the nested call for a missing
    parent. *)
Definition obj_under_parent
    (nested : ObjTree → Heap → Store → Outcome ObjTree * Heap * Store)
    (tree : ObjTree) (h : Heap) (kind parent : string) (kind_properties : Ref)
    (st : Store) : Outcome ObjTree * Heap * Store :=
  match obj_get_node tree parent with
  | Some parent_node => obj_insert_kind tree h kind parent parent_node kind_properties st
  | None =>
      match nested tree h st with
      | (Raise e, h', st') => (Raise e, h', st')
      | (Ret tree', h', st') =>
          match obj_get_node tree' parent with
          | Some parent_node =>
              obj_insert_kind tree' h' kind parent parent_node kind_properties st'
          | None => (Raise AttributeError, h', st')
          end
      end
  end.

(** [create_kind(kind, parent, start_tree, kind_properties)] on objects. *)
Fixpoint obj_create_kind (limit : nat) (kind parent : string) (start_tree : option ObjTree)
    (kind_properties : option Ref) (h : Heap) (st : Store)
    : Outcome ObjTree * Heap * Store :=
  match limit with
  | 0 => (Raise RecursionError, h, st)
  | S limit' =>
      let own := own_set kind_properties h in
      let kind := Str.capitalize kind in
      let parent := Str.capitalize parent in
      let start :=
        match start_tree with
        | Some t => (Ret t, own.2)
        | None => obj_initial_tree own.2 st
        end in
      match start.1 with
      | Raise e => (Raise e, start.2, st)
      | Ret tree =>
          obj_under_parent
            (λ tree h st, obj_create_kind limit' parent "Kind" (Some tree) None h st)
            tree start.2 kind parent own.1 st
      end
  end.

(** The result of a call, as the by-value reading of the tree it
    returns. *)
Definition outcome_map {A B : Type} (f : A → B) (o : Outcome A) : Outcome B :=
  match o with
  | Ret a => Ret (f a)
  | Raise e => Raise e
  end.

(** Every node's set is in the heap. *)
Definition closed (t : ObjTree) (h : Heap) : Prop :=
  ∀ id n, obj_nodes t !! id = Some n → is_Some (h !! obj_data n).

(** No node of the tree holds the set [r]. *)
Definition apart (t : ObjTree) (r : Ref) : Prop :=
  ∀ id n, obj_nodes t !! id = Some n → obj_data n ≠ r.


(** Lines 53-74 of [create_kind] on values, given the nested call. *)
Definition under_parent (nested : Tree → Store → Outcome Tree * Store)
    (tree : Tree) (kind parent : string) (kind_properties : gset string) (st : Store)
    : Outcome Tree * Store :=
  match get_node tree parent with
  | Some parent_node => insert_kind tree kind parent parent_node kind_properties st
  | None =>
      match nested tree st with
      | (Raise e, st') => (Raise e, st')
      | (Ret tree', st') =>
          match get_node tree' parent with
          | Some parent_node => insert_kind tree' kind parent parent_node kind_properties st'
          | None => (Raise AttributeError, st')
          end
      end
  end.

(** A call on objects, from the tree [tree] and the heap [h], with
    [kind_properties] its own set, does what the call [v] on values does:
    same result and same saved snapshot; it changes no other set of the
    heap; and the nodes of the tree it returns are those of [tree], with
    their sets, and new ones, whose sets are new or [kind_properties]. *)
Definition refined (tree : ObjTree) (h : Heap) (kind_properties : option Ref)
    (r : Outcome ObjTree * Heap * Store) (v : Outcome Tree * Store) : Prop :=
  (outcome_map (snapshot r.1.2) r.1.1, r.2) = v
  ∧ (∀ x, is_Some (h !! x) → Some x ≠ kind_properties → r.1.2 !! x = h !! x)
  ∧ ∀ t', r.1.1 = Ret t' →
          closed t' r.1.2
          ∧ ∀ id n, obj_nodes t' !! id = Some n →
                    (∃ n0, obj_nodes tree !! id = Some n0 ∧ obj_data n0 = obj_data n)
                    ∨ h !! obj_data n = None
                    ∨ Some (obj_data n) = kind_properties.

End Case.
End Objects.

(** * Notions used to state the properties *)

Module Props.
Import Treelib Ontology.

Section Case.
Context {unicode : Str.UnicodeCase}.

(** One replacement of [update_properties_of_kind]: the old name leaves
    the set, the new one enters it. *)
Definition replace_property (ps : gset string) (pair : string * string) : gset string :=
  (ps ∖ {[pair.1]}) ∪ {[pair.2]}.

(** The property set of the kind once the first [i] pairs were applied. *)
Definition live (ps : gset string) (old_properties new_properties : list string) (i : nat)
    : gset string :=
  foldl replace_property ps (take i (zip old_properties new_properties)).

(** Every old property is in the set it is looked up in. *)
Definition all_present (ps : gset string) (old_properties new_properties : list string) : Prop :=
  ∀ i prop, old_properties !! i = Some prop → prop ∈ live ps old_properties new_properties i.

(** The tree in which the kind carries the given property set. *)
Definition with_properties (t : Tree) (kind : string) (kind_node : Node) (ps : gset string)
    : Tree :=
  mkTree (<[kind := set_data kind_node (mkEntity ps)]> (nodes t)) (root t).

(** A name that some name capitalizes to. *)
Definition capitalized (s : string) : Prop := ∃ x, s = Str.capitalize x.

(** An ASCII name in capitalized form. *)
Definition ascii_capitalized (s : string) : Prop :=
  Str.ascii_only s = true ∧ Str.ascii_capitalize s = s.

(** The calls whose creations are given ASCII names. *)
Definition ascii_names (o : Op) : Prop :=
  match o with
  | CreateKind k p _ => Str.ascii_only k = true ∧ Str.ascii_only p = true
  | _ => True
  end.

(** Forward and back pointers of a tree agree: a node is registered under
    its identifier, which is also its tag; the children listed by a node
    are nodes that point back to it, each listed once; a node that has a
    parent is listed among the children of that parent; following the
    back pointers goes strictly up. *)
Record wf (t : Tree) : Prop := mkWf {
  wf_ident : ∀ id n, nodes t !! id = Some n → identifier n = id ∧ tag n = id;
  wf_succ : ∀ id n c, nodes t !! id = Some n → c ∈ successors n →
            ∃ m, nodes t !! c = Some m ∧ predecessor m = Some id;
  wf_pred : ∀ c m p, nodes t !! c = Some m → predecessor m = Some p →
            ∃ n, nodes t !! p = Some n ∧ c ∈ successors n;
  wf_nodup : ∀ id n, nodes t !! id = Some n → NoDup (successors n);
  wf_acyclic : ∃ depth : string → nat,
               ∀ c m p, nodes t !! c = Some m → predecessor m = Some p → depth p < depth c
}.

(** The persisted tree holds the root ["Kind"], without properties, and
    no node lists the root among its children. *)
Definition rooted (t : Tree) : Prop :=
  root t = Some "Kind"
  ∧ (∃ n, nodes t !! "Kind" = Some n ∧ properties (data n) = ∅)
  ∧ ∀ id m, nodes t !! id = Some m → "Kind" ∉ successors m.

(** The calls that save nothing when nothing was saved before: removals,
    updates, queries, and the creation of ["Kind"] under ["Kind"], which
    is a duplicate of the root of the fresh tree. *)
Definition saves_nothing_on_empty (o : Op) : Prop :=
  match o with
  | CreateKind k p _ => Str.capitalize k = "Kind" ∧ Str.capitalize p = "Kind"
  | _ => True
  end.

(** One change of the persisted tree: a leaf with a capitalized identifier
    is added under a node of the tree, a node is removed with its subtree,
    or the property set of a node is replaced by the result of the update
    loop. *)
Inductive tree_step : Tree → Tree → Prop :=
  | step_add (t : Tree) (k p : string) (pn : Node) (d : gset string) :
      nodes t !! p = Some pn → nodes t !! k = None → capitalized k →
      tree_step t (add_child t k p d)
  | step_remove (t : Tree) (k : string) (n : Node) (t' : Tree) :
      nodes t !! k = Some n → remove_node t k = Ret t' →
      tree_step t t'
  | step_update (t : Tree) (k : string) (n : Node) (old new : list string) (ps : gset string) :
      nodes t !! k = Some n →
      update_loop (properties (data n)) 0 old new = Ret (Some ps) →
      tree_step t (with_properties t k n ps).

(** The trees the operations can persist, starting from nothing. *)
Definition reachable (t : Tree) : Prop := rtc tree_step root_tree t.

(** The state of the traversal from [k] is sound: no identifier is both
    yielded and pending or occurs twice; each one is a node of the tree, not
    above [k], and is [k] itself or a child of a yielded node. *)
Definition traversal_ok (t : Tree) (depth : string → nat) (k : string)
    (yielded queue : list string) : Prop :=
  NoDup (yielded ++ queue)%list
  ∧ ∀ x, x ∈ (yielded ++ queue)%list →
         is_Some (nodes t !! x)
         ∧ (depth k ≤ depth x)%nat
         ∧ (x = k ∨ ∃ y m, y ∈ yielded ∧ nodes t !! x = Some m ∧ predecessor m = Some y).

(** [descends t k i]: following the back pointers of the tree from [i]
    leads to [k] (in no step when [i] is [k]). *)
Inductive descends (t : Tree) (k : string) : string → Prop :=
  | descends_self : descends t k k
  | descends_child (c p : string) (m : Node) :
      nodes t !! c = Some m → predecessor m = Some p → descends t k p →
      descends t k c.

(** Every node of the tree hangs under the root ["Kind"]. *)
Definition connected (t : Tree) : Prop :=
  ∀ i, is_Some (nodes t !! i) → descends t "Kind" i.

(** The shapes a persisted tree can have: no nodes at all, or a rooted
    tree. *)
Definition empty_or_rooted (t : Tree) : Prop :=
  nodes t = ∅ ∨ rooted t.

(** A second tree to try the operations on: a kind under the root and a
    kind under that one. *)
Definition family_tree : Tree :=
  add_child (add_child root_tree "Person" "Kind" ∅) "Employee" "Person" {["salary"]}.

(** The calls that build [family_tree]. *)
Definition family_ops : list Op :=
  [CreateKind "person" "Kind" None; CreateKind "employee" "person" (Some {["salary"]})].

(** The persisted store after a run of updates of the kind [q]. *)
Definition updates_of (q : string) (us : list (list string * list string)) (st : Store)
    : Store :=
  foldl (fun s u => (update_properties_of_kind q u.1 u.2 s).2) st us.

(** A tree to try the operations on: the root and one kind under it. *)
Definition sample_tree : Tree :=
  add_child root_tree "Employee" "Kind" {["salary"]}.

End Case.

End Props.

(** * Facts about [capitalize] *)

Module StrFacts.
Import Str.

Lemma upper_idemp (c : ascii) : upper (upper c) = upper c.
Proof. destruct c as [[] [] [] [] [] [] [] []]; reflexivity. Qed.

Lemma lower_idemp (c : ascii) : lower (lower c) = lower c.
Proof. destruct c as [[] [] [] [] [] [] [] []]; reflexivity. Qed.

Lemma lower_all_idemp (s : string) : lower_all (lower_all s) = lower_all s.
Proof.
  induction s as [|c r IH]; simpl; [reflexivity|].
  by rewrite lower_idemp, IH.
Qed.

(** On ASCII names normalization is idempotent. *)
Lemma ascii_capitalize_idemp (s : string) :
  ascii_capitalize (ascii_capitalize s) = ascii_capitalize s.
Proof.
  destruct s as [|c r]; simpl; [reflexivity|].
  by rewrite upper_idemp, lower_all_idemp.
Qed.

Lemma upper_ascii (c : ascii) : is_ascii c = true → is_ascii (upper c) = true.
Proof. destruct c as [[] [] [] [] [] [] [] []]; intros H; try reflexivity; exact H. Qed.

Lemma lower_ascii (c : ascii) : is_ascii c = true → is_ascii (lower c) = true.
Proof. destruct c as [[] [] [] [] [] [] [] []]; intros H; try reflexivity; exact H. Qed.

Lemma lower_all_ascii (s : string) : ascii_only s = true → ascii_only (lower_all s) = true.
Proof.
  induction s as [|c r IH]; simpl; [done|].
  intros [Hc Hr]%andb_true_iff. by rewrite lower_ascii, IH.
Qed.

(** The capitalized form of an ASCII name is an ASCII name. *)
Lemma ascii_capitalize_ascii (s : string) :
  ascii_only s = true → ascii_only (ascii_capitalize s) = true.
Proof.
  destruct s as [|c r]; simpl; [done|].
  intros [Hc Hr]%andb_true_iff. by rewrite upper_ascii, lower_all_ascii.
Qed.

Lemma capitalize_with_ascii (unicode : string → string) (s : string) :
  ascii_only s = true → capitalize_with unicode s = ascii_capitalize s.
Proof. intros H. unfold capitalize_with. by rewrite H. Qed.

Section Case.
Context {unicode : UnicodeCase}.

Lemma capitalize_Kind : capitalize "Kind" = "Kind".
Proof. reflexivity. Qed.

(** Among capitalized names only ["Kind"] capitalizes to ["Kind"]. *)
Lemma capitalize_root (x : string) :
  capitalize (capitalize x) = "Kind" → capitalize x = "Kind".
Proof. apply unicode_capitalize_root. Qed.

Lemma capitalize_ascii (s : string) :
  ascii_only s = true → capitalize s = ascii_capitalize s.
Proof. apply capitalize_with_ascii. Qed.

(** The capitalized form of an ASCII name is stable. *)
Lemma capitalize_ascii_stable (s : string) :
  ascii_only s = true → capitalize (capitalize s) = capitalize s.
Proof.
  intros Hs. rewrite (capitalize_ascii s Hs).
  rewrite capitalize_ascii by (by apply ascii_capitalize_ascii).
  apply ascii_capitalize_idemp.
Qed.

End Case.

End StrFacts.

(** * Facts about the tree primitives *)

Module TreelibFacts.
Import Treelib.

Lemma contains_true (t : Tree) (nid : string) :
  contains t nid = true ↔ is_Some (nodes t !! nid).
Proof. unfold contains. apply bool_decide_eq_true. Qed.

Lemma contains_false (t : Tree) (nid : string) :
  contains t nid = false ↔ nodes t !! nid = None.
Proof.
  unfold contains. rewrite bool_decide_eq_false, eq_None_not_Some. done.
Qed.

Lemma contains_Some (t : Tree) (nid : string) (n : Node) :
  nodes t !! nid = Some n → contains t nid = true.
Proof. intros H. apply contains_true. eauto. Qed.

Lemma list_remove_subseteq (x : string) (l : list string) : list_remove x l ⊆ l.
Proof.
  induction l as [|y l IH]; simpl; [done|].
  case_decide; set_solver.
Qed.

Lemma list_remove_NoDup (x : string) (l : list string) :
  NoDup l → NoDup (list_remove x l) ∧ x ∉ list_remove x l.
Proof.
  induction 1 as [|y l Hy Hl IH]; simpl.
  - split; [constructor | set_solver].
  - case_decide as Hxy.
    + subst. done.
    + destruct IH as [IH1 IH2]. split.
      * constructor; [|done]. intros Hin. apply Hy.
        by apply (list_remove_subseteq x l).
      * set_solver.
Qed.

Lemma list_remove_other (x y : string) (l : list string) :
  y ≠ x → y ∈ l → y ∈ list_remove x l.
Proof.
  intros Hne. induction l as [|z l IH]; simpl; [done|].
  intros Hin. case_decide; set_solver.
Qed.

(** Every identifier yielded by the traversal is a start point or somebody's
    child. *)
Lemma expand_queue_origin (fuel : nat) (t : Tree) (queue : list string) (x : string) :
  x ∈ expand_queue fuel t queue →
  x ∈ queue ∨ ∃ id m, nodes t !! id = Some m ∧ x ∈ successors m.
Proof.
  revert queue. induction fuel as [|fuel IH]; intros queue; simpl; [set_solver|].
  destruct queue as [|q rest]; [set_solver|].
  rewrite elem_of_cons. intros [->|Hin]; [left; set_solver|].
  apply IH in Hin as [Hin|Hin]; [|by right].
  apply elem_of_app in Hin as [Hin|Hin]; [|left; set_solver].
  right. unfold successors_of in Hin.
  destruct (nodes t !! q) as [m|] eqn:Hq; [|set_solver]. eauto.
Qed.

Lemma lookup_foldr_delete (m : gmap string Node) (l : list string) (i : string) :
  foldr delete m l !! i = if bool_decide (i ∈ l) then None else m !! i.
Proof.
  induction l as [|x l IH]; simpl; [done|].
  destruct (decide (x = i)) as [->|Hne].
  - rewrite lookup_delete_eq. rewrite bool_decide_eq_true_2; set_solver.
  - rewrite lookup_delete_ne by done. rewrite IH.
    destruct (decide (i ∈ l)).
    + rewrite !bool_decide_eq_true_2; set_solver.
    + rewrite !bool_decide_eq_false_2; set_solver.
Qed.

End TreelibFacts.

(** * How [create_kind] unfolds *)

Module CreateKindFacts.
Import Treelib Ontology TreelibFacts StrFacts.

Section Case.
Context {unicode : Str.UnicodeCase}.

Lemma initial_tree_None : initial_tree None = Ret root_tree.
Proof. reflexivity. Qed.

Lemma initial_tree_Some (t : Tree) : initial_tree (Some t) = Ret t.
Proof. reflexivity. Qed.

(** Without a threaded tree the call works on the persisted tree, or on
    the fresh root-only tree. *)
Lemma create_kind_start (limit : nat) (k p : string) (ps : option (gset string)) (st : Store) :
  create_kind limit k p None ps st
  = create_kind limit k p (Some (default root_tree st)) ps st.
Proof. destruct limit as [|limit]; [done|]. destruct st as [t|]; reflexivity. Qed.

Lemma create_node_dup (t : Tree) (k : string) (parent : option string) (d : Entity) :
  is_Some (nodes t !! k) → create_node t k k parent d = Raise DuplicatedNodeIdError.
Proof. intros H. unfold create_node. by rewrite (proj2 (contains_true t k) H). Qed.

Lemma create_node_new (t : Tree) (k p : string) (d : gset string) :
  nodes t !! k = None → is_Some (nodes t !! p) →
  create_node t k k (Some p) (mkEntity d) = Ret (add_child t k p d).
Proof.
  intros Hk Hp. unfold create_node.
  rewrite (proj2 (contains_false t k) Hk), (proj2 (contains_true t p) Hp). done.
Qed.

(** A duplicate identifier: nothing is inserted, nothing is saved. *)
Lemma insert_kind_dup (t : Tree) (k p : string) (pn : Node) (d : gset string) (st : Store) :
  is_Some (nodes t !! k) → insert_kind t k p pn d st = (Ret t, st).
Proof. intros H. unfold insert_kind. by rewrite create_node_dup. Qed.

(** A new identifier under a present parent: inserted with the inherited
    properties, and saved. *)
Lemma insert_kind_new (t : Tree) (k p : string) (pn : Node) (d : gset string) (st : Store) :
  nodes t !! k = None → is_Some (nodes t !! p) →
  insert_kind t k p pn d st
  = (Ret (add_child t k p (d ∪ properties (data pn))),
     Some (add_child t k p (d ∪ properties (data pn)))).
Proof. intros Hk Hp. unfold insert_kind. by rewrite create_node_new. Qed.

(** The parent is in the tree: no nested call. *)
Lemma create_kind_parent_present (limit : nat) (k p : string) (t : Tree) (pn : Node)
    (ps : option (gset string)) (st : Store) :
  nodes t !! Str.capitalize p = Some pn →
  create_kind (S limit) k p (Some t) ps st
  = insert_kind t (Str.capitalize k) (Str.capitalize p) pn (default ∅ ps) st.
Proof. intros Hp. simpl. unfold get_node. by rewrite Hp. Qed.

(** Neither the parent nor the root is in the tree: every nested call asks
    for the root again, whatever the bound on nested calls. *)
Lemma create_kind_rootless (limit : nat) (k p : string) (t : Tree)
    (ps : option (gset string)) (st : Store) :
  nodes t !! Str.capitalize p = None → nodes t !! "Kind" = None →
  create_kind limit k p (Some t) ps st = (Raise RecursionError, st).
Proof.
  revert k p ps. induction limit as [|limit IH]; intros k p ps Hp Hroot; [done|].
  simpl. unfold get_node. rewrite Hp.
  rewrite IH; [done| |done].
  by rewrite capitalize_Kind.
Qed.

Lemma lookup_add_child_new (t : Tree) (k p : string) (d : gset string) :
  k ≠ p → nodes (add_child t k p d) !! k = Some (mkNode k k (mkEntity d) (Some p) []).
Proof.
  intros Hne. simpl. rewrite lookup_alter_ne by done. by rewrite lookup_insert_eq.
Qed.

Lemma lookup_add_child_parent (t : Tree) (k p : string) (d : gset string) :
  k ≠ p → nodes (add_child t k p d) !! p = add_successor k <$> nodes t !! p.
Proof.
  intros Hne. simpl. rewrite lookup_alter_eq. by rewrite lookup_insert_ne.
Qed.

Lemma lookup_add_child_other (t : Tree) (k p i : string) (d : gset string) :
  i ≠ k → i ≠ p → nodes (add_child t k p d) !! i = nodes t !! i.
Proof.
  intros Hk Hp. simpl. rewrite lookup_alter_ne by done. by rewrite lookup_insert_ne.
Qed.

(** Whatever was in the tree is still there, with the same payload. *)
Lemma lookup_add_child_old (t : Tree) (k p i : string) (d : gset string) (n : Node) :
  nodes t !! k = None → nodes t !! i = Some n →
  ∃ n', nodes (add_child t k p d) !! i = Some n' ∧ data n' = data n ∧
        tag n' = tag n ∧ identifier n' = identifier n ∧ predecessor n' = predecessor n.
Proof.
  intros Hk Hi. assert (i ≠ k) by congruence.
  destruct (decide (i = p)) as [->|Hne].
  - rewrite lookup_add_child_parent by done. rewrite Hi. simpl. eauto 10.
  - rewrite lookup_add_child_other by done. eauto 10.
Qed.

(** The parent is missing but the root is there: one nested call, for the
    parent under the root; the outer call continues on the tree it returns,
    where it looks the parent up again. *)
Lemma create_kind_parent_missing (limit : nat) (k p : string) (t : Tree) (kn : Node)
    (ps : option (gset string)) (st : Store) :
  nodes t !! Str.capitalize p = None → nodes t !! "Kind" = Some kn →
  let P := Str.capitalize p in
  create_kind (S (S limit)) k p (Some t) ps st
  = match insert_kind t (Str.capitalize P) "Kind" kn ∅ st with
    | (Raise e, st') => (Raise e, st')
    | (Ret tree', st') =>
        match get_node tree' P with
        | Some parent_node =>
            insert_kind tree' (Str.capitalize k) P parent_node (default ∅ ps) st'
        | None => (Raise AttributeError, st')
        end
    end.
Proof.
  intros Hp Hroot P.
  change (create_kind (S (S limit)) k p (Some t) ps st) with
    (match get_node t P with
     | Some parent_node =>
         insert_kind t (Str.capitalize k) P parent_node (default ∅ ps) st
     | None =>
         match create_kind (S limit) P "Kind" (Some t) None st with
         | (Raise e, st') => (Raise e, st')
         | (Ret tree', st') =>
             match get_node tree' P with
             | Some parent_node =>
                 insert_kind tree' (Str.capitalize k) P parent_node (default ∅ ps) st'
             | None => (Raise AttributeError, st')
             end
         end
     end).
  unfold get_node at 1. fold P in Hp. rewrite Hp.
  rewrite (create_kind_parent_present limit P "Kind" t kn None st)
    by (by rewrite capitalize_Kind).
  by rewrite capitalize_Kind.
Qed.

(** The missing parent has a stable capitalized form: the nested call
    inserts it under the root and saves; the outer call continues on that
    tree. *)
Lemma create_kind_parent_absent (limit : nat) (k p : string) (t : Tree) (kn : Node)
    (ps : option (gset string)) (st : Store) :
  nodes t !! Str.capitalize p = None → nodes t !! "Kind" = Some kn →
  Str.capitalize (Str.capitalize p) = Str.capitalize p →
  let P := Str.capitalize p in
  let tP := add_child t P "Kind" (∅ ∪ properties (data kn)) in
  create_kind (S (S limit)) k p (Some t) ps st
  = insert_kind tP (Str.capitalize k) P
      (mkNode P P (mkEntity (∅ ∪ properties (data kn))) (Some "Kind") [])
      (default ∅ ps) (Some tP).
Proof.
  intros Hp Hroot Hstable P tP.
  assert (P ≠ "Kind") as Hne by (intros Heq; subst P; congruence).
  rewrite (create_kind_parent_missing limit k p t kn ps st Hp Hroot). fold P.
  subst P. rewrite Hstable. rewrite insert_kind_new by eauto.
  unfold get_node. rewrite lookup_add_child_new by done. done.
Qed.

(** The capitalized form of the missing parent capitalizes to another
    name, which is in the tree: the nested call is a duplicate, and the
    outer call finds no parent. *)
Lemma create_kind_parent_respelled_dup (limit : nat) (k p : string) (t : Tree) (kn : Node)
    (ps : option (gset string)) (st : Store) :
  nodes t !! Str.capitalize p = None → nodes t !! "Kind" = Some kn →
  is_Some (nodes t !! Str.capitalize (Str.capitalize p)) →
  create_kind (S (S limit)) k p (Some t) ps st = (Raise AttributeError, st).
Proof.
  intros Hp Hroot Hdup.
  rewrite (create_kind_parent_missing limit k p t kn ps st Hp Hroot).
  rewrite insert_kind_dup by done. unfold get_node. by rewrite Hp.
Qed.

(** The capitalized form of the missing parent capitalizes to another
    name, which is not in the tree: the nested call inserts and saves that
    name, and the outer call finds no parent. *)
Lemma create_kind_parent_respelled_new (limit : nat) (k p : string) (t : Tree) (kn : Node)
    (ps : option (gset string)) (st : Store) :
  nodes t !! Str.capitalize p = None → nodes t !! "Kind" = Some kn →
  nodes t !! Str.capitalize (Str.capitalize p) = None →
  Str.capitalize (Str.capitalize p) ≠ Str.capitalize p →
  let tP := add_child t (Str.capitalize (Str.capitalize p)) "Kind"
              (∅ ∪ properties (data kn)) in
  create_kind (S (S limit)) k p (Some t) ps st = (Raise AttributeError, Some tP).
Proof.
  intros Hp Hroot Hnew Hne tP.
  assert (Str.capitalize p ≠ "Kind") as HneK by congruence.
  rewrite (create_kind_parent_missing limit k p t kn ps st Hp Hroot).
  rewrite insert_kind_new by eauto. unfold get_node.
  rewrite lookup_add_child_other by done. by rewrite Hp.
Qed.

End Case.

End CreateKindFacts.

(** * Property updates *)

Module UpdateFacts.
Import Treelib Ontology Props TreelibFacts.

Lemma live_0 (ps : gset string) (old new : list string) : live ps old new 0 = ps.
Proof. unfold live. by rewrite take_0. Qed.

Lemma live_cons (ps : gset string) (o n : string) (old new : list string) (i : nat) :
  live ps (o :: old) (n :: new) (S i) = live (replace_property ps (o, n)) old new i.
Proof. reflexivity. Qed.

Lemma all_present_cons (ps : gset string) (o n : string) (old new : list string) :
  all_present ps (o :: old) (n :: new)
  ↔ o ∈ ps ∧ all_present (replace_property ps (o, n)) old new.
Proof.
  unfold all_present. split.
  - intros H. split.
    + specialize (H 0 o eq_refl). by rewrite live_0 in H.
    + intros i prop Hi. specialize (H (S i) prop Hi). by rewrite live_cons in H.
  - intros [H0 H] [|i] prop Hi.
    + simpl in Hi. inversion Hi; subst. by rewrite live_0.
    + rewrite live_cons. by apply H.
Qed.

(** The loop, started at index [length done] of [done ++ new], succeeds
    exactly when every old property is present in the live set, and then
    yields the set with all pairs applied. *)
Lemma update_loop_live (ps : gset string) (done old new : list string) :
  length old = length new →
  (all_present ps old new →
   update_loop ps (length done) old (done ++ new)
   = Ret (Some (live ps old new (length old)))) ∧
  (¬ all_present ps old new →
   update_loop ps (length done) old (done ++ new) = Ret None).
Proof.
  revert ps done new. induction old as [|o old IH]; intros ps done new Hlen.
  - destruct new; [|done]. simpl. rewrite live_0. split; [done|].
    intros H. exfalso. apply H. intros i prop Hi. done.
  - destruct new as [|n new]; [done|]. simpl in Hlen.
    rewrite all_present_cons. cbn [update_loop].
    destruct (decide (o ∈ ps)) as [Hin|Hnin].
    + rewrite bool_decide_eq_true_2 by done.
      rewrite lookup_app_r by lia. rewrite Nat.sub_diag. cbn [lookup list_lookup].
      replace (done ++ n :: new)%list with ((done ++ [n]) ++ new)%list
        by (by rewrite <- app_assoc).
      replace (S (length done)) with (length (done ++ [n])%list)
        by (rewrite length_app; simpl; lia).
      change (length (o :: old)) with (S (length old)). rewrite live_cons.
      destruct (IH (replace_property ps (o, n)) (done ++ [n])%list new) as [IH1 IH2]; [lia|].
      split; [intros [_ H]; by apply IH1 | intros H; apply IH2; tauto].
    + rewrite bool_decide_eq_false_2 by done. split; [tauto|done].
Qed.

Lemma update_loop_present (ps : gset string) (old new : list string) :
  length old = length new → all_present ps old new →
  update_loop ps 0 old new = Ret (Some (live ps old new (length old))).
Proof. intros H. apply (update_loop_live ps [] old new H). Qed.

Lemma update_loop_missing (ps : gset string) (old new : list string) :
  length old = length new → ¬ all_present ps old new →
  update_loop ps 0 old new = Ret None.
Proof. intros H. apply (update_loop_live ps [] old new H). Qed.

End UpdateFacts.

(** * [update_properties_of_kind] *)

Module UpdateProperties.
Import Treelib Ontology Props TreelibFacts UpdateFacts.

(** Either every old property is present when it is looked up, or some
    index exhibits a missing one. *)
Lemma all_present_or_missing (ps : gset string) (old new : list string) :
  length old = length new →
  all_present ps old new ∨ ∃ i prop, old !! i = Some prop ∧ prop ∉ live ps old new i.
Proof.
  revert ps new. induction old as [|o old IH]; intros ps new Hlen.
  - left. intros i prop Hi. done.
  - destruct new as [|n new]; [done|]. simpl in Hlen.
    destruct (decide (o ∈ ps)) as [Hin|Hnin].
    + destruct (IH (replace_property ps (o, n)) new) as [Ha|(i & prop & Hi & Hm)]; [lia| |].
      * left. apply all_present_cons. by split.
      * right. exists (S i), prop. by rewrite live_cons.
    + right. exists 0, o. by rewrite live_0.
Qed.

(** C4 (atomic property update): for a kind present in the persisted tree
    and lists of equal length, [update_properties_of_kind] has exactly two
    behaviours.  Either every old property is present when its pair is
    processed, every pair is applied in order and the tree with the new
    property set is persisted; or some old property is missing when its
    pair is processed, the call reports the failure and the persisted tree,
    hence the stored property set of the kind, is the one before the
    call. *)
Theorem update_properties_atomic (t : Tree) (k : string) (n : Node) (old new : list string) :
  nodes t !! k = Some n →
  length old = length new →
  let ps := properties (data n) in
  (all_present ps old new ∧
   update_properties_of_kind k old new (Some t)
   = (Ret Updated, Some (with_properties t k n (live ps old new (length old)))) ∧
   get_kind_properties k (update_properties_of_kind k old new (Some t)).2
   = Some (live ps old new (length old)))
  ∨
  ((∃ i prop, old !! i = Some prop ∧ prop ∉ live ps old new i) ∧
   update_properties_of_kind k old new (Some t) = (Ret PropertyNotFound, Some t) ∧
   get_kind_properties k (update_properties_of_kind k old new (Some t)).2 = Some ps).
Proof.
  intros Hk Hlen ps.
  assert (get_kind_properties k (Some t) = Some ps) as Hget.
  { unfold get_kind_properties. simpl. unfold get_node. by rewrite Hk. }
  unfold update_properties_of_kind. simpl. unfold get_node. rewrite Hk. fold ps.
  destruct (all_present_or_missing ps old new Hlen) as [Ha|Hm].
  - left. split; [done|]. rewrite update_loop_present by done.
    split; [done|]. unfold get_kind_properties, with_properties. simpl.
    unfold get_node. simpl. by rewrite lookup_insert_eq.
  - right. split; [done|]. rewrite update_loop_missing; [by split|done|].
    intros Ha. destruct Hm as (i & prop & Hi & Hm). by apply Hm, Ha.
Qed.

Lemma update_properties_atomic_witness :
  get_kind_properties "Employee"
    (update_properties_of_kind "Employee" ["salary"] ["wage"] (Some sample_tree)).2
  = Some {["wage"]}.
Proof.
  assert (nodes sample_tree !! "Employee"
          = Some (mkNode "Employee" "Employee" (mkEntity {["salary"]}) (Some "Kind") []))
    as Hk by reflexivity.
  assert (length ["salary"] = length ["wage"]) as Hlen by reflexivity.
  destruct (update_properties_atomic sample_tree "Employee" _ ["salary"] ["wage"] Hk Hlen)
    as [(_ & _ & H)|((i & prop & Hi & Hm) & _)].
  - rewrite H. vm_compute. reflexivity.
  - exfalso. destruct i as [|i]; [|done]. inversion Hi; subst. apply Hm.
    vm_compute. set_solver.
Defined.

(** The loop does not care where the pairs start in the list of new
    names. *)
Lemma update_loop_shift (ps : gset string) (idx : nat) (old : list string) (n : string)
    (new : list string) :
  update_loop ps (S idx) old (n :: new) = update_loop ps idx old new.
Proof.
  revert ps idx. induction old as [|o old IH]; intros ps idx; [done|].
  cbn [update_loop]. destruct (bool_decide (o ∈ ps)); [|done].
  change ((n :: new) !! S idx) with (new !! idx).
  destruct (new !! idx); [apply IH|done].
Qed.

(** C9, as stated, fails: for a kind whose property set is [{"a"}], the
    call with old properties ["a"; "a"] succeeds when the first new name
    is ["a"] again, since the first replacement then leaves ["a"] in the
    set. *)
Lemma update_properties_sequential_counterexample :
  let t := add_child root_tree "A" "Kind" {["a"]} in
  get_kind_properties "A" (Some t) = Some {["a"]}
  ∧ (update_properties_of_kind "A" ["a"; "a"] ["a"; "z"] (Some t)).1 = Ret Updated
  ∧ get_kind_properties "A"
      (update_properties_of_kind "A" ["a"; "a"] ["a"; "z"] (Some t)).2 = Some {["z"]}.
Proof. vm_compute. repeat split; reflexivity. Qed.

(** C9 (pairs are processed left to right on the live set): for a kind of
    the persisted tree, a call whose first old property is missing reports
    it and saves nothing; a call whose first old property is present goes
    on as the call for the remaining pairs would on the tree in which the
    first replacement is made: same report, same saved tree when all pairs
    are applied, and nothing saved otherwise.  Consequently, for a kind
    whose stored property set is [{"a"}], renaming ["a"] twice fails when
    the first new name is not ["a"] (the first replacement took ["a"]
    away), and succeeds when it is; and renaming ["a"] to ["b"] and then
    ["b"] to ["c"] succeeds and stores [{"c"}]. *)
Theorem update_properties_sequential (t : Tree) (k : string) (node : Node)
    (o n : string) (old new : list string) (x y : string) :
  nodes t !! k = Some node →
  let ps := properties (data node) in
  let t1 := with_properties t k node ((ps ∖ {[o]}) ∪ {[n]}) in
  (o ∉ ps →
   update_properties_of_kind k (o :: old) (n :: new) (Some t) = (Ret PropertyNotFound, Some t))
  ∧ (o ∈ ps →
     (update_properties_of_kind k (o :: old) (n :: new) (Some t)).1
     = (update_properties_of_kind k old new (Some t1)).1
     ∧ ((update_properties_of_kind k old new (Some t1)).1 = Ret Updated →
        (update_properties_of_kind k (o :: old) (n :: new) (Some t)).2
        = (update_properties_of_kind k old new (Some t1)).2)
     ∧ ((update_properties_of_kind k old new (Some t1)).1 ≠ Ret Updated →
        (update_properties_of_kind k (o :: old) (n :: new) (Some t)).2 = Some t))
  ∧ (ps = {["a"]} → x ≠ "a" →
     update_properties_of_kind k ["a"; "a"] [x; y] (Some t) = (Ret PropertyNotFound, Some t))
  ∧ (ps = {["a"]} →
     (update_properties_of_kind k ["a"; "a"] ["a"; y] (Some t)).1 = Ret Updated
     ∧ get_kind_properties k (update_properties_of_kind k ["a"; "a"] ["a"; y] (Some t)).2
       = Some {[y]})
  ∧ (ps = {["a"]} →
     (update_properties_of_kind k ["a"; "b"] ["b"; "c"] (Some t)).1 = Ret Updated
     ∧ get_kind_properties k (update_properties_of_kind k ["a"; "b"] ["b"; "c"] (Some t)).2
       = Some {["c"]}).
Proof.
  intros Hk ps t1.
  split; [|split; [|split; [|split]]].
  - intros Ho. unfold update_properties_of_kind. simpl. unfold get_node. rewrite Hk.
    fold ps. cbn [update_loop]. by rewrite bool_decide_eq_false_2.
  - intros Ho.
    assert (nodes t1 !! k = Some (set_data node (mkEntity ((ps ∖ {[o]}) ∪ {[n]})))) as Hk1.
    { subst t1. simpl. by rewrite lookup_insert_eq. }
    unfold update_properties_of_kind. simpl. unfold get_node. rewrite Hk, Hk1.
    fold ps. cbn [update_loop]. rewrite bool_decide_eq_true_2 by done.
    cbn [lookup list_lookup]. rewrite update_loop_shift. simpl.
    destruct (update_loop _ 0 old new) as [[qs|]|e]; simpl.
    + split; [done|]. split; [|intros Hne; by destruct Hne]. intros _.
      unfold save_ontology_graph. f_equal.
      unfold with_properties. simpl. rewrite insert_insert_eq. reflexivity.
    + split; [done|]. split; done.
    + split; [done|]. split; done.
  - intros Hps Hx. unfold update_properties_of_kind. simpl. unfold get_node. rewrite Hk.
    fold ps. rewrite Hps. cbn [update_loop lookup list_lookup].
    rewrite (bool_decide_eq_true_2 ("a" ∈ ({["a"]} : gset string))) by set_solver.
    rewrite (bool_decide_eq_false_2 ("a" ∈ _ ∖ _ ∪ {[x]})) by set_solver. done.
  - intros Hps. unfold update_properties_of_kind. simpl. unfold get_node. rewrite Hk.
    fold ps. rewrite Hps. cbn [update_loop lookup list_lookup].
    rewrite (bool_decide_eq_true_2 ("a" ∈ ({["a"]} : gset string))) by set_solver.
    rewrite (bool_decide_eq_true_2 ("a" ∈ _ ∖ _ ∪ {["a"]})) by set_solver.
    split; [done|]. unfold get_kind_properties. simpl. unfold get_node. simpl.
    rewrite lookup_insert_eq. simpl. f_equal; set_solver.
  - intros Hps. unfold update_properties_of_kind. simpl. unfold get_node. rewrite Hk.
    fold ps. rewrite Hps. cbn [update_loop lookup list_lookup].
    rewrite (bool_decide_eq_true_2 ("a" ∈ ({["a"]} : gset string))) by set_solver.
    rewrite (bool_decide_eq_true_2 ("b" ∈ _)) by set_solver.
    split; [done|]. unfold get_kind_properties. simpl. unfold get_node. simpl.
    rewrite lookup_insert_eq. simpl. f_equal; set_solver.
Qed.

Lemma update_properties_sequential_witness :
  update_properties_of_kind "A" ["a"; "a"] ["b"; "c"]
    (Some (add_child root_tree "A" "Kind" {["a"]}))
  = (Ret PropertyNotFound, Some (add_child root_tree "A" "Kind" {["a"]})).
Proof.
  assert (nodes (add_child root_tree "A" "Kind" {["a"]}) !! "A"
          = Some (mkNode "A" "A" (mkEntity {["a"]}) (Some "Kind") [])) as Hk
    by reflexivity.
  destruct (update_properties_sequential (add_child root_tree "A" "Kind" {["a"]}) "A"
              _ "a" "b" ["a"] ["c"] "b" "c" Hk) as (_ & _ & H & _).
  apply H; [reflexivity|discriminate].
Defined.

End UpdateProperties.

(** * [are_properties_in_kind] *)

Module Membership.
Import Treelib Ontology Props.

Section Case.
Context {unicode : Str.UnicodeCase}.

(** On a kind that resolves, the check returns a boolean, true exactly when
    every listed property is stored on the kind. *)
Lemma membership_sound (props : list string) (k : string) (st : Store) (ps : gset string) :
  get_kind_properties k st = Some ps →
  ∃ b, are_properties_in_kind props k st = Ret b ∧ (b = true ↔ ∀ x, x ∈ props → x ∈ ps).
Proof.
  intros Hk. unfold are_properties_in_kind. rewrite Hk.
  induction props as [|p props (b & IH1 & IH2)]; simpl.
  - exists true. split; [done|]. split; [set_solver|done].
  - destruct (decide (p ∈ ps)) as [Hin|Hnin].
    + rewrite bool_decide_eq_true_2 by done. exists b. split; [done|].
      rewrite IH2. set_solver.
    + rewrite bool_decide_eq_false_2 by done. exists false. split; [done|].
      split; [done|]. intros H. exfalso. apply Hnin, H. set_solver.
Qed.

(** C3 (the membership check on a kind that does not resolve): with no
    saved tree, and with a saved tree that does not hold the kind, a
    non-empty property list makes [are_properties_in_kind] raise
    [TypeError] instead of returning a boolean. *)
Theorem membership_of_missing_kind_raises :
  are_properties_in_kind ["a"] "Ghost" None = Raise TypeError
  ∧ are_properties_in_kind ["a"] "Ghost" (run 1000 [CreateKind "Person" "Kind" None] None)
    = Raise TypeError.
Proof. split; reflexivity. Qed.

(** C10 (vacuous membership): with an empty property list the check
    returns true for every kind name and every persisted store, also when
    the kind does not resolve or nothing was saved. *)
Theorem membership_of_nothing (k : string) (st : Store) :
  are_properties_in_kind [] k st = Ret true.
Proof. reflexivity. Qed.

End Case.

End Membership.

(** * [create_kind] *)

Module CreateKind.
Import Treelib Ontology Props TreelibFacts StrFacts CreateKindFacts.

Section Case.
Context {unicode : Str.UnicodeCase}.

(** The ways a call of [create_kind] can end: the bound on nested calls
    is hit and nothing is saved; the kind is a duplicate under a present
    parent and nothing is saved; the kind is inserted under its present
    parent; the missing parent, of stable capitalized form, is inserted
    under the root, alone when the kind is a duplicate, or with the kind
    under it; the capitalized form of the missing parent capitalizes to
    another name, which the nested call finds in the tree, or inserts
    under the root, and the outer call raises [AttributeError]. *)
Lemma create_kind_cases (limit : nat) (k p : string) (ps : option (gset string)) (st : Store) :
  let t0 := default root_tree st in
  let K := Str.capitalize k in
  let P := Str.capitalize p in
  let r := create_kind limit k p None ps st in
  r = (Raise RecursionError, st)
  ∨ (is_Some (nodes t0 !! P) ∧ is_Some (nodes t0 !! K) ∧ r = (Ret t0, st))
  ∨ (∃ pn, nodes t0 !! P = Some pn ∧ nodes t0 !! K = None ∧
           let t1 := add_child t0 K P (default ∅ ps ∪ properties (data pn)) in
           r = (Ret t1, Some t1))
  ∨ (∃ kn, nodes t0 !! P = None ∧ nodes t0 !! "Kind" = Some kn ∧
       Str.capitalize P = P ∧
       let d := ∅ ∪ properties (data kn) in
       let tP := add_child t0 P "Kind" d in
       (is_Some (nodes tP !! K) ∧ r = (Ret tP, Some tP))
       ∨ (nodes tP !! K = None ∧
          let t2 := add_child tP K P (default ∅ ps ∪ d) in
          r = (Ret t2, Some t2)))
  ∨ (∃ kn, nodes t0 !! P = None ∧ nodes t0 !! "Kind" = Some kn ∧
       Str.capitalize P ≠ P ∧
       ((is_Some (nodes t0 !! Str.capitalize P) ∧ r = (Raise AttributeError, st))
        ∨ (nodes t0 !! Str.capitalize P = None ∧
           r = (Raise AttributeError,
                Some (add_child t0 (Str.capitalize P) "Kind"
                        (∅ ∪ properties (data kn))))))).
Proof.
  intros t0 K P r. subst r. rewrite create_kind_start. fold t0.
  destruct limit as [|limit]; [by left|].
  destruct (nodes t0 !! P) as [pn|] eqn:HP.
  - rewrite (create_kind_parent_present _ _ _ _ pn) by done. fold K P.
    destruct (nodes t0 !! K) as [kn|] eqn:HK.
    + rewrite insert_kind_dup by eauto. right. left. eauto.
    + rewrite insert_kind_new by eauto. right. right. left. eauto.
  - destruct (nodes t0 !! "Kind") as [kn|] eqn:Hroot.
    + destruct limit as [|limit].
      * left. simpl. unfold get_node. fold P. by rewrite HP.
      * destruct (decide (Str.capitalize P = P)) as [Hstable|Hne].
        -- rewrite (create_kind_parent_absent _ _ _ _ kn) by done. fold K P.
           right. right. right. left. exists kn.
           split; [done|]. split; [done|]. split; [done|]. simpl.
           set (tP := add_child t0 P "Kind" (∅ ∪ properties (data kn))).
           destruct (nodes tP !! K) as [kn'|] eqn:HK.
           ++ rewrite insert_kind_dup by eauto. left. eauto.
           ++ rewrite insert_kind_new; [by right|done|].
              subst tP. rewrite lookup_add_child_new; [eauto|]. congruence.
        -- right. right. right. right. exists kn.
           split; [done|]. split; [done|]. split; [done|].
           destruct (nodes t0 !! Str.capitalize P) as [n2|] eqn:HP2.
           ++ left. split; [eauto|].
              apply (create_kind_parent_respelled_dup _ _ _ _ kn); [done|done|].
              fold P. rewrite HP2. eauto.
           ++ right. split; [done|].
              by apply (create_kind_parent_respelled_new _ _ _ _ kn).
    + rewrite create_kind_rootless by done. by left.
Qed.

(** With the root in the tree, two nested calls are all [create_kind]
    needs: for every larger bound it ends as for this one, and not on the
    bound. *)
Lemma create_kind_returns (limit : nat) (k p : string) (ps : option (gset string))
    (st : Store) :
  is_Some (nodes (default root_tree st) !! "Kind") →
  (create_kind 2 k p None ps st).1 ≠ Raise RecursionError ∧
  create_kind (S (S limit)) k p None ps st = create_kind 2 k p None ps st.
Proof.
  intros [kn Hroot]. rewrite !create_kind_start.
  set (t0 := default root_tree st) in *.
  destruct (nodes t0 !! Str.capitalize p) as [pn|] eqn:HP.
  - rewrite !(create_kind_parent_present _ _ _ _ pn) by done. split; [|done].
    destruct (nodes t0 !! Str.capitalize k) as [n|] eqn:HK.
    + by rewrite insert_kind_dup by eauto.
    + by rewrite insert_kind_new by eauto.
  - rewrite (create_kind_parent_missing limit _ _ _ kn) by done.
    rewrite (create_kind_parent_missing 0 _ _ _ kn) by done. split; [|done].
    destruct (nodes t0 !! Str.capitalize (Str.capitalize p)) as [n2|] eqn:HP2.
    + rewrite insert_kind_dup by eauto. unfold get_node. by rewrite HP.
    + rewrite insert_kind_new by eauto.
      set (tP := add_child t0 _ "Kind" _). destruct (get_node tP _) as [pn|]; [|done].
      destruct (nodes tP !! Str.capitalize k) as [n|] eqn:HK.
      * by rewrite insert_kind_dup by eauto.
      * unfold insert_kind. destruct (create_node _ _ _ _ _) as [t2|e] eqn:Hcn; [done|].
        destruct e; try done.
        all: unfold create_node in Hcn;
          rewrite (proj2 (contains_false tP _) HK) in Hcn;
          destruct (contains tP (Str.capitalize p)); done.
Qed.

(** C7 (termination of the missing-parent repair): once [remove_kind] was
    applied to the root, the persisted tree is an empty tree, not an absent
    one; on it every call of [create_kind] keeps calling itself for the
    root until the interpreter's bound on nested calls is hit, whatever
    that bound is, and nothing is saved. *)
Theorem create_kind_without_root_recurses (limit : nat) (k p : string)
    (ps : option (gset string)) :
  let st := run 1000 [CreateKind "A" "Kind" None; RemoveKind "Kind"] None in
  st = Some empty_tree ∧
  create_kind limit k p None ps st = (Raise RecursionError, st).
Proof.
  assert (run 1000 [CreateKind "A" "Kind" None; RemoveKind "Kind"] None = Some empty_tree)
    as -> by (vm_compute; reflexivity).
  split; [done|]. rewrite create_kind_start. simpl default.
  apply create_kind_rootless; apply lookup_empty.
Qed.


End Case.

#[local] Existing Instance Str.unchanged_unicode.



End CreateKind.

(** * Inheritance at creation *)

Module Inheritance.
Import Treelib Ontology Props TreelibFacts StrFacts CreateKindFacts CreateKind.

Section Case.
Context {unicode : Str.UnicodeCase}.

(** An update of one kind leaves the stored set of any other kind alone. *)
Lemma update_properties_frame (q k : string) (old new : list string) (st : Store) :
  q ≠ k →
  get_kind_properties k (update_properties_of_kind q old new st).2
  = get_kind_properties k st.
Proof.
  intros Hne. unfold update_properties_of_kind.
  destruct (get_kind_node (load_ontology_graph st) q) as [qn|]; [|done].
  destruct (update_loop _ 0 old new) as [[ps'|]|e]; [|done|done].
  destruct st as [t|]; [|done]. simpl.
  unfold get_kind_properties. simpl. unfold get_node. simpl.
  by rewrite lookup_insert_ne.
Qed.

Lemma updates_frame (q k : string) (us : list (list string * list string)) (st : Store) :
  q ≠ k → get_kind_properties k (updates_of q us st) = get_kind_properties k st.
Proof.
  intros Hne. revert st. induction us as [|u us IH]; intros st; [done|].
  unfold updates_of in *. simpl. rewrite IH. by apply update_properties_frame.
Qed.

(** C6 (inheritance on create): a call of [create_kind] for a kind that is
    not in the tree, under a parent that is in it, or under another name
    that is not, of stable capitalized form, when the root is in the tree,
    returns and saves a tree in which the kind is a leaf under the parent,
    with the requested set united with the set stored on the parent as its
    property set.  The parent's set is the one it had before the call, or,
    for a parent the call created, the set of the root.  Updates of the
    parent's properties made afterwards leave the kind's stored set as it
    is. *)
Theorem inheritance_on_create (limit : nat) (k p : string) (ps : option (gset string))
    (st : Store) :
  let K := Str.capitalize k in
  let P := Str.capitalize p in
  let t0 := default root_tree st in
  nodes t0 !! K = None →
  is_Some (nodes t0 !! P)
  ∨ (nodes t0 !! P = None ∧ is_Some (nodes t0 !! "Kind") ∧ Str.capitalize P = P ∧ K ≠ P) →
  ∃ t' Pp,
    create_kind (S (S limit)) k p None ps st = (Ret t', Some t')
    ∧ get_kind_properties P (Some t') = Some Pp
    ∧ (∀ pn, nodes t0 !! P = Some pn → Pp = properties (data pn))
    ∧ (nodes t0 !! P = None → ∀ kn, nodes t0 !! "Kind" = Some kn → Pp = properties (data kn))
    ∧ get_kind_node (Some t') K
      = Some (mkNode K K (mkEntity (default ∅ ps ∪ Pp)) (Some P) [])
    ∧ get_kind_properties K (Some t') = Some (default ∅ ps ∪ Pp)
    ∧ ∀ us, get_kind_properties K (updates_of P us (Some t')) = Some (default ∅ ps ∪ Pp).
Proof.
  intros K P t0 HK Hcase. rewrite create_kind_start. fold t0.
  assert (∀ t' Pp, K ≠ P →
            nodes t' !! K = Some (mkNode K K (mkEntity (default ∅ ps ∪ Pp)) (Some P) []) →
            get_kind_node (Some t') K
            = Some (mkNode K K (mkEntity (default ∅ ps ∪ Pp)) (Some P) [])
            ∧ get_kind_properties K (Some t') = Some (default ∅ ps ∪ Pp)
            ∧ ∀ us, get_kind_properties K (updates_of P us (Some t'))
                    = Some (default ∅ ps ∪ Pp)) as Hfin.
  { intros t' Pp Hne Hn.
    assert (get_kind_properties K (Some t') = Some (default ∅ ps ∪ Pp)) as Hget.
    { unfold get_kind_properties. simpl. unfold get_node. by rewrite Hn. }
    split; [done|]. split; [done|].
    intros us. by rewrite updates_frame. }
  destruct Hcase as [[pn HP]|(HP & [kn Hroot] & Hstable & Hne)].
  - assert (K ≠ P) as Hne by congruence.
    rewrite (create_kind_parent_present _ _ _ _ pn) by done. fold K P.
    rewrite insert_kind_new by eauto.
    eexists _, (properties (data pn)). split; [done|].
    split.
    { unfold get_kind_properties. simpl. unfold get_node.
      rewrite lookup_add_child_parent by done. by rewrite HP. }
    split; [intros pn' Hpn'; congruence|].
    split; [intros HP'; congruence|].
    apply Hfin; [done|]. by rewrite lookup_add_child_new.
  - assert (P ≠ "Kind") as HPK by congruence.
    rewrite (create_kind_parent_absent _ _ _ _ kn) by done. fold K P.
    assert (nodes (add_child t0 P "Kind" (∅ ∪ properties (data kn))) !! K = None) as HK'.
    { rewrite lookup_add_child_other; [done|done|]. congruence. }
    rewrite insert_kind_new; [|done|rewrite lookup_add_child_new by done; eauto].
    simpl properties.
    replace (∅ ∪ properties (data kn)) with (properties (data kn)) by set_solver.
    eexists _, (properties (data kn)). split; [done|].
    split.
    { unfold get_kind_properties. simpl. unfold get_node.
      rewrite lookup_add_child_parent by done.
      by rewrite lookup_add_child_new by done. }
    split; [intros pn' Hpn'; congruence|].
    split; [intros _ kn' Hkn'; congruence|].
    apply Hfin; [done|]. by rewrite lookup_add_child_new.
Qed.

End Case.

#[local] Existing Instance Str.unchanged_unicode.

Lemma inheritance_on_create_witness :
  ∃ t',
    create_kind 2 "employee" "person" None (Some {["salary"]})
      (Some (add_child root_tree "Person" "Kind" {["name"]}))
    = (Ret t', Some t')
    ∧ get_kind_properties "Employee" (Some t') = Some ({["salary"]} ∪ {["name"]})
    ∧ get_kind_properties "Employee"
        (updates_of "Person" [(["name"], ["title"])] (Some t'))
      = Some ({["salary"]} ∪ {["name"]}).
Proof.
  destruct (inheritance_on_create 0 "employee" "person" (Some {["salary"]})
              (Some (add_child root_tree "Person" "Kind" {["name"]})))
    as (t' & Pp & Hr & _ & HPp & _ & _ & Hget & Hup).
  - reflexivity.
  - left. by eexists.
  - rewrite (HPp _ eq_refl) in Hget, Hup.
    exists t'. split; [exact Hr|]. split; [exact Hget|]. exact (Hup _).
Defined.

End Inheritance.

(** * The trees a sequence of calls can persist *)

Module Reachability.
Import Treelib Ontology Props TreelibFacts StrFacts CreateKindFacts CreateKind.

Section Case.
Context {unicode : Str.UnicodeCase}.

Lemma remove_node_present (t : Tree) (k : string) (n : Node) :
  nodes t !! k = Some n → ∃ t', remove_node t k = Ret t'.
Proof. intros H. unfold remove_node. rewrite H. eauto. Qed.

(** [remove_kind] saves nothing, or saves the tree without the subtree. *)
Lemma remove_kind_cases (k : string) (st : Store) :
  (get_kind_node st k = None ∧ remove_kind k st = (Ret tt, st))
  ∨ ∃ t n t', st = Some t ∧ nodes t !! k = Some n ∧ remove_node t k = Ret t'
              ∧ remove_kind k st = (Ret tt, Some t').
Proof.
  unfold remove_kind, load_ontology_graph.
  destruct (get_kind_node st k) as [n|] eqn:Hk; [|by left].
  right. destruct st as [t|]; [|done]. simpl in Hk. unfold get_node in Hk.
  destruct (remove_node_present t k n Hk) as [t' Ht']. rewrite Ht'. eauto 10.
Qed.

(** [update_properties_of_kind] saves nothing, or saves the tree in which
    the kind carries the result of the loop. *)
Lemma update_properties_cases (k : string) (old new : list string) (st : Store) :
  (update_properties_of_kind k old new st).2 = st
  ∨ ∃ t n ps, st = Some t ∧ nodes t !! k = Some n
              ∧ update_loop (properties (data n)) 0 old new = Ret (Some ps)
              ∧ update_properties_of_kind k old new st
                = (Ret Updated, Some (with_properties t k n ps)).
Proof.
  unfold update_properties_of_kind, load_ontology_graph.
  destruct (get_kind_node st k) as [n|] eqn:Hk; [|by left].
  destruct (update_loop _ 0 old new) as [[ps|]|e] eqn:Hloop; [|by left|by left].
  right. destruct st as [t|]; [|done]. simpl in Hk. unfold get_node in Hk.
  exists t, n, ps. done.
Qed.

Lemma reachable_add (t : Tree) (k p : string) (pn : Node) (d : gset string) :
  reachable t → nodes t !! p = Some pn → nodes t !! k = None → capitalized k →
  reachable (add_child t k p d).
Proof.
  intros Ht Hp Hk Hn. eapply rtc_r; [exact Ht|]. by eapply step_add.
Qed.

(** Every tree saved by a call on a reachable store is reachable. *)
Lemma step_reachable (limit : nat) (o : Op) (st : Store) :
  (∀ t, st = Some t → reachable t) →
  ∀ t', step limit o st = Some t' → reachable t'.
Proof.
  intros Hst t' Hstep.
  assert (reachable (default root_tree st)) as H0.
  { destruct st as [t|]; simpl; [by apply Hst|apply rtc_refl]. }
  destruct o as [k p ps|k|k old new|k|k|props k]; simpl in Hstep;
    try (by apply Hst).
  - pose proof (create_kind_cases limit k p ps st) as Hc. cbv zeta in Hc.
    destruct Hc
      as [Hr|[(_ & _ & Hr)|[(pn & HP & HK & Hr)|[(kn & HP & Hroot & Hstable & [[HK Hr]|[HK Hr]])
         |(kn & HP & Hroot & Hne & [[HP2 Hr]|[HP2 Hr]])]]]];
      rewrite Hr in Hstep; simpl in Hstep.
    + by apply Hst.
    + by apply Hst.
    + inversion Hstep; subst t'. eapply reachable_add; eauto. by eexists.
    + inversion Hstep; subst t'. eapply reachable_add; eauto. by eexists.
    + inversion Hstep; subst t'.
      assert (Str.capitalize p ≠ "Kind") by congruence.
      eapply reachable_add.
      * eapply reachable_add; eauto. by eexists.
      * by apply lookup_add_child_new.
      * done.
      * by eexists.
    + by apply Hst.
    + inversion Hstep; subst t'. eapply reachable_add; eauto. by eexists.
  - destruct (remove_kind_cases k st) as [[_ Hr]|(t & n & t1 & -> & Hk & Hrm & Hr)];
      rewrite Hr in Hstep; simpl in Hstep.
    + by apply Hst.
    + inversion Hstep; subst t'. eapply rtc_r; [by apply Hst|]. by eapply step_remove.
  - destruct (update_properties_cases k old new st)
      as [Hr|(t & n & ps & -> & Hk & Hloop & Hr)].
    + rewrite Hr in Hstep. by apply Hst.
    + rewrite Hr in Hstep. simpl in Hstep. inversion Hstep; subst t'.
      eapply rtc_r; [by apply Hst|]. by eapply step_update.
Qed.

Lemma run_reachable_from (limit : nat) (ops : list Op) (st : Store) :
  (∀ t, st = Some t → reachable t) →
  ∀ t', run limit ops st = Some t' → reachable t'.
Proof.
  revert st. induction ops as [|o ops IH]; intros st Hst t' Hrun.
  - by apply Hst.
  - simpl in Hrun. eapply IH; [|exact Hrun].
    intros t Ht. by eapply step_reachable.
Qed.

(** Whatever a sequence of calls persists, starting from nothing, is a
    reachable tree. *)
Lemma run_reachable (limit : nat) (ops : list Op) (t : Tree) :
  run limit ops None = Some t → reachable t.
Proof. apply run_reachable_from. done. Qed.

(** An invariant of the steps holds on every reachable tree. *)
Lemma reachable_ind (I : Tree → Prop) :
  I root_tree →
  (∀ t t', I t → tree_step t t' → I t') →
  ∀ t, reachable t → I t.
Proof.
  intros Hroot Hstep t Ht. unfold reachable in Ht.
  revert t Ht. apply rtc_ind_r; eauto.
Qed.

End Case.

End Reachability.

(** * Resolution of kind names *)

Module Resolution.
Import Treelib Ontology Props TreelibFacts StrFacts CreateKindFacts CreateKind Reachability.

Section Case.
Context {unicode : Str.UnicodeCase}.

(** The nodes left by [remove_node]: those outside the traversal, the
    parent of the removed node with one child less. *)
Lemma remove_node_lookup (t : Tree) (k : string) (n : Node) (t' : Tree) (i : string) :
  nodes t !! k = Some n → remove_node t k = Ret t' →
  nodes t' !! i
  = if bool_decide (i ∈ expand_tree t k) then None
    else if decide (predecessor n = Some i) then delete_successor k <$> nodes t !! i
         else nodes t !! i.
Proof.
  intros Hk Hrm. unfold remove_node in Hrm. rewrite Hk in Hrm.
  inversion Hrm; subst t'; clear Hrm. simpl. rewrite lookup_foldr_delete.
  destruct (bool_decide (i ∈ expand_tree t k)); [done|].
  destruct (predecessor n) as [pid|].
  - case_decide as Hp.
    + inversion Hp; subst. by rewrite lookup_alter_eq.
    + rewrite lookup_alter_ne; [done|]. congruence.
  - by rewrite decide_False.
Qed.

(** A node left by [remove_node] was in the tree before, with the same
    tag, identifier, payload and parent, and no new children. *)
Lemma remove_node_old (t : Tree) (k : string) (n : Node) (t' : Tree) (i : string) (n' : Node) :
  nodes t !! k = Some n → remove_node t k = Ret t' → nodes t' !! i = Some n' →
  (i ∉ expand_tree t k) ∧
  (∃ n0, nodes t !! i = Some n0 ∧ data n' = data n0 ∧ tag n' = tag n0 ∧
         identifier n' = identifier n0 ∧ predecessor n' = predecessor n0 ∧
         successors n' ⊆ successors n0).
Proof.
  intros Hk Hrm Hi. rewrite (remove_node_lookup t k n t' i Hk Hrm) in Hi.
  destruct (decide (i ∈ expand_tree t k)) as [Hin|Hnin].
  - by rewrite bool_decide_eq_true_2 in Hi.
  - rewrite bool_decide_eq_false_2 in Hi by done. split; [done|].
    case_decide.
    + destruct (nodes t !! i) as [n0|]; [|done]. inversion Hi; subst n'.
      exists n0. simpl. repeat split; try done. apply list_remove_subseteq.
    + exists n'. done.
Qed.

Lemma add_child_ids (t : Tree) (k p id : string) (d : gset string) :
  is_Some (nodes (add_child t k p d) !! id) → id = k ∨ is_Some (nodes t !! id).
Proof.
  intros Hid. destruct (decide (id = k)) as [->|Hne]; [by left|]. right.
  simpl in Hid. destruct (decide (id = p)) as [->|Hnep].
  - rewrite lookup_alter_eq, lookup_insert_ne in Hid by done.
    by apply fmap_is_Some in Hid.
  - by rewrite lookup_alter_ne, lookup_insert_ne in Hid by done.
Qed.

(** The identifiers a call leaves in the saved tree: those that were in
    the tree it started from, and, for [create_kind], the capitalized form
    of the kind and the capitalized form of the capitalized parent. *)
Lemma step_ids (limit : nat) (o : Op) (st : Store) (t' : Tree) (id : string) :
  step limit o st = Some t' → is_Some (nodes t' !! id) →
  is_Some (nodes (default root_tree st) !! id)
  ∨ ∃ k p ps, o = CreateKind k p ps
              ∧ (id = Str.capitalize k ∨ id = Str.capitalize (Str.capitalize p)).
Proof.
  intros Hstep Hid.
  destruct o as [k p ps|k|k old new|k|k|props k]; simpl in Hstep;
    try (subst st; by left).
  - pose proof (create_kind_cases limit k p ps st) as Hc. cbv zeta in Hc.
    destruct Hc
      as [Hr|[(_ & _ & Hr)|[(pn & HP & HK & Hr)|[(kn & HP & Hroot & Hstable & [[HK Hr]|[HK Hr]])
         |(kn & HP & Hroot & Hne & [[HP2 Hr]|[HP2 Hr]])]]]];
      rewrite Hr in Hstep; simpl in Hstep; try (subst st; by left);
      inversion Hstep; subst t'; clear Hstep.
    + apply add_child_ids in Hid as [->|Hid]; [right|by left]. eauto 10.
    + apply add_child_ids in Hid as [->|Hid]; [right|by left].
      rewrite <- Hstable. eauto 10.
    + apply add_child_ids in Hid as [->|Hid]; [right; eauto 10|].
      apply add_child_ids in Hid as [->|Hid]; [right|by left].
      rewrite <- Hstable. eauto 10.
    + apply add_child_ids in Hid as [->|Hid]; [right|by left]. eauto 10.
  - destruct (remove_kind_cases k st) as [[_ Hr]|(t & n & t1 & -> & Hk & Hrm & Hr)];
      rewrite Hr in Hstep; simpl in Hstep; [subst st; by left|].
    inversion Hstep; subst t'. destruct Hid as [n' Hn'].
    destruct (remove_node_old t k n t1 id n' Hk Hrm Hn') as (_ & n0 & Hn0 & _).
    left. simpl. eauto.
  - destruct (update_properties_cases k old new st)
      as [Hr|(t & n & ps & -> & Hk & Hloop & Hr)].
    + rewrite Hr in Hstep. subst st. by left.
    + rewrite Hr in Hstep. simpl in Hstep. inversion Hstep; subst t'.
      left. simpl in Hid |- *. destruct (decide (id = k)) as [->|Hne]; [eauto|].
      by rewrite lookup_insert_ne in Hid.
Qed.

(** Every identifier of a reachable tree is the capitalized form of some
    name. *)
Lemma reachable_capitalized (t : Tree) (id : string) :
  reachable t → is_Some (nodes t !! id) → capitalized id.
Proof.
  intros Ht. revert id. revert t Ht. apply (reachable_ind (λ t, ∀ id, _ → _)).
  - intros id [n Hn]. unfold root_tree in Hn. simpl in Hn.
    apply lookup_singleton_Some in Hn as [<- _]. by exists "Kind".
  - intros t t' IH Hstep id Hid.
    destruct Hstep as [t k p pn d Hp Hk Hcap|t k n t' Hk Hrm|t k n old new ps Hk Hloop].
    + apply add_child_ids in Hid as [->|Hid]; [done|by apply IH].
    + destruct Hid as [n' Hn'].
      destruct (remove_node_old t k n t' id n' Hk Hrm Hn') as (_ & n0 & Hn0 & _).
      apply IH. eauto.
    + simpl in Hid. destruct (decide (id = k)) as [->|Hne]; [apply IH; eauto|].
      rewrite lookup_insert_ne in Hid by done. by apply IH.
Qed.

(** Calls that give ASCII names to [create_kind] store ASCII names in
    capitalized form only. *)
Lemma run_ascii_from (limit : nat) (ops : list Op) (st : Store) :
  Forall ascii_names ops →
  (∀ t id, st = Some t → is_Some (nodes t !! id) → ascii_capitalized id) →
  ∀ t id, run limit ops st = Some t → is_Some (nodes t !! id) → ascii_capitalized id.
Proof.
  intros Hops. revert st. induction Hops as [|o ops Ho Hops IH]; intros st Hst t id Hrun Hid.
  - by apply (Hst t).
  - simpl in Hrun. apply (IH (step limit o st)) with t; [|done|done].
    clear t id Hrun Hid. intros t id Hstep Hid.
    destruct (step_ids limit o st t id Hstep Hid) as [Hold|(k & p & ps & -> & Hnew)].
    + destruct st as [t0|]; [by apply (Hst t0)|].
      simpl in Hold. destruct Hold as [n Hn]. unfold root_tree in Hn. simpl in Hn.
      apply lookup_singleton_Some in Hn as [<- _]. by split.
    + destruct Ho as [Hk Hp].
      assert (∀ x, Str.ascii_only x = true → ascii_capitalized (Str.capitalize x)) as Hcap.
      { intros x Hx. rewrite capitalize_ascii by done.
        split; [by apply ascii_capitalize_ascii|apply ascii_capitalize_idemp]. }
      destruct Hnew as [->| ->]; [by apply Hcap|].
      rewrite capitalize_ascii_stable by done. by apply Hcap.
Qed.




End Case.

#[local] Existing Instance Str.unchanged_unicode.



End Resolution.

(** * The root *)

Module Root.
Import Treelib Ontology Props TreelibFacts StrFacts CreateKindFacts CreateKind
  Reachability Resolution.

Section Case.
Context {unicode : Str.UnicodeCase}.

Lemma rooted_has_root (t : Tree) : rooted t → has_root (Some t).
Proof. intros (Hr & (n & Hn & Hp) & _). exists t, n. done. Qed.

Lemma rooted_root_tree : rooted root_tree.
Proof.
  split; [done|]. split.
  - eexists. split; [reflexivity|done].
  - intros id m Hm. unfold root_tree in Hm. simpl in Hm.
    apply lookup_singleton_Some in Hm as [_ <-]. simpl. set_solver.
Qed.

(** Adding a leaf keeps the root as it is. *)
Lemma rooted_add_child (t : Tree) (k p : string) (d : gset string) :
  rooted t → nodes t !! k = None → rooted (add_child t k p d).
Proof.
  intros (Hr & (n & Hn & Hp) & Hc) Hk.
  assert (k ≠ "Kind") as Hne by congruence.
  split; [done|]. split.
  - destruct (lookup_add_child_old t k p "Kind" d n Hk Hn) as (n' & Hn' & Hd & _).
    exists n'. by rewrite Hd.
  - intros id m Hm. simpl in Hm.
    destruct (decide (id = p)) as [->|Hnep].
    + rewrite lookup_alter_eq in Hm.
      destruct (decide (p = k)) as [->|Hnek].
      * rewrite lookup_insert_eq in Hm. inversion Hm; subst m. simpl. set_solver.
      * rewrite lookup_insert_ne in Hm by done.
        destruct (nodes t !! p) as [pn|] eqn:Hpn; [|done].
        inversion Hm; subst m. simpl. specialize (Hc p pn Hpn). set_solver.
    + rewrite lookup_alter_ne in Hm by done.
      destruct (decide (id = k)) as [->|Hnek].
      * rewrite lookup_insert_eq in Hm. inversion Hm; subst m. simpl. set_solver.
      * rewrite lookup_insert_ne in Hm by done. eauto.
Qed.

(** The traversal from another node never reaches the root. *)
Lemma root_not_expanded (t : Tree) (k : string) :
  rooted t → k ≠ "Kind" → "Kind" ∉ expand_tree t k.
Proof.
  intros (_ & _ & Hc) Hne Hin.
  apply expand_queue_origin in Hin as [Hin|(id & m & Hm & Hin)]; [set_solver|].
  by apply (Hc id m).
Qed.

(** Removing another node keeps the root as it is. *)
Lemma rooted_remove_node (t : Tree) (k : string) (n : Node) (t' : Tree) :
  rooted t → k ≠ "Kind" → nodes t !! k = Some n → remove_node t k = Ret t' →
  rooted t'.
Proof.
  intros Hrooted Hne Hk Hrm.
  pose proof (root_not_expanded t k Hrooted Hne) as Hnot.
  destruct Hrooted as (Hr & (rn & Hrn & Hp) & Hc).
  split; [|split].
  - unfold remove_node in Hrm. rewrite Hk in Hrm. inversion Hrm; subst t'. simpl.
    rewrite Hr. by rewrite bool_decide_eq_false_2.
  - rewrite (remove_node_lookup t k n t' "Kind" Hk Hrm).
    rewrite bool_decide_eq_false_2 by done. rewrite Hrn.
    case_decide; simpl; eauto.
  - intros id m Hm.
    destruct (remove_node_old t k n t' id m Hk Hrm Hm) as (_ & n0 & Hn0 & _ & _ & _ & _ & Hs).
    intros Hin. apply (Hc id n0 Hn0). by apply Hs.
Qed.

(** On the empty set the update loop has nothing to replace. *)
Lemma update_loop_empty (idx : nat) (old new : list string) (ps : gset string) :
  update_loop ∅ idx old new = Ret (Some ps) → ps = ∅.
Proof.
  destruct old as [|o old]; simpl.
  - by inversion 1.
  - rewrite bool_decide_eq_false_2 by set_solver. done.
Qed.

(** An update keeps the root as it is. *)
Lemma rooted_update (t : Tree) (k : string) (n : Node) (old new : list string)
    (ps : gset string) :
  rooted t → nodes t !! k = Some n →
  update_loop (properties (data n)) 0 old new = Ret (Some ps) →
  rooted (with_properties t k n ps).
Proof.
  intros (Hr & (rn & Hrn & Hp) & Hc) Hk Hloop.
  split; [done|]. split.
  - simpl. destruct (decide (k = "Kind")) as [->|Hne].
    + rewrite lookup_insert_eq. eexists. split; [done|]. simpl.
      assert (n = rn) as -> by congruence. rewrite Hp in Hloop.
      by apply update_loop_empty in Hloop.
    + rewrite lookup_insert_ne by done. eauto.
  - intros id m Hm. simpl in Hm.
    destruct (decide (id = k)) as [->|Hne].
    + rewrite lookup_insert_eq in Hm. inversion Hm; subst m. simpl. eauto.
    + rewrite lookup_insert_ne in Hm by done. eauto.
Qed.

(** A call other than the removal of the root keeps the root. *)
Lemma step_keeps_root (limit : nat) (o : Op) (t : Tree) :
  rooted t → o ≠ RemoveKind "Kind" →
  ∃ t', step limit o (Some t) = Some t' ∧ rooted t'.
Proof.
  intros Hrooted Ho.
  destruct o as [k p ps|k|k old new|k|k|props k]; simpl; eauto.
  - pose proof (create_kind_cases limit k p ps (Some t)) as Hc. cbv zeta in Hc.
    simpl default in Hc.
    destruct Hc
      as [Hr|[(_ & _ & Hr)|[(pn & HP & HK & Hr)|[(kn & HP & Hroot & Hstable & [[HK Hr]|[HK Hr]])
         |(kn & HP & Hroot & Hne & [[HP2 Hr]|[HP2 Hr]])]]]];
      rewrite Hr; simpl; eexists; (split; [reflexivity|]); try done.
    + by apply rooted_add_child.
    + by apply rooted_add_child.
    + apply rooted_add_child; [|done]. by apply rooted_add_child.
    + by apply rooted_add_child.
  - destruct (remove_kind_cases k (Some t)) as [[_ Hr]|(t0 & n & t1 & Heq & Hk & Hrm & Hr)];
      rewrite Hr; simpl; eexists; (split; [reflexivity|]); [done|].
    inversion Heq; subst t0.
    apply (rooted_remove_node t k n t1); try done. congruence.
  - destruct (update_properties_cases k old new (Some t))
      as [Hr|(t0 & n & ps & Heq & Hk & Hloop & Hr)]; rewrite Hr; simpl.
    + eauto.
    + inversion Heq; subst t0. eexists. split; [reflexivity|].
      by eapply rooted_update.
Qed.

Lemma run_keeps_root (limit : nat) (ops : list Op) (t : Tree) :
  rooted t → Forall (λ o, o ≠ RemoveKind "Kind") ops →
  ∃ t', run limit ops (Some t) = Some t' ∧ rooted t'.
Proof.
  intros Hrooted Hops. revert t Hrooted.
  induction Hops as [|o ops Ho Hops IH]; intros t Hrooted; simpl; [eauto|].
  destruct (step_keeps_root limit o t Hrooted Ho) as (t1 & -> & Hr1). by apply IH.
Qed.

(** Calls that save nothing on an empty store leave it empty. *)
Lemma run_saves_nothing (limit : nat) (ops : list Op) :
  Forall saves_nothing_on_empty ops → run limit ops None = None.
Proof.
  induction 1 as [|o ops Ho Hops IH]; simpl; [done|].
  replace (step limit o None) with (None : Store); [done|].
  destruct o as [k p ps|k|k old new|k|k|props k]; try done.
  destruct Ho as [HK HP]. simpl. rewrite create_kind_start. simpl default.
  destruct limit as [|limit]; [done|].
  assert (nodes root_tree !! Str.capitalize p
          = Some (mkNode "Kind" "Kind" (mkEntity ∅) None [])) as Hp
    by (by rewrite HP).
  rewrite (create_kind_parent_present _ _ _ _ _ _ _ Hp).
  rewrite insert_kind_dup; [done|]. rewrite HK. by eexists.
Qed.

(** The first creation of anything else saves a tree with the root. *)
Lemma first_create_saves_root (limit : nat) (k p : string) (ps : option (gset string)) :
  ¬ saves_nothing_on_empty (CreateKind k p ps) →
  ∃ t, step (S (S limit)) (CreateKind k p ps) None = Some t ∧ rooted t.
Proof.
  intros Hnot. simpl in Hnot. unfold step.
  pose proof (create_kind_cases (S (S limit)) k p ps None) as Hc. cbv zeta in Hc.
  simpl default in Hc.
  destruct Hc
    as [Hr|[([pn HP] & [kn HK] & Hr)|[(pn & HP & HK & Hr)
       |[(kn & HP & Hroot & Hstable & [[HK Hr]|[HK Hr]])
        |(kn & HP & Hroot & Hne & [[[n2 HP2] Hr]|[HP2 Hr]])]]]].
  - exfalso. destruct (create_kind_returns limit k p ps None) as [Hret Heq].
    { by eexists. }
    rewrite Heq in Hr. by rewrite Hr in Hret.
  - exfalso. apply Hnot. unfold root_tree in HP, HK. simpl in HP, HK.
    apply lookup_singleton_Some in HP as [HP _].
    apply lookup_singleton_Some in HK as [HK _]. done.
  - rewrite Hr. simpl. eexists. split; [done|].
    apply rooted_add_child; [apply rooted_root_tree|done].
  - rewrite Hr. simpl. eexists. split; [done|].
    apply rooted_add_child; [apply rooted_root_tree|done].
  - rewrite Hr. simpl. eexists. split; [done|].
    apply rooted_add_child; [|done].
    apply rooted_add_child; [apply rooted_root_tree|done].
  - exfalso. unfold root_tree in HP, HP2. simpl in HP, HP2.
    apply lookup_singleton_Some in HP2 as [HP2 _].
    symmetry in HP2. apply capitalize_root in HP2.
    rewrite HP2 in HP. by rewrite lookup_singleton_eq in HP.
  - rewrite Hr. simpl. eexists. split; [done|].
    apply rooted_add_child; [apply rooted_root_tree|done].
Qed.

(** C1 (root invariant): starting from an empty store, the calls that
    come before the first saving call leave the store empty; after the
    first call of [create_kind] that is not the creation of ["Kind"] under
    ["Kind"], and after every later call of a sequence in which
    [remove_kind] is not applied to ["Kind"], the persisted tree contains
    the root ["Kind"], and the property set of the root is empty. *)
Theorem root_invariant (limit : nat) (before after : list Op) (k p : string)
    (ps : option (gset string)) :
  (2 ≤ limit)%nat →
  Forall saves_nothing_on_empty before →
  ¬ saves_nothing_on_empty (CreateKind k p ps) →
  Forall (λ o, o ≠ RemoveKind "Kind") after →
  run limit before None = None
  ∧ has_root (run limit (before ++ CreateKind k p ps :: after) None).
Proof.
  intros Hlimit Hbefore Hcreate Hafter.
  pose proof (run_saves_nothing limit before Hbefore) as Hnone.
  split; [done|]. unfold run in *. rewrite foldl_app, Hnone. cbn [foldl].
  destruct limit as [|[|limit]]; [lia|lia|].
  destruct (first_create_saves_root limit k p ps Hcreate) as (t & -> & Hrooted).
  destruct (run_keeps_root (S (S limit)) after t Hrooted Hafter) as (t' & Ht' & Hr').
  unfold run in Ht'. rewrite Ht'. by apply rooted_has_root.
Qed.

End Case.

#[local] Existing Instance Str.unchanged_unicode.

(** C1, as stated, fails: [remove_kind] applied to the root leaves a tree
    without root; a removal or an update as first call, and the creation
    of ["Kind"] itself, leave the store without any tree. *)
Lemma root_invariant_counterexample :
  ¬ has_root (run 1000 [CreateKind "A" "Kind" None; RemoveKind "Kind"] None)
  ∧ ¬ has_root (run 1000 [RemoveKind "A"] None)
  ∧ ¬ has_root (run 1000 [UpdateProperties "Kind" [] []] None)
  ∧ ¬ has_root (run 1000 [CreateKind "Kind" "Kind" None] None).
Proof.
  assert (run 1000 [CreateKind "A" "Kind" None; RemoveKind "Kind"] None = Some empty_tree)
    as -> by (vm_compute; reflexivity).
  assert (run 1000 [CreateKind "Kind" "Kind" None] None = None)
    as -> by (vm_compute; reflexivity).
  repeat split; intros (t & n & Heq & Hr & Hn & _); try done.
  inversion Heq; subst t. done.
Qed.

Lemma root_invariant_witness :
  has_root (run 2 ([RemoveKind "Person"]
                   ++ CreateKind "manager" "department" (Some {["budget"]})
                      :: [RemoveKind "Department"; UpdateProperties "Kind" [] []]) None).
Proof.
  apply (root_invariant 2 [RemoveKind "Person"]
           [RemoveKind "Department"; UpdateProperties "Kind" [] []]
           "manager" "department" (Some {["budget"]})).
  - lia.
  - repeat constructor.
  - simpl. intros [H _]. discriminate H.
  - repeat constructor; discriminate.
Defined.

End Root.

(** * Well-formed trees *)

Module WellFormed.
Import Treelib Ontology Props TreelibFacts StrFacts CreateKindFacts CreateKind
  Reachability Resolution.
Local Open Scope nat_scope.
Local Open Scope list_scope.

Section Case.
Context {unicode : Str.UnicodeCase}.

Lemma lookup_root_tree (id : string) (n : Node) :
  nodes root_tree !! id = Some n →
  id = "Kind" ∧ n = mkNode "Kind" "Kind" (mkEntity ∅) None [].
Proof.
  unfold root_tree. simpl. intros H.
  apply lookup_singleton_Some in H as [<- <-]. done.
Qed.

Lemma wf_root_tree : wf root_tree.
Proof.
  split.
  - intros id n Hn. apply lookup_root_tree in Hn as [-> ->]. done.
  - intros id n c Hn Hc. apply lookup_root_tree in Hn as [-> ->].
    simpl in Hc. set_solver.
  - intros c m p Hm Hp. apply lookup_root_tree in Hm as [-> ->]. done.
  - intros id n Hn. apply lookup_root_tree in Hn as [-> ->]. constructor.
  - exists (λ _, 0). intros c m p Hm Hp.
    apply lookup_root_tree in Hm as [-> ->]. done.
Qed.

(** The nodes of a tree with a new leaf. *)
Lemma lookup_add_child (t : Tree) (k p i : string) (d : gset string) (n : Node) :
  k ≠ p →
  nodes (add_child t k p d) !! i = Some n →
  (i = k ∧ n = mkNode k k (mkEntity d) (Some p) [])
  ∨ (i = p ∧ ∃ pn, nodes t !! p = Some pn ∧ n = add_successor k pn)
  ∨ (i ≠ k ∧ i ≠ p ∧ nodes t !! i = Some n).
Proof.
  intros Hne Hn. destruct (decide (i = k)) as [->|Hik].
  - rewrite lookup_add_child_new in Hn by done. left. split; congruence.
  - destruct (decide (i = p)) as [->|Hip].
    + rewrite lookup_add_child_parent in Hn by done. right. left. split; [done|].
      destruct (nodes t !! p) as [pn|]; [|done]. inversion Hn. eauto.
    + rewrite lookup_add_child_other in Hn by done. eauto.
Qed.

(** Adding a leaf under a node of the tree keeps the pointers coherent. *)
Lemma wf_add_child (t : Tree) (k p : string) (pn : Node) (d : gset string) :
  wf t → nodes t !! p = Some pn → nodes t !! k = None → wf (add_child t k p d).
Proof.
  intros [Hid Hsucc Hpred Hnd [depth Hdepth]] Hp Hk.
  assert (k ≠ p) as Hne by congruence.
  assert (∀ i n, nodes t !! i = Some n →
            ∃ n', nodes (add_child t k p d) !! i = Some n'
                  ∧ predecessor n' = predecessor n
                  ∧ successors n ⊆ successors n') as Hold.
  { intros i n Hn. assert (i ≠ k) by congruence.
    destruct (decide (i = p)) as [->|Hip].
    - rewrite lookup_add_child_parent by done. rewrite Hn.
      eexists. split; [done|]. simpl. set_solver.
    - rewrite lookup_add_child_other by done. eauto. }
  split.
  - intros i n Hn.
    destruct (lookup_add_child t k p i d n Hne Hn)
      as [[-> ->]|[[-> (pn' & Hpn' & ->)]|(_ & _ & Hi)]]; simpl; eauto.
  - intros i n c Hn Hc.
    destruct (lookup_add_child t k p i d n Hne Hn)
      as [[-> ->]|[[-> (pn' & Hpn' & ->)]|(_ & _ & Hi)]]; simpl in Hc.
    + set_solver.
    + apply elem_of_app in Hc as [Hc|Hc].
      * destruct (Hsucc p pn' c Hpn' Hc) as (m & Hm & Hmp).
        destruct (Hold c m Hm) as (m' & Hm' & Hp' & _). exists m'. split; congruence.
      * apply list_elem_of_singleton in Hc as ->.
        rewrite lookup_add_child_new by done. eauto.
    + destruct (Hsucc i n c Hi Hc) as (m & Hm & Hmp).
      destruct (Hold c m Hm) as (m' & Hm' & Hp' & _). exists m'. split; congruence.
  - intros c m q Hm Hq.
    destruct (lookup_add_child t k p c d m Hne Hm)
      as [[-> ->]|[[-> (pn' & Hpn' & ->)]|(_ & _ & Hc)]]; simpl in Hq.
    + inversion Hq; subst q. rewrite lookup_add_child_parent by done.
      rewrite Hp. eexists. split; [done|]. simpl. set_solver.
    + destruct (Hpred p pn' q Hpn' Hq) as (n & Hn & Hin).
      destruct (Hold q n Hn) as (n' & Hn' & _ & Hsub). eauto.
    + destruct (Hpred c m q Hc Hq) as (n & Hn & Hin).
      destruct (Hold q n Hn) as (n' & Hn' & _ & Hsub). eauto.
  - intros i n Hn.
    destruct (lookup_add_child t k p i d n Hne Hn)
      as [[-> ->]|[[-> (pn' & Hpn' & ->)]|(_ & _ & Hi)]]; simpl; eauto.
    + constructor.
    + apply NoDup_app. split; [eauto|]. split; [|apply NoDup_singleton].
      intros x Hx Hxk. apply list_elem_of_singleton in Hxk as ->.
      destruct (Hsucc p pn' k Hpn' Hx) as (m & Hm & _). congruence.
  - exists (λ x, if decide (x = k) then S (depth p) else depth x).
    intros c m q Hm Hq.
    assert (q ≠ k ∧ (c = k → q = p) ∧ (c ≠ k → (depth q < depth c)%nat)) as (Hqk & Hck & Hlt).
    { destruct (lookup_add_child t k p c d m Hne Hm)
        as [[-> ->]|[[-> (pn' & Hpn' & ->)]|(Hck & _ & Hc)]]; simpl in Hq.
      - inversion Hq; subst q. done.
      - destruct (Hpred p pn' q Hpn' Hq) as (n & Hn & _).
        split; [congruence|]. split; [congruence|]. eauto.
      - destruct (Hpred c m q Hc Hq) as (n & Hn & _).
        split; [congruence|]. split; [done|]. eauto. }
    rewrite (decide_False (P := q = k)) by done.
    case_decide as Hc; [rewrite (Hck Hc); lia|by apply Hlt].
Qed.

(** Replacing a property set keeps the pointers coherent. *)
Lemma wf_with_properties (t : Tree) (k : string) (n : Node) (ps : gset string) :
  wf t → nodes t !! k = Some n → wf (with_properties t k n ps).
Proof.
  intros [Hid Hsucc Hpred Hnd [depth Hdepth]] Hk.
  assert (∀ i m, nodes (with_properties t k n ps) !! i = Some m →
            ∃ m0, nodes t !! i = Some m0 ∧ tag m = tag m0 ∧ identifier m = identifier m0
                  ∧ predecessor m = predecessor m0 ∧ successors m = successors m0) as Hback.
  { intros i m Hm. simpl in Hm. destruct (decide (i = k)) as [->|Hne].
    - rewrite lookup_insert_eq in Hm. inversion Hm; subst m. exists n. done.
    - rewrite lookup_insert_ne in Hm by done. eauto 10. }
  assert (∀ i m0, nodes t !! i = Some m0 →
            ∃ m, nodes (with_properties t k n ps) !! i = Some m
                 ∧ predecessor m = predecessor m0 ∧ successors m = successors m0) as Hforth.
  { intros i m0 Hm0. simpl. destruct (decide (i = k)) as [->|Hne].
    - rewrite lookup_insert_eq. assert (m0 = n) as -> by congruence. eauto.
    - rewrite lookup_insert_ne by done. eauto. }
  split.
  - intros i m Hm. destruct (Hback i m Hm) as (m0 & Hm0 & -> & -> & _). eauto.
  - intros i m c Hm Hc. destruct (Hback i m Hm) as (m0 & Hm0 & _ & _ & _ & Hs).
    rewrite Hs in Hc. destruct (Hsucc i m0 c Hm0 Hc) as (c0 & Hc0 & Hcp).
    destruct (Hforth c c0 Hc0) as (c1 & Hc1 & Hp1 & _). exists c1. split; congruence.
  - intros c m q Hm Hq. destruct (Hback c m Hm) as (m0 & Hm0 & _ & _ & Hp & _).
    rewrite Hp in Hq. destruct (Hpred c m0 q Hm0 Hq) as (q0 & Hq0 & Hin).
    destruct (Hforth q q0 Hq0) as (q1 & Hq1 & _ & Hs1). exists q1. split; congruence.
  - intros i m Hm. destruct (Hback i m Hm) as (m0 & Hm0 & _ & _ & _ & ->). eauto.
  - exists depth. intros c m q Hm Hq.
    destruct (Hback c m Hm) as (m0 & Hm0 & _ & _ & Hp & _). rewrite Hp in Hq. eauto.
Qed.

(** Distinct nodes of a tree are no more than the tree has. *)
Lemma distinct_nodes_bound (t : Tree) (l : list string) :
  NoDup l → (∀ x, x ∈ l → is_Some (nodes t !! x)) → length l ≤ len t.
Proof.
  intros Hnd Hin. unfold len. rewrite <- size_dom.
  change (size (dom (nodes t))) with (length (elements (dom (nodes t)))).
  apply submseteq_length, NoDup_submseteq; [done|].
  intros x Hx. apply elem_of_elements, elem_of_dom. by apply Hin.
Qed.

(** A yielded identifier was pending, or is a child of a yielded one. *)
Lemma expand_queue_parent (fuel : nat) (t : Tree) (queue : list string) (x : string) :
  x ∈ expand_queue fuel t queue →
  x ∈ queue ∨ ∃ r, r ∈ expand_queue fuel t queue ∧ x ∈ successors_of t r.
Proof.
  revert queue. induction fuel as [|fuel IH]; intros queue; simpl; [set_solver|].
  destruct queue as [|q rest]; [set_solver|].
  rewrite elem_of_cons. intros [->|Hin]; [left; set_solver|].
  apply IH in Hin as [Hin|(r & Hr & Hin)].
  - apply elem_of_app in Hin as [Hin|Hin]; [|left; set_solver].
    right. exists q. split; [set_solver|done].
  - right. exists r. split; [set_solver|done].
Qed.

Section Traversal.
Variable t : Tree.
Variable depth : string → nat.
Variable k : string.
Hypothesis Hwf : wf t.
Hypothesis Hdepth :
  ∀ c m p, nodes t !! c = Some m → predecessor m = Some p → depth p < depth c.

(** Yielding the head of the queue and queueing its children keeps the
    state of the traversal sound. *)
Lemma traversal_ok_step (yielded rest : list string) (q : string) :
  traversal_ok t depth k yielded (q :: rest) →
  traversal_ok t depth k (yielded ++ [q]) (successors_of t q ++ rest).
Proof.
  intros [Hnd Hall].
  destruct (Hall q) as ([qn Hq] & Hdq & _); [set_solver|].
  unfold successors_of. rewrite Hq.
  assert (∀ c, c ∈ successors qn →
            ∃ m, nodes t !! c = Some m ∧ predecessor m = Some q) as Hchild.
  { intros c Hc. by apply (wf_succ t Hwf q qn c). }
  assert (∀ c, c ∈ successors qn → c ∉ yielded ++ q :: rest) as Hfresh.
  { intros c Hc Hin. destruct (Hchild c Hc) as (m & Hm & Hmp).
    pose proof (Hdepth c m q Hm Hmp) as Hlt.
    destruct (Hall c Hin) as (_ & _ & [->|(y & m' & Hy & Hm' & Hmp')]); [lia|].
    assert (y = q) as -> by congruence.
    apply NoDup_app in Hnd as (_ & Hdisj & _). apply (Hdisj q Hy). set_solver. }
  split.
  - rewrite <- app_assoc. simpl.
    apply NoDup_app in Hnd as (Hy & Hdisj & Hqr).
    apply NoDup_cons in Hqr as [Hqrest Hrest].
    apply NoDup_app. split; [done|]. split.
    + intros x Hx Hin. apply elem_of_cons in Hin as [->|Hin].
      * apply (Hdisj q Hx). set_solver.
      * apply elem_of_app in Hin as [Hin|Hin].
        -- apply (Hfresh x Hin). set_solver.
        -- apply (Hdisj x Hx). set_solver.
    + apply NoDup_cons. split.
      * intros Hin. apply elem_of_app in Hin as [Hin|Hin]; [|done].
        apply (Hfresh q Hin). set_solver.
      * apply NoDup_app. split; [by apply (wf_nodup t Hwf q)|]. split; [|done].
        intros x Hx Hin. apply (Hfresh x Hx). set_solver.
  - intros x Hx.
    assert (x ∈ yielded ++ q :: rest ∨ x ∈ successors qn) as [Hold|Hnew]
      by set_solver.
    + destruct (Hall x Hold) as (Hs & Hd & [->|(y & m & Hy & Hm & Hmp)]).
      * split; [done|]. split; [done|]. by left.
      * split; [done|]. split; [done|]. right. exists y, m. set_solver.
    + destruct (Hchild x Hnew) as (m & Hm & Hmp).
      pose proof (Hdepth x m q Hm Hmp). split; [eauto|]. split; [lia|].
      right. exists q, m. set_solver.
Qed.

(** With fuel for every node not yet yielded, the traversal yields all
    that is pending and every child of what it yields. *)
Lemma expand_queue_complete (fuel : nat) (yielded queue : list string) :
  traversal_ok t depth k yielded queue →
  len t ≤ fuel + length yielded →
  (∀ x, x ∈ queue → x ∈ expand_queue fuel t queue)
  ∧ (∀ r c, r ∈ expand_queue fuel t queue → c ∈ successors_of t r →
            c ∈ expand_queue fuel t queue).
Proof.
  revert yielded queue. induction fuel as [|fuel IH]; intros yielded queue Hok Hfuel.
  - assert (queue = []) as ->.
    { destruct Hok as [Hnd Hall].
      pose proof (distinct_nodes_bound t (yielded ++ queue) Hnd
                    (λ x Hx, proj1 (Hall x Hx))) as Hb.
      rewrite length_app in Hb. destruct queue; [done|]. simpl in *. lia. }
    simpl. split; [done|]. intros r c Hr. set_solver.
  - destruct queue as [|q rest]; simpl.
    { split; [done|]. intros r c Hr. set_solver. }
    destruct (IH (yielded ++ [q]) (successors_of t q ++ rest)) as [IH1 IH2].
    { by apply traversal_ok_step. }
    { rewrite length_app. simpl. lia. }
    split.
    + intros x Hx. apply elem_of_cons in Hx as [->|Hx]; [set_solver|].
      apply elem_of_cons. right. apply IH1. set_solver.
    + intros r c Hr Hc. apply elem_of_cons. right.
      apply elem_of_cons in Hr as [->|Hr].
      * apply IH1. set_solver.
      * by apply (IH2 r c).
Qed.

(** The traversal from a node of the tree yields the node, is closed
    under children, and yields nothing else. *)
Lemma expand_tree_spec :
  is_Some (nodes t !! k) →
  k ∈ expand_tree t k
  ∧ (∀ r c, r ∈ expand_tree t k → c ∈ successors_of t r → c ∈ expand_tree t k)
  ∧ (∀ x, x ∈ expand_tree t k →
          x = k ∨ ∃ r, r ∈ expand_tree t k ∧ x ∈ successors_of t r).
Proof.
  intros Hk. unfold expand_tree.
  destruct (expand_queue_complete (len t) [] [k]) as [H1 H2].
  { split; [apply NoDup_singleton|]. intros x Hx.
    assert (x = k) as -> by set_solver. split; [done|]. split; [lia|by left]. }
  { simpl. lia. }
  split; [apply H1; set_solver|]. split; [done|].
  intros x Hx. apply expand_queue_parent in Hx as [Hx|Hx]; [left; set_solver|by right].
Qed.
End Traversal.

(** A node left by [remove_node] is a node from outside the traversal,
    unchanged unless it is the parent of the removed node, which lost that
    child. *)
Lemma remove_node_cases (t : Tree) (k : string) (n : Node) (t' : Tree) (i : string)
    (n' : Node) :
  nodes t !! k = Some n → remove_node t k = Ret t' → nodes t' !! i = Some n' →
  (i ∉ expand_tree t k)
  ∧ (∃ n0, nodes t !! i = Some n0
           ∧ ((predecessor n ≠ Some i ∧ n' = n0)
              ∨ (predecessor n = Some i ∧ n' = delete_successor k n0))).
Proof.
  intros Hk Hrm Hi. rewrite (remove_node_lookup t k n t' i Hk Hrm) in Hi.
  destruct (decide (i ∈ expand_tree t k)) as [Hin|Hnin].
  - by rewrite bool_decide_eq_true_2 in Hi.
  - rewrite bool_decide_eq_false_2 in Hi by done. split; [done|].
    case_decide.
    + destruct (nodes t !! i) as [n0|]; [|done]. inversion Hi; subst n'. eauto.
    + eauto.
Qed.

(** A node outside the traversal is left by [remove_node]. *)
Lemma remove_node_keeps (t : Tree) (k : string) (n : Node) (t' : Tree) (i : string)
    (n0 : Node) :
  nodes t !! k = Some n → remove_node t k = Ret t' →
  nodes t !! i = Some n0 → i ∉ expand_tree t k →
  ∃ n', nodes t' !! i = Some n' ∧ predecessor n' = predecessor n0
        ∧ tag n' = tag n0
        ∧ ∀ c, c ∈ successors n0 → c ≠ k → c ∈ successors n'.
Proof.
  intros Hk Hrm Hi Hnin. rewrite (remove_node_lookup t k n t' i Hk Hrm).
  rewrite bool_decide_eq_false_2 by done. rewrite Hi. case_decide; simpl.
  - eexists. split; [done|]. simpl. split; [done|]. split; [done|].
    intros c Hc Hne. by apply list_remove_other.
  - eauto.
Qed.

(** Removing a node with its subtree keeps the pointers coherent. *)
Lemma wf_remove_node (t : Tree) (k : string) (n : Node) (t' : Tree) :
  wf t → nodes t !! k = Some n → remove_node t k = Ret t' → wf t'.
Proof.
  intros Hwf Hk Hrm.
  pose proof Hwf as [Hid Hsucc Hpred Hnd [depth Hdepth]].
  destruct (expand_tree_spec t depth k Hwf Hdepth) as (E1 & E3 & E2); [eauto|].
  pose proof (remove_node_cases t k n t' ) as Hback.
  pose proof (remove_node_keeps t k n t') as Hforth.
  split.
  - intros i n' Hn'.
    destruct (Hback i n' Hk Hrm Hn') as (_ & n0 & Hn0 & [[_ ->]|[_ ->]]); simpl; eauto.
  - intros i n' c Hn' Hc.
    destruct (Hback i n' Hk Hrm Hn') as (Hi & n0 & Hn0 & Hcase).
    assert (c ∈ successors n0) as Hc0.
    { destruct Hcase as [[_ ->]|[_ ->]]; [done|].
      simpl in Hc. by apply (list_remove_subseteq k). }
    destruct (Hsucc i n0 c Hn0 Hc0) as (m & Hm & Hmp).
    assert (c ∉ expand_tree t k) as Hcout.
    { intros Hcin. destruct (E2 c Hcin) as [->|(r & Hr & Hcr)].
      - assert (m = n) as -> by congruence.
        destruct Hcase as [[Hne _]|[_ ->]]; [done|]. simpl in Hc.
        by apply (list_remove_NoDup k (successors n0) (Hnd i n0 Hn0)).
      - unfold successors_of in Hcr.
        destruct (nodes t !! r) as [rn|] eqn:Hrn; [|set_solver].
        destruct (Hsucc r rn c Hrn Hcr) as (m' & Hm' & Hmp').
        assert (r = i) as -> by congruence. done. }
    destruct (Hforth c m Hk Hrm Hm Hcout) as (m' & Hm' & Hp' & _).
    exists m'. split; congruence.
  - intros c m' q Hm' Hq.
    destruct (Hback c m' Hk Hrm Hm') as (Hc & m0 & Hm0 & Hcase).
    assert (predecessor m0 = Some q) as Hq0.
    { destruct Hcase as [[_ ->]|[_ ->]]; done. }
    destruct (Hpred c m0 q Hm0 Hq0) as (qn & Hqn & Hin).
    assert (q ∉ expand_tree t k) as Hqout.
    { intros Hqin. apply Hc. apply (E3 q c Hqin). unfold successors_of. by rewrite Hqn. }
    destruct (Hforth q qn Hk Hrm Hqn Hqout) as (qn' & Hqn' & _ & _ & Hkeep).
    exists qn'. split; [done|]. apply Hkeep; [done|]. congruence.
  - intros i n' Hn'.
    destruct (Hback i n' Hk Hrm Hn') as (_ & n0 & Hn0 & [[_ ->]|[_ ->]]); simpl; eauto.
    by apply list_remove_NoDup, (Hnd i n0).
  - exists depth. intros c m' q Hm' Hq.
    destruct (Hback c m' Hk Hrm Hm') as (_ & m0 & Hm0 & Hcase).
    apply (Hdepth c m0 q Hm0). destruct Hcase as [[_ ->]|[_ ->]]; done.
Qed.

(** Every tree the operations can persist is well formed. *)
Lemma reachable_wf (t : Tree) : reachable t → wf t.
Proof.
  apply reachable_ind; [apply wf_root_tree|].
  intros t1 t2 IH Hstep.
  destruct Hstep as [t1 k p pn d Hp Hk Hnorm|t1 k n t2 Hk Hrm|t1 k n old new ps Hk Hloop].
  - by eapply wf_add_child.
  - by eapply wf_remove_node.
  - by apply wf_with_properties.
Qed.

(** In a well-formed tree the children of a node resolve, and their tags
    are the listed identifiers. *)
Lemma lookup_all_tags (t : Tree) (ids : list string) :
  (∀ c, c ∈ ids → ∃ m, nodes t !! c = Some m ∧ tag m = c) →
  ∃ ns, lookup_all t ids = Ret ns ∧ map tag ns = ids.
Proof.
  induction ids as [|i ids IH]; intros Hall; simpl; [eauto|].
  destruct (Hall i) as (m & Hm & Ht); [set_solver|]. rewrite Hm.
  destruct IH as (ns & -> & Hns); [intros c Hc; apply Hall; set_solver|].
  exists (m :: ns). simpl. by rewrite Ht, Hns.
Qed.

(** C8 (children of a kind): on the store left by any sequence of calls,
    [get_descendant_kinds] returns the empty sequence when no tree was
    saved or the saved tree has no nodes; it reports that the kind is not
    found when the tree has nodes and the kind is not one of them; and for
    a kind of the tree it returns the node's list of children, in the
    order the tree keeps them, each once: exactly the identifiers of the
    nodes whose parent is the kind. *)
Theorem descendant_kinds_are_children (limit : nat) (ops : list Op) (k : string) :
  let st := run limit ops None in
  (st = None → get_descendant_kinds k st = Ret (Some []))
  ∧ (∀ t, st = Some t → len t = 0 → get_descendant_kinds k st = Ret (Some []))
  ∧ (∀ t, st = Some t → len t ≠ 0 → nodes t !! k = None →
          get_descendant_kinds k st = Ret None)
  ∧ (∀ t n, st = Some t → nodes t !! k = Some n →
            get_descendant_kinds k st = Ret (Some (successors n))
            ∧ NoDup (successors n)
            ∧ ∀ c, c ∈ successors n
                   ↔ ∃ m, nodes t !! c = Some m ∧ predecessor m = Some k).
Proof.
  intros st. split; [by intros ->|]. split; [|split].
  - intros t -> Hlen. unfold get_descendant_kinds. simpl.
    by rewrite bool_decide_eq_true_2.
  - intros t -> Hlen Hk. unfold get_descendant_kinds. simpl.
    rewrite bool_decide_eq_false_2 by done. unfold children. by rewrite Hk.
  - intros t n Hst Hk.
    assert (wf t) as Hwf by (eapply reachable_wf, run_reachable; exact Hst).
    rewrite Hst. destruct Hwf as [Hid Hsucc Hpred Hnd _].
    split; [|split].
    + unfold get_descendant_kinds. simpl.
      rewrite bool_decide_eq_false_2.
      * unfold children. rewrite Hk.
        destruct (lookup_all_tags t (successors n)) as (ns & -> & ->); [|done].
        intros c Hc. destruct (Hsucc k n c Hk Hc) as (m & Hm & _).
        exists m. split; [done|]. by apply (Hid c m).
      * unfold len. intros Hsize. apply map_size_empty_iff in Hsize.
        rewrite Hsize in Hk. by rewrite lookup_empty in Hk.
    + by apply (Hnd k).
    + intros c. split; [by apply Hsucc|].
      intros (m & Hm & Hmp). destruct (Hpred c m k Hm Hmp) as (n' & Hn' & Hin).
      congruence.
Qed.

End Case.

#[local] Existing Instance Str.unchanged_unicode.

(** C8, as stated, fails: a tree was saved and the kind is not in it, yet
    the result is the empty sequence, because the saved tree has no
    nodes. *)
Lemma descendants_in_empty_tree_counterexample :
  let st := run 1000 [CreateKind "A" "Kind" None; RemoveKind "Kind"] None in
  st = Some empty_tree
  ∧ get_kind_node st "A" = None
  ∧ get_descendant_kinds "A" st = Ret (Some []).
Proof. vm_compute. repeat split; reflexivity. Qed.

Lemma descendant_kinds_are_children_witness :
  get_descendant_kinds "Kind"
    (run 2 [CreateKind "person" "Kind" None;
            CreateKind "employee" "person" (Some {["salary"]})] None)
  = Ret (Some ["Person"]).
Proof.
  destruct (descendant_kinds_are_children 2
              [CreateKind "person" "Kind" None;
               CreateKind "employee" "person" (Some {["salary"]})] "Kind")
    as (_ & _ & _ & H).
  edestruct H as [H1 _].
  - reflexivity.
  - vm_compute. reflexivity.
  - exact H1.
Defined.

End WellFormed.

(** * Removal of a subtree *)

Module Removal.
Import Treelib Ontology Props TreelibFacts StrFacts CreateKindFacts CreateKind
  Reachability Resolution WellFormed.
Local Open Scope nat_scope.
Local Open Scope list_scope.

Section Case.
Context {unicode : Str.UnicodeCase}.

(** Whatever a sequence of calls persists is well formed. *)
Lemma run_wf_tree (limit : nat) (ops : list Op) (t : Tree) :
  run limit ops None = Some t → wf t.
Proof. intros H. eapply reachable_wf, run_reachable, H. Qed.

(** Below [k] the depth does not decrease. *)
Lemma descends_depth (t : Tree) (depth : string → nat) (k x : string) :
  (∀ c m p, nodes t !! c = Some m → predecessor m = Some p → depth p < depth c) →
  descends t k x → depth k ≤ depth x.
Proof.
  intros Hdepth. induction 1 as [|c p m Hm Hp _ IH]; [done|].
  pose proof (Hdepth c m p Hm Hp). lia.
Qed.

(** The traversal from a node of a well-formed tree yields exactly the
    nodes that descend from it. *)
Lemma expand_tree_descends (t : Tree) (k x : string) :
  wf t → is_Some (nodes t !! k) →
  x ∈ expand_tree t k ↔ descends t k x.
Proof.
  intros Hwf Hk. pose proof Hwf as [Hid Hsucc Hpred Hnd [depth Hdepth]].
  destruct (expand_tree_spec t depth k Hwf Hdepth Hk) as (E1 & E3 & E2).
  split.
  - assert (∀ d y, depth y < d → y ∈ expand_tree t k → descends t k y) as Hind.
    { induction d as [|d IH]; intros y Hd Hy; [lia|].
      destruct (E2 y Hy) as [->|(r & Hr & Hyr)]; [constructor|].
      unfold successors_of in Hyr.
      destruct (nodes t !! r) as [rn|] eqn:Hrn; [|set_solver].
      destruct (Hsucc r rn y Hrn Hyr) as (m & Hm & Hmp).
      pose proof (Hdepth y m r Hm Hmp).
      apply (descends_child t k y r m Hm Hmp). apply IH; [lia|done]. }
    apply (Hind (S (depth x))). lia.
  - induction 1 as [|c p m Hm Hp _ IH]; [done|].
    destruct (Hpred c m p Hm Hp) as (pn & Hpn & Hin).
    apply (E3 p c IH). unfold successors_of. by rewrite Hpn.
Qed.

(** In a well-formed tree the children of a kind are the node's list. *)
Lemma get_descendant_kinds_wf (t : Tree) (k : string) (n : Node) :
  wf t → nodes t !! k = Some n →
  get_descendant_kinds k (Some t) = Ret (Some (successors n)).
Proof.
  intros [Hid Hsucc _ _ _] Hk. unfold get_descendant_kinds. simpl.
  rewrite bool_decide_eq_false_2.
  - unfold children. rewrite Hk.
    destruct (lookup_all_tags t (successors n)) as (ns & -> & ->); [|done].
    intros c Hc. destruct (Hsucc k n c Hk Hc) as (m & Hm & _).
    exists m. split; [done|]. by apply (Hid c m).
  - unfold len. intros Hsize. apply map_size_empty_iff in Hsize.
    rewrite Hsize in Hk. by rewrite lookup_empty in Hk.
Qed.

Lemma remove_kind_present (t : Tree) (k : string) (n : Node) :
  nodes t !! k = Some n →
  ∃ t', remove_node t k = Ret t' ∧ remove_kind k (Some t) = (Ret tt, Some t').
Proof.
  intros Hk. destruct (remove_node_present t k n Hk) as [t' Ht'].
  exists t'. split; [done|]. unfold remove_kind. simpl. unfold get_node.
  by rewrite Hk, Ht'.
Qed.

(** X1 (what [remove_kind] removes): on a store left by any sequence of
    calls, removing a kind of the tree saves a tree in which the kind and
    everything that descends from it no longer resolve, while every other
    kind keeps its stored property set. *)
Theorem remove_kind_removes_subtree (limit : nat) (ops : list Op) (t : Tree)
    (k : string) (n : Node) (i : string) :
  run limit ops None = Some t →
  nodes t !! k = Some n →
  let st' := (remove_kind k (Some t)).2 in
  (∃ t', st' = Some t')
  ∧ (descends t k i → get_kind_node st' i = None ∧ get_kind_properties i st' = None)
  ∧ (¬ descends t k i → get_kind_properties i st' = get_kind_properties i (Some t)).
Proof.
  intros Hrun Hk st'. pose proof (run_wf_tree limit ops t Hrun) as Hwf.
  destruct (remove_kind_present t k n Hk) as (t' & Hrm & Hrk).
  subst st'. rewrite Hrk. simpl. split; [eauto|].
  pose proof (remove_node_lookup t k n t' i Hk Hrm) as Hi.
  pose proof (expand_tree_descends t k i Hwf (ex_intro _ n Hk)) as Hd.
  unfold get_kind_properties. simpl. unfold get_node. split.
  - intros Hdesc. rewrite bool_decide_eq_true_2 in Hi by (by apply Hd).
    by rewrite Hi.
  - intros Hdesc. rewrite bool_decide_eq_false_2 in Hi by (by rewrite Hd).
    rewrite Hi. case_decide; [|done]. by destruct (nodes t !! i).
Qed.

(** X2 (the parent after a removal): on a store left by any sequence of
    calls, after [remove_kind(k)] the children of the parent of [k] are the
    former ones without [k], in the same order. *)
Theorem remove_kind_unlinks_child (limit : nat) (ops : list Op) (t : Tree)
    (k p : string) (n pn : Node) :
  run limit ops None = Some t →
  nodes t !! k = Some n →
  predecessor n = Some p →
  nodes t !! p = Some pn →
  get_descendant_kinds p (remove_kind k (Some t)).2
  = Ret (Some (list_remove k (successors pn))).
Proof.
  intros Hrun Hk Hp Hpn. pose proof (run_wf_tree limit ops t Hrun) as Hwf.
  destruct (remove_kind_present t k n Hk) as (t' & Hrm & Hrk).
  rewrite Hrk. simpl.
  assert (p ∉ expand_tree t k) as Hout.
  { rewrite (expand_tree_descends t k p Hwf) by eauto. intros Hdesc.
    destruct Hwf as [_ _ _ _ [depth Hdepth]].
    pose proof (descends_depth t depth k p Hdepth Hdesc).
    pose proof (Hdepth k n p Hk Hp). lia. }
  assert (nodes t' !! p = Some (delete_successor k pn)) as Hp'.
  { rewrite (remove_node_lookup t k n t' p Hk Hrm).
    rewrite bool_decide_eq_false_2 by done. rewrite decide_True by done.
    by rewrite Hpn. }
  rewrite (get_descendant_kinds_wf t' p _ (wf_remove_node t k n t' Hwf Hk Hrm) Hp').
  done.
Qed.

End Case.

#[local] Existing Instance Str.unchanged_unicode.

Lemma family_ops_run : run 2 family_ops None = Some family_tree.
Proof. vm_compute. reflexivity. Qed.

Lemma remove_kind_removes_subtree_witness :
  get_kind_properties "Employee" (remove_kind "Person" (Some family_tree)).2 = None.
Proof.
  destruct (remove_kind_removes_subtree 2 family_ops family_tree "Person"
              (mkNode "Person" "Person" (mkEntity ∅) (Some "Kind") ["Employee"])
              "Employee" family_ops_run) as (_ & H & _).
  - reflexivity.
  - apply H.
    apply (descends_child family_tree "Person" "Employee" "Person"
             (mkNode "Employee" "Employee" (mkEntity {["salary"]}) (Some "Person") []));
      [reflexivity|reflexivity|constructor].
Defined.

Lemma remove_kind_unlinks_child_witness :
  get_descendant_kinds "Person" (remove_kind "Employee" (Some family_tree)).2
  = Ret (Some []).
Proof.
  apply (remove_kind_unlinks_child 2 family_ops family_tree "Employee" "Person"
           (mkNode "Employee" "Employee" (mkEntity {["salary"]}) (Some "Person") [])
           (mkNode "Person" "Person" (mkEntity ∅) (Some "Kind") ["Employee"])
           family_ops_run); reflexivity.
Defined.

End Removal.

(** * The shape of the persisted tree *)

Module Shape.
Import Treelib Ontology Props TreelibFacts StrFacts CreateKindFacts CreateKind
  Reachability Resolution Root WellFormed Removal.
Local Open Scope nat_scope.
Local Open Scope list_scope.

Section Case.
Context {unicode : Str.UnicodeCase}.

(** A path to a node stays a path when a leaf is added. *)
Lemma descends_add_child (t : Tree) (k p r i : string) (d : gset string) :
  nodes t !! k = None → descends t r i → descends (add_child t k p d) r i.
Proof.
  intros Hk. induction 1 as [|c q m Hm Hq _ IH]; [constructor|].
  destruct (lookup_add_child_old t k p c d m Hk Hm) as (m' & Hm' & _ & _ & _ & Hp').
  apply (descends_child _ r c q m'); [done|congruence|done].
Qed.

(** A path to a node stays a path when a property set is replaced. *)
Lemma descends_with_properties (t : Tree) (k : string) (n : Node) (ps : gset string)
    (r i : string) :
  nodes t !! k = Some n → descends t r i → descends (with_properties t k n ps) r i.
Proof.
  intros Hk. induction 1 as [|c q m Hm Hq _ IH]; [constructor|].
  destruct (decide (c = k)) as [->|Hne].
  - assert (m = n) as -> by congruence.
    apply (descends_child _ r k q (set_data n (mkEntity ps))); [|done|done].
    simpl. by rewrite lookup_insert_eq.
  - apply (descends_child _ r c q m); [|done|done].
    simpl. by rewrite lookup_insert_ne.
Qed.

(** A path to a surviving node survives the removal of a subtree. *)
Lemma descends_remove_node (t : Tree) (k : string) (n : Node) (t' : Tree) (r i : string) :
  wf t → nodes t !! k = Some n → remove_node t k = Ret t' →
  i ∉ expand_tree t k → descends t r i → descends t' r i.
Proof.
  intros Hwf Hk Hrm Hout Hdesc. induction Hdesc as [|c q m Hm Hq Hdesc IH]; [constructor|].
  assert (q ∉ expand_tree t k) as Hq_out.
  { rewrite (expand_tree_descends t k q Hwf) by eauto. intros Hkq. apply Hout.
    rewrite (expand_tree_descends t k c Hwf) by eauto.
    by apply (descends_child t k c q m). }
  destruct (remove_node_keeps t k n t' c m Hk Hrm Hm Hout) as (m' & Hm' & Hp' & _).
  apply (descends_child t' r c q m'); [done|congruence|by apply IH].
Qed.

(** Removing the root of a connected tree leaves no node. *)
Lemma remove_root_empties (t : Tree) (n : Node) (t' : Tree) :
  wf t → connected t → nodes t !! "Kind" = Some n → remove_node t "Kind" = Ret t' →
  nodes t' = ∅.
Proof.
  intros Hwf Hconn Hk Hrm. apply map_eq. intros i. rewrite lookup_empty.
  rewrite (remove_node_lookup t "Kind" n t' i Hk Hrm).
  destruct (nodes t !! i) as [m|] eqn:Hi.
  - rewrite bool_decide_eq_true_2; [done|].
    rewrite (expand_tree_descends t "Kind" i Hwf) by eauto. apply Hconn. eauto.
  - destruct (bool_decide _); [done|]. by case_decide.
Qed.

(** Every reachable tree is well formed, connected, and empty or rooted. *)
Lemma reachable_shape (t : Tree) :
  reachable t → wf t ∧ connected t ∧ empty_or_rooted t.
Proof.
  apply (reachable_ind (λ t, wf t ∧ connected t ∧ empty_or_rooted t)).
  - split; [apply wf_root_tree|]. split; [|right; apply rooted_root_tree].
    intros i [m Hm]. apply lookup_root_tree in Hm as [-> _]. constructor.
  - intros t1 t2 (Hwf & Hconn & Hshape) Hstep.
    destruct Hstep as [t1 k p pn d Hp Hk Hnorm|t1 k n t2 Hk Hrm|t1 k n old new ps Hk Hloop].
    + assert (rooted t1) as Hrooted.
      { destruct Hshape as [He|Hr]; [|done]. rewrite He in Hp. by rewrite lookup_empty in Hp. }
      split; [by eapply wf_add_child|]. split; [|right; by apply rooted_add_child].
      assert (k ≠ p) as Hne by congruence.
      intros i [m Hm].
      destruct (lookup_add_child t1 k p i d m Hne Hm)
        as [[-> ->]|[[-> (pn' & Hpn' & ->)]|(_ & _ & Hi)]].
      * apply (descends_child _ "Kind" k p _ Hm eq_refl).
        apply descends_add_child; [done|]. apply Hconn. by eexists.
      * apply descends_add_child; [done|]. apply Hconn. by eexists.
      * apply descends_add_child; [done|]. apply Hconn. by eexists.
    + assert (rooted t1) as Hrooted.
      { destruct Hshape as [He|Hr]; [|done]. rewrite He in Hk. by rewrite lookup_empty in Hk. }
      split; [by eapply wf_remove_node|]. split.
      * intros i [m' Hm'].
        destruct (remove_node_cases t1 k n t2 i m' Hk Hrm Hm') as (Hout & m0 & Hm0 & _).
        apply (descends_remove_node t1 k n t2 "Kind" i Hwf Hk Hrm Hout).
        apply Hconn. by eexists.
      * destruct (decide (k = "Kind")) as [->|Hne].
        -- left. by eapply remove_root_empties.
        -- right. by eapply rooted_remove_node.
    + assert (rooted t1) as Hrooted.
      { destruct Hshape as [He|Hr]; [|done]. rewrite He in Hk. by rewrite lookup_empty in Hk. }
      split; [by apply wf_with_properties|]. split; [|right; by eapply rooted_update].
      intros i [m Hm]. apply descends_with_properties; [done|]. apply Hconn.
      simpl in Hm. destruct (decide (i = k)) as [->|Hne]; [eauto|].
      rewrite lookup_insert_ne in Hm by done. eauto.
Qed.

(** X3 (shape of the persisted tree): whatever the sequence of calls, a
    persisted tree either has no nodes, so that no kind resolves, or has
    the root ["Kind"], whose property set is empty, and every kind of the
    tree descends from the root. *)
Theorem persisted_tree_shape (limit : nat) (ops : list Op) (t : Tree) :
  run limit ops None = Some t →
  (nodes t = ∅ ∧ ∀ k, get_kind_properties k (Some t) = None)
  ∨ (root t = Some "Kind"
     ∧ get_kind_properties "Kind" (Some t) = Some ∅
     ∧ ∀ k, is_Some (get_kind_properties k (Some t)) → descends t "Kind" k).
Proof.
  intros Hrun. apply run_reachable, reachable_shape in Hrun as (_ & Hconn & [He|Hr]).
  - left. split; [done|]. intros k. unfold get_kind_properties. simpl.
    unfold get_node. by rewrite He, lookup_empty.
  - right. destruct Hr as (Hroot & (n & Hn & Hp) & _). split; [done|]. split.
    + unfold get_kind_properties. simpl. unfold get_node. by rewrite Hn, Hp.
    + intros k [ps Hk]. apply Hconn. unfold get_kind_properties in Hk.
      simpl in Hk. unfold get_node in Hk. destruct (nodes t !! k); [eauto|done].
Qed.

(** X4 (coherence of the persisted tree): whatever the sequence of calls,
    in the persisted tree every node is registered under its identifier,
    which is also its tag and is the capitalized form of some name, and,
    when the calls of [create_kind] were all given ASCII names, is its own
    capitalized form; the children a node lists are nodes whose parent
    pointer names it, each listed once; and a node with a parent pointer
    is listed by that parent. *)
Theorem persisted_tree_coherent (limit : nat) (ops : list Op) (t : Tree) :
  run limit ops None = Some t →
  wf t
  ∧ (∀ id, is_Some (nodes t !! id) → capitalized id)
  ∧ (Forall ascii_names ops → ∀ id, is_Some (nodes t !! id) → Str.capitalize id = id).
Proof.
  intros Hrun. pose proof (run_reachable _ _ _ Hrun) as Hreach. split; [|split].
  - by apply reachable_shape.
  - intros id. by apply reachable_capitalized.
  - intros Hops id Hid.
    destruct (run_ascii_from limit ops None Hops) with t id as [Hascii Hfix]; try done.
    rewrite capitalize_ascii by done. done.
Qed.

(** X5 (removing the root): on a store left by any sequence of calls in
    which the root resolves, [remove_kind("Kind")] saves a tree without
    any node. *)
Theorem remove_root_removes_everything (limit : nat) (ops : list Op) (t : Tree) (n : Node) :
  run limit ops None = Some t →
  nodes t !! "Kind" = Some n →
  ∃ t', remove_kind "Kind" (Some t) = (Ret tt, Some t') ∧ nodes t' = ∅.
Proof.
  intros Hrun Hk. apply run_reachable, reachable_shape in Hrun as (Hwf & Hconn & _).
  destruct (remove_kind_present t "Kind" n Hk) as (t' & Hrm & Hrk).
  exists t'. split; [done|]. by eapply remove_root_empties.
Qed.

(** A call on a tree without nodes saves nothing. *)
Lemma step_on_no_nodes (limit : nat) (o : Op) (t : Tree) :
  nodes t = ∅ → step limit o (Some t) = Some t.
Proof.
  intros He. destruct o as [k p ps|k|k old new|k|k|props k]; simpl; try done.
  - rewrite create_kind_start. simpl default.
    rewrite create_kind_rootless; [done| |]; by rewrite He, lookup_empty.
  - unfold remove_kind. simpl. unfold get_node. by rewrite He, lookup_empty.
  - unfold update_properties_of_kind. simpl. unfold get_node. by rewrite He, lookup_empty.
Qed.

(** X6 (a tree without nodes stays): once the persisted tree has no
    nodes, no sequence of calls changes the store; every [create_kind]
    raises [RecursionError], whatever the bound on nested calls, and the
    queries find nothing. *)
Theorem no_nodes_is_final (limit : nat) (ops : list Op) (t : Tree) (k p : string)
    (ps : option (gset string)) :
  nodes t = ∅ →
  run limit ops (Some t) = Some t
  ∧ create_kind limit k p None ps (Some t) = (Raise RecursionError, Some t)
  ∧ get_kind_properties k (Some t) = None
  ∧ get_descendant_kinds k (Some t) = Ret (Some []).
Proof.
  intros He. split; [|split; [|split]].
  - induction ops as [|o ops IH]; [done|]. simpl. by rewrite step_on_no_nodes.
  - rewrite create_kind_start. simpl default.
    apply create_kind_rootless; by rewrite He, lookup_empty.
  - unfold get_kind_properties. simpl. unfold get_node. by rewrite He, lookup_empty.
  - unfold get_descendant_kinds. simpl. rewrite bool_decide_eq_true_2; [done|].
    unfold len. by rewrite He.
Qed.

End Case.

#[local] Existing Instance Str.unchanged_unicode.

Lemma persisted_tree_shape_witness :
  root family_tree = Some "Kind"
  ∧ get_kind_properties "Kind" (Some family_tree) = Some ∅.
Proof.
  destruct (persisted_tree_shape 2 family_ops family_tree family_ops_run)
    as [[He _]|(H1 & H2 & _)].
  - exfalso. apply (f_equal (λ m, m !! "Kind")) in He. vm_compute in He. discriminate He.
  - split; [exact H1|exact H2].
Defined.

Lemma persisted_tree_coherent_witness :
  wf family_tree ∧ ∀ id, is_Some (nodes family_tree !! id) → Str.capitalize id = id.
Proof.
  destruct (persisted_tree_coherent 2 family_ops family_tree family_ops_run)
    as (H1 & _ & H2).
  split; [exact H1|]. apply H2. repeat constructor.
Defined.

Lemma remove_root_removes_everything_witness :
  ∃ t', remove_kind "Kind" (Some family_tree) = (Ret tt, Some t') ∧ nodes t' = ∅.
Proof.
  apply (remove_root_removes_everything 2 family_ops family_tree
           (mkNode "Kind" "Kind" (mkEntity ∅) None ["Person"]) family_ops_run).
  reflexivity.
Defined.

Lemma no_nodes_is_final_witness :
  run 1000 [CreateKind "person" "Kind" None; RemoveKind "Person"] (Some empty_tree)
  = Some empty_tree.
Proof.
  apply (no_nodes_is_final 1000 [CreateKind "person" "Kind" None; RemoveKind "Person"]
           empty_tree "Person" "Kind" None).
  reflexivity.
Defined.

End Shape.

(** * More on [create_kind] *)

Module Creation.
Import Treelib Ontology Props TreelibFacts StrFacts CreateKindFacts CreateKind
  Reachability Resolution Root WellFormed Removal Shape.
Local Open Scope nat_scope.
Local Open Scope list_scope.

Section Case.
Context {unicode : Str.UnicodeCase}.

(** X7 ([create_kind] twice): after a call of [create_kind] that returned,
    a second call for the same kind and parent, in any spelling that
    capitalizes to the same identifiers and with any properties, saves
    nothing and returns the tree that is persisted (the fresh root-only
    tree when nothing is). *)
Theorem create_kind_idempotent (limit : nat) (k p k2 p2 : string)
    (ps ps2 : option (gset string)) (st : Store) (t' : Tree) :
  (create_kind limit k p None ps st).1 = Ret t' →
  Str.capitalize k2 = Str.capitalize k →
  Str.capitalize p2 = Str.capitalize p →
  let st' := (create_kind limit k p None ps st).2 in
  create_kind limit k2 p2 None ps2 st' = (Ret (default root_tree st'), st').
Proof.
  intros Hret HK HP st'.
  destruct limit as [|limit]; [done|].
  assert (∀ t, is_Some (nodes t !! Str.capitalize p) → is_Some (nodes t !! Str.capitalize k) →
            ∀ s, default root_tree s = t →
                 create_kind (S limit) k2 p2 None ps2 s = (Ret t, s)) as Hdup.
  { intros t [pn Hp] Hk s Hs. rewrite create_kind_start, Hs.
    rewrite (create_kind_parent_present _ _ _ _ pn) by (by rewrite HP).
    rewrite HK. by apply insert_kind_dup. }
  pose proof (create_kind_cases (S limit) k p ps st) as Hc. cbv zeta in Hc.
  destruct Hc
    as [Hr|[(HP0 & HK0 & Hr)|[(pn & HP0 & HK0 & Hr)
       |[(kn & HP0 & Hroot & Hstable & [[HK0 Hr]|[HK0 Hr]])
        |(kn & HP0 & Hroot & Hne & [[HP2 Hr]|[HP2 Hr]])]]]];
    subst st'; rewrite Hr in Hret |- *; cbn [fst snd default] in Hret |- *;
    try discriminate Hret.
  - by apply Hdup.
  - assert (Str.capitalize k ≠ Str.capitalize p) as Hne by congruence.
    apply Hdup; cbn [id]; [|by rewrite lookup_add_child_new|done].
    rewrite lookup_add_child_parent by done. rewrite HP0. by eexists.
  - assert (Str.capitalize p ≠ "Kind") as Hne by congruence.
    apply Hdup; cbn [id]; [|done|done]. rewrite lookup_add_child_new by done. by eexists.
  - assert (Str.capitalize p ≠ "Kind") as Hne by congruence.
    assert (Str.capitalize k ≠ Str.capitalize p) as Hne2.
    { intros Heq. rewrite Heq in HK0. by rewrite lookup_add_child_new in HK0. }
    apply Hdup; cbn [id]; [|by rewrite lookup_add_child_new|done].
    rewrite lookup_add_child_parent by done.
    rewrite lookup_add_child_new by done. by eexists.
Qed.

(** X8 ([create_kind] keeps what is stored): whatever the store and the
    bound on nested calls, a call of [create_kind] leaves the stored
    property set of every kind that resolved before as it was. *)
Theorem create_kind_keeps_stored_sets (limit : nat) (k p : string)
    (ps : option (gset string)) (st : Store) (i : string) (x : gset string) :
  get_kind_properties i st = Some x →
  get_kind_properties i (create_kind limit k p None ps st).2 = Some x.
Proof.
  intros Hi. destruct st as [t|]; [|done].
  assert (∃ m, nodes t !! i = Some m ∧ properties (data m) = x) as (m & Hm & Hx).
  { unfold get_kind_properties in Hi. simpl in Hi. unfold get_node in Hi.
    destruct (nodes t !! i) as [m|]; [|done]. inversion Hi. eauto. }
  assert (∀ t1 k1 p1 d1 m1, nodes t1 !! i = Some m1 → properties (data m1) = x →
            nodes t1 !! k1 = None →
            ∃ m2, nodes (add_child t1 k1 p1 d1) !! i = Some m2
                  ∧ properties (data m2) = x) as Hadd.
  { intros t1 k1 p1 d1 m1 Hm1 Hx1 Hk1.
    destruct (lookup_add_child_old t1 k1 p1 i d1 m1 Hk1 Hm1) as (m2 & Hm2 & Hd & _).
    exists m2. by rewrite Hd. }
  assert (∀ t1 m1, nodes t1 !! i = Some m1 → properties (data m1) = x →
            get_kind_properties i (Some t1) = Some x) as Hget.
  { intros t1 m1 Hm1 Hx1. unfold get_kind_properties. simpl. unfold get_node.
    by rewrite Hm1, Hx1. }
  pose proof (create_kind_cases limit k p ps (Some t)) as Hc. cbv zeta in Hc.
  simpl default in Hc.
  destruct Hc
    as [Hr|[(HP0 & HK0 & Hr)|[(pn & HP0 & HK0 & Hr)
       |[(kn & HP0 & Hroot & Hstable & [[HK0 Hr]|[HK0 Hr]])
        |(kn & HP0 & Hroot & Hne & [[HP2 Hr]|[HP2 Hr]])]]]];
    rewrite Hr; simpl.
  - by eapply Hget.
  - by eapply Hget.
  - destruct (Hadd t _ (Str.capitalize p)
                (default ∅ ps ∪ properties (data pn)) m Hm Hx HK0) as (m2 & Hm2 & Hx2).
    by eapply Hget.
  - destruct (Hadd t _ "Kind" (∅ ∪ properties (data kn)) m Hm Hx HP0) as (m2 & Hm2 & Hx2).
    by eapply Hget.
  - destruct (Hadd t _ "Kind" (∅ ∪ properties (data kn)) m Hm Hx HP0) as (m2 & Hm2 & Hx2).
    destruct (Hadd _ _ (Str.capitalize p)
                (default ∅ ps ∪ (∅ ∪ properties (data kn))) m2 Hm2 Hx2 HK0)
      as (m3 & Hm3 & Hx3).
    by eapply Hget.
  - by eapply Hget.
  - destruct (Hadd t _ "Kind" (∅ ∪ properties (data kn)) m Hm Hx HP2) as (m2 & Hm2 & Hx2).
    by eapply Hget.
Qed.

(** X9 (a new kind is the last child): on a store left by any sequence of
    calls, creating a kind that is not stored under a parent that is makes
    the kind the last of the children of the parent, after the former
    ones, and a kind without children of its own. *)
Theorem create_kind_appends_child (limit : nat) (ops : list Op) (t : Tree)
    (k p : string) (ps : option (gset string)) (pn : Node) :
  run limit ops None = Some t →
  1 ≤ limit →
  nodes t !! Str.capitalize p = Some pn →
  nodes t !! Str.capitalize k = None →
  let st' := (create_kind limit k p None ps (Some t)).2 in
  get_descendant_kinds (Str.capitalize p) st'
  = Ret (Some (successors pn ++ [Str.capitalize k]))
  ∧ get_descendant_kinds (Str.capitalize k) st' = Ret (Some []).
Proof.
  intros Hrun Hlimit HP HK st'. destruct limit as [|limit]; [lia|].
  assert (Str.capitalize k ≠ Str.capitalize p) as Hne by congruence.
  subst st'. rewrite create_kind_start. simpl default.
  rewrite (create_kind_parent_present _ _ _ _ pn) by done.
  rewrite insert_kind_new by eauto. simpl.
  set (t1 := add_child t _ _ _).
  assert (wf t1) as Hwf.
  { eapply wf_add_child; eauto. by eapply run_wf_tree. }
  split.
  - rewrite (get_descendant_kinds_wf t1 _ (add_successor (Str.capitalize k) pn) Hwf); [done|].
    subst t1. rewrite lookup_add_child_parent by done. by rewrite HP.
  - rewrite (get_descendant_kinds_wf t1 _ _ Hwf (lookup_add_child_new _ _ _ _ Hne)). done.
Qed.

(** X10 (repair of a missing parent): on a store left by any sequence of
    calls in which the root resolves, creating a kind that is not stored
    under a parent that is not stored either and whose capitalized form
    capitalizes to itself, with two nested calls allowed, stores the
    parent as the last child of the root, without properties, and the kind
    as the only child of the parent, with the requested properties. *)
Theorem create_kind_repairs_parent (limit : nat) (ops : list Op) (t : Tree)
    (k p : string) (ps : option (gset string)) (kn : Node) :
  run limit ops None = Some t →
  2 ≤ limit →
  nodes t !! "Kind" = Some kn →
  nodes t !! Str.capitalize p = None →
  Str.capitalize (Str.capitalize p) = Str.capitalize p →
  nodes t !! Str.capitalize k = None →
  Str.capitalize k ≠ Str.capitalize p →
  let st' := (create_kind limit k p None ps (Some t)).2 in
  get_descendant_kinds "Kind" st' = Ret (Some (successors kn ++ [Str.capitalize p]))
  ∧ get_descendant_kinds (Str.capitalize p) st' = Ret (Some [Str.capitalize k])
  ∧ get_kind_properties (Str.capitalize p) st' = Some ∅
  ∧ get_kind_properties (Str.capitalize k) st' = Some (default ∅ ps).
Proof.
  intros Hrun Hlimit Hroot HP Hstable HK Hne st'.
  destruct limit as [|[|limit]]; [lia|lia|].
  assert (Str.capitalize p ≠ "Kind") as HneP by congruence.
  assert (Str.capitalize k ≠ "Kind") as HneK by congruence.
  assert (properties (data kn) = ∅) as Hempty.
  { apply run_reachable, reachable_shape in Hrun as (_ & _ & [He|Hr]).
    - rewrite He in Hroot. by rewrite lookup_empty in Hroot.
    - destruct Hr as (_ & (n & Hn & Hp) & _). congruence. }
  pose proof (run_wf_tree _ _ _ Hrun) as Hwf.
  subst st'. rewrite create_kind_start. simpl default.
  rewrite (create_kind_parent_absent _ _ _ _ kn) by done.
  rewrite Hempty.
  set (tP := add_child t (Str.capitalize p) "Kind" (∅ ∪ ∅)).
  assert (wf tP) as HwfP by (eapply wf_add_child; eauto).
  assert (nodes tP !! Str.capitalize k = None) as HKP.
  { subst tP. by rewrite lookup_add_child_other. }
  assert (nodes tP !! Str.capitalize p
          = Some (mkNode (Str.capitalize p) (Str.capitalize p) (mkEntity (∅ ∪ ∅))
                    (Some "Kind") [])) as HPP.
  { subst tP. by rewrite lookup_add_child_new. }
  rewrite insert_kind_new by eauto. simpl.
  set (t2 := add_child tP _ _ _).
  assert (wf t2) as Hwf2 by (eapply wf_add_child; eauto).
  assert (nodes t2 !! "Kind" = Some (add_successor (Str.capitalize p) kn)) as Hroot2.
  { subst t2. rewrite lookup_add_child_other by done.
    subst tP. rewrite lookup_add_child_parent by done. by rewrite Hroot. }
  assert (nodes t2 !! Str.capitalize p
          = Some (add_successor (Str.capitalize k)
                    (mkNode (Str.capitalize p) (Str.capitalize p) (mkEntity (∅ ∪ ∅))
                       (Some "Kind") []))) as HP2.
  { subst t2. rewrite lookup_add_child_parent by done. by rewrite HPP. }
  split; [|split; [|split]].
  - by rewrite (get_descendant_kinds_wf t2 _ _ Hwf2 Hroot2).
  - by rewrite (get_descendant_kinds_wf t2 _ _ Hwf2 HP2).
  - unfold get_kind_properties. simpl. unfold get_node. rewrite HP2. simpl.
    f_equal; set_solver.
  - unfold get_kind_properties. simpl. unfold get_node.
    subst t2. rewrite lookup_add_child_new by done. simpl. f_equal; set_solver.
Qed.

(** X11 ([create_kind] with the root in place): when nothing is saved yet,
    or the root is in the persisted tree, a call that may nest once, for a
    parent that is in the tree or whose capitalized form capitalizes to
    itself, returns a tree that holds the root, the kind and the parent,
    and that tree is the persisted one unless the call saved nothing.  For
    a parent that is not in the tree and whose capitalized form capitalizes
    to another name, the call raises [AttributeError]; it saves nothing
    when that other name is in the tree, and else the tree with that name
    added, in which the parent is still missing. *)
Theorem create_kind_returns_tree (limit : nat) (k p : string) (ps : option (gset string))
    (st : Store) :
  2 ≤ limit →
  is_Some (nodes (default root_tree st) !! "Kind") →
  let P := Str.capitalize p in
  let r := create_kind limit k p None ps st in
  (is_Some (nodes (default root_tree st) !! P) ∨ Str.capitalize P = P →
   ∃ t', r.1 = Ret t'
         ∧ is_Some (nodes t' !! "Kind")
         ∧ is_Some (nodes t' !! Str.capitalize k)
         ∧ is_Some (nodes t' !! P)
         ∧ (r.2 = Some t' ∨ (r.2 = st ∧ t' = default root_tree st)))
  ∧ (nodes (default root_tree st) !! P = None → Str.capitalize P ≠ P →
     r.1 = Raise AttributeError
     ∧ ((is_Some (nodes (default root_tree st) !! Str.capitalize P) ∧ r.2 = st)
        ∨ ∃ t', r.2 = Some t'
                ∧ is_Some (nodes t' !! "Kind")
                ∧ is_Some (nodes t' !! Str.capitalize P)
                ∧ nodes t' !! P = None)).
Proof.
  intros Hlimit [kn Hroot] P r. destruct limit as [|[|limit]]; [lia|lia|].
  assert (∀ t1 k1 p1 d1, is_Some (nodes t1 !! "Kind") → nodes t1 !! k1 = None →
            is_Some (nodes (add_child t1 k1 p1 d1) !! "Kind")) as Hkeep.
  { intros t1 k1 p1 d1 [n1 Hn1] Hk1.
    destruct (lookup_add_child_old t1 k1 p1 "Kind" d1 n1 Hk1 Hn1) as (n2 & Hn2 & _). eauto. }
  pose proof (create_kind_cases (S (S limit)) k p ps st) as Hc. cbv zeta in Hc.
  fold P r in Hc.
  destruct Hc
    as [Hr|[(HP0 & HK0 & Hr)|[(pn & HP0 & HK0 & Hr)
       |[(kn' & HP0 & Hroot' & Hstable & [[HK0 Hr]|[HK0 Hr]])
        |(kn' & HP0 & Hroot' & Hne & [[HP2 Hr]|[HP2 Hr]])]]]].
  - exfalso. destruct (create_kind_returns limit k p ps st) as [Hret Heq]; [eauto|].
    subst r. rewrite Heq in Hr. by rewrite Hr in Hret.
  - split; [|intros HP1; destruct HP0 as [pn HP0]; congruence].
    intros _. rewrite Hr. simpl. exists (default root_tree st). eauto 10.
  - split; [|intros HP1; congruence].
    intros _. rewrite Hr. simpl. eexists. split; [done|].
    assert (Str.capitalize k ≠ P) as Hne by congruence.
    split; [apply Hkeep; eauto|]. split; [by rewrite lookup_add_child_new|].
    split; [|by left]. rewrite lookup_add_child_parent by done. rewrite HP0. by eexists.
  - split; [|done].
    intros _. rewrite Hr. simpl. eexists. split; [done|].
    assert (P ≠ "Kind") as Hne by congruence.
    split; [apply Hkeep; eauto|]. split; [done|].
    split; [|by left]. rewrite lookup_add_child_new by done. by eexists.
  - split; [|done].
    intros _. rewrite Hr. simpl. eexists. split; [done|].
    assert (P ≠ "Kind") as Hne by congruence.
    assert (Str.capitalize k ≠ P) as Hne2.
    { intros Heq. rewrite Heq in HK0. by rewrite lookup_add_child_new in HK0. }
    split; [apply Hkeep; [apply Hkeep; eauto|done]|].
    split; [by rewrite lookup_add_child_new|]. split; [|by left].
    rewrite lookup_add_child_parent by done.
    rewrite lookup_add_child_new by done. by eexists.
  - split; [intros [[pn HP1]|Hstable]; congruence|].
    intros _ _. rewrite Hr. simpl. split; [done|]. by left.
  - split; [intros [[pn HP1]|Hstable]; congruence|].
    intros _ _. rewrite Hr. simpl. split; [done|]. right.
    assert (Str.capitalize P ≠ "Kind") as HneK by congruence.
    assert (P ≠ "Kind") as HneP by congruence.
    eexists. split; [done|]. split; [apply Hkeep; eauto|].
    split; [rewrite lookup_add_child_new by done; by eexists|].
    by rewrite lookup_add_child_other.
Qed.

End Case.

#[local] Existing Instance Str.unchanged_unicode.

Lemma create_kind_idempotent_witness :
  create_kind 2 "EMPLOYEE" "Person" None (Some {["wage"]})
    (create_kind 2 "employee" "person" None (Some {["salary"]}) None).2
  = (Ret (default root_tree
            (create_kind 2 "employee" "person" None (Some {["salary"]}) None).2),
     (create_kind 2 "employee" "person" None (Some {["salary"]}) None).2).
Proof.
  apply (create_kind_idempotent 2 "employee" "person" "EMPLOYEE" "Person"
           (Some {["salary"]}) (Some {["wage"]}) None family_tree);
    vm_compute; reflexivity.
Defined.

Lemma create_kind_keeps_stored_sets_witness :
  get_kind_properties "Employee"
    (create_kind 2 "manager" "employee" None None (Some family_tree)).2
  = Some {["salary"]}.
Proof.
  apply (create_kind_keeps_stored_sets 2 "manager" "employee" None (Some family_tree)).
  reflexivity.
Defined.

Lemma create_kind_appends_child_witness :
  get_descendant_kinds "Person"
    (create_kind 2 "student" "person" None None (Some family_tree)).2
  = Ret (Some ["Employee"; "Student"]).
Proof.
  apply (create_kind_appends_child 2 family_ops family_tree "student" "person" None
           (mkNode "Person" "Person" (mkEntity ∅) (Some "Kind") ["Employee"])
           family_ops_run).
  - lia.
  - reflexivity.
  - reflexivity.
Defined.

Lemma create_kind_repairs_parent_witness :
  get_descendant_kinds "Department"
    (create_kind 2 "manager" "department" None None (Some family_tree)).2
  = Ret (Some ["Manager"]).
Proof.
  apply (create_kind_repairs_parent 2 family_ops family_tree "manager" "department" None
           (mkNode "Kind" "Kind" (mkEntity ∅) None ["Person"]) family_ops_run).
  - lia.
  - reflexivity.
  - reflexivity.
  - reflexivity.
  - reflexivity.
  - discriminate.
Defined.

Lemma create_kind_returns_tree_witness :
  ∃ t', (create_kind 2 "manager" "department" None None None).1 = Ret t'
        ∧ is_Some (nodes t' !! "Kind").
Proof.
  destruct (create_kind_returns_tree 2 "manager" "department" None None)
    as [H _].
  - lia.
  - by eexists.
  - destruct H as (t' & H1 & H2 & _); [by right|].
    exists t'. split; [exact H1|exact H2].
Defined.

End Creation.

(** * More on updates and on the membership check *)

Module Updates.
Import Treelib Ontology Props TreelibFacts UpdateFacts Reachability Inheritance Membership.
Local Open Scope nat_scope.
Local Open Scope list_scope.

Section Case.
Context {unicode : Str.UnicodeCase}.

(** The loop reads [new_properties] only below the index it stops at. *)
Lemma update_loop_take (ps : gset string) (idx : nat) (old new : list string) :
  update_loop ps idx old new = update_loop ps idx old (take (idx + length old) new).
Proof.
  revert ps idx new. induction old as [|o old IH]; intros ps idx new; [done|].
  cbn [update_loop length]. destruct (bool_decide (o ∈ ps)); [|done].
  rewrite lookup_take_lt by lia. destruct (new !! idx) as [n|]; [|done].
  rewrite (IH _ (S idx) new), (IH _ (S idx) (take _ new)).
  rewrite take_take. do 2 f_equal. lia.
Qed.

(** X12 (surplus new names): [update_properties_of_kind] never reads the
    entries of [new_properties] beyond the length of [old_properties]: the
    call behaves as with the list cut to that length. *)
Theorem update_ignores_surplus_names (k : string) (old new : list string) (st : Store) :
  update_properties_of_kind k old new st
  = update_properties_of_kind k old (take (length old) new) st.
Proof.
  unfold update_properties_of_kind.
  destruct (get_kind_node (load_ontology_graph st) k) as [n|]; [|done].
  by rewrite (update_loop_take _ 0 old new).
Qed.

(** Every old property up to index [length new] is in the set it is
    looked up in. *)
Lemma present_up_to_cons (ps : gset string) (o n : string) (old new : list string) :
  (∀ i prop, i ≤ length (n :: new) → (o :: old) !! i = Some prop →
             prop ∈ live ps (o :: old) (n :: new) i)
  ↔ o ∈ ps ∧ (∀ i prop, i ≤ length new → old !! i = Some prop →
                        prop ∈ live (replace_property ps (o, n)) old new i).
Proof.
  split.
  - intros H. split.
    + specialize (H 0 o). rewrite live_0 in H. apply H; [simpl; lia|done].
    + intros i prop Hi Hl. specialize (H (S i) prop). rewrite live_cons in H.
      apply H; [simpl; lia|done].
  - intros [H0 H] [|i] prop Hi Hl.
    + simpl in Hl. inversion Hl; subst. by rewrite live_0.
    + rewrite live_cons. apply H; [simpl in Hi; lia|done].
Qed.

(** With fewer new names than old ones the loop cannot complete: it runs
    out of new names, unless it meets a missing old property first. *)
Lemma update_loop_short (ps : gset string) (done old new : list string) :
  length new < length old →
  ((∀ i prop, i ≤ length new → old !! i = Some prop → prop ∈ live ps old new i) →
   update_loop ps (length done) old (done ++ new) = Raise IndexError)
  ∧ (¬ (∀ i prop, i ≤ length new → old !! i = Some prop → prop ∈ live ps old new i) →
     update_loop ps (length done) old (done ++ new) = Ret None).
Proof.
  revert ps done new. induction old as [|o old IH]; intros ps done new Hlen;
    [simpl in Hlen; lia|].
  cbn [update_loop]. destruct new as [|n new].
  - rewrite app_nil_r, lookup_ge_None_2 by lia.
    destruct (decide (o ∈ ps)) as [Hin|Hnin].
    + rewrite bool_decide_eq_true_2 by done. split; [done|].
      intros H. exfalso. apply H. intros [|i] prop Hi Hl; [|simpl in Hi; lia].
      simpl in Hl. inversion Hl; subst. by rewrite live_0.
    + rewrite bool_decide_eq_false_2 by done. split; [|done].
      intros H. exfalso. apply Hnin. specialize (H 0 o). rewrite live_0 in H.
      apply H; [simpl; lia|done].
  - rewrite present_up_to_cons. simpl in Hlen.
    destruct (decide (o ∈ ps)) as [Hin|Hnin].
    + rewrite bool_decide_eq_true_2 by done.
      rewrite lookup_app_r by lia. rewrite Nat.sub_diag. cbn [lookup list_lookup].
      replace (done ++ n :: new) with ((done ++ [n]) ++ new) by (by rewrite <- app_assoc).
      replace (S (length done)) with (length (done ++ [n]))
        by (rewrite length_app; simpl; lia).
      destruct (IH (replace_property ps (o, n)) (done ++ [n]) new) as [IH1 IH2]; [lia|].
      split; [intros [_ H]; by apply IH1 | intros H; apply IH2; tauto].
    + rewrite bool_decide_eq_false_2 by done. split; [tauto|done].
Qed.

(** X13 (too few new names): for a kind of the persisted tree and fewer
    new names than old ones, [update_properties_of_kind] saves nothing: it
    raises [IndexError] when every old property up to the first index
    without a new name is present when it is looked up, and reports the
    missing property otherwise. *)
Theorem update_with_too_few_names (t : Tree) (k : string) (n : Node)
    (old new : list string) :
  nodes t !! k = Some n →
  length new < length old →
  let ps := properties (data n) in
  ((∀ i prop, i ≤ length new → old !! i = Some prop → prop ∈ live ps old new i) →
   update_properties_of_kind k old new (Some t) = (Raise IndexError, Some t))
  ∧ (∀ i prop, i ≤ length new → old !! i = Some prop → prop ∉ live ps old new i →
     update_properties_of_kind k old new (Some t) = (Ret PropertyNotFound, Some t)).
Proof.
  intros Hk Hlen ps. unfold update_properties_of_kind. simpl. unfold get_node.
  rewrite Hk. fold ps. destruct (update_loop_short ps [] old new Hlen) as [H1 H2].
  simpl in H1, H2. split.
  - intros H. by rewrite H1.
  - intros i prop Hi Hl Hm. rewrite H2; [done|]. intros H. by apply Hm, H.
Qed.

(** The tags found through a list of identifiers do not depend on the
    property set of a node. *)
Lemma lookup_all_with_properties (t : Tree) (q : string) (n : Node) (ps : gset string)
    (ids : list string) :
  nodes t !! q = Some n →
  (∃ ns ns', lookup_all t ids = Ret ns
             ∧ lookup_all (with_properties t q n ps) ids = Ret ns'
             ∧ map tag ns' = map tag ns)
  ∨ (∃ e, lookup_all t ids = Raise e ∧ lookup_all (with_properties t q n ps) ids = Raise e).
Proof.
  intros Hq. induction ids as [|i ids IH]; simpl; [left; by exists [], []|].
  destruct (decide (i = q)) as [->|Hne].
  - rewrite lookup_insert_eq, Hq.
    destruct IH as [(ns & ns' & -> & -> & Heq)|(e & -> & ->)]; [left|right; eauto].
    eexists _, _. split; [done|]. split; [done|]. simpl. by rewrite Heq.
  - rewrite lookup_insert_ne by done. destruct (nodes t !! i) as [m|]; [|right; eauto].
    destruct IH as [(ns & ns' & -> & -> & Heq)|(e & -> & ->)]; [left|right; eauto].
    eexists _, _. split; [done|]. split; [done|]. simpl. by rewrite Heq.
Qed.

(** Replacing the property set of one node of a snapshot leaves the
    children of every kind, the property set of every other kind, and the
    set of kinds that resolve as they were. *)
Lemma update_properties_elsewhere (q : string) (old new : list string) (st : Store)
    (k : string) :
  let st' := (update_properties_of_kind q old new st).2 in
  get_descendant_kinds k st' = get_descendant_kinds k st
  ∧ (k ≠ q → get_kind_properties k st' = get_kind_properties k st)
  ∧ (is_Some (get_kind_properties k st') ↔ is_Some (get_kind_properties k st)).
Proof.
  intros st'. split; [|split].
  - subst st'. destruct (update_properties_cases q old new st)
      as [->|(t & n & ps & -> & Hq & _ & ->)]; [done|].
    unfold get_descendant_kinds. simpl.
    assert (len (with_properties t q n ps) = len t) as ->.
    { unfold len. simpl. by apply map_size_insert_Some. }
    destruct (bool_decide (len t = 0)); [done|].
    unfold children.
    assert (∀ ids,
              match lookup_all (with_properties t q n ps) ids with
              | Ret ns => Ret (Some (map tag ns))
              | Raise NodeIDAbsentError => Ret None
              | Raise e => Raise e
              end
              = match lookup_all t ids with
                | Ret ns => Ret (Some (map tag ns))
                | Raise NodeIDAbsentError => Ret None
                | Raise e => Raise e
                end) as Hall.
    { intros ids. destruct (lookup_all_with_properties t q n ps ids Hq)
        as [(ns & ns' & -> & -> & ->)|(e & -> & ->)]; done. }
    simpl. destruct (decide (k = q)) as [->|Hne].
    + rewrite lookup_insert_eq, Hq. simpl. apply Hall.
    + rewrite lookup_insert_ne by done. destruct (nodes t !! k); [apply Hall|done].
  - intros Hne. by apply update_properties_frame.
  - subst st'. destruct (update_properties_cases q old new st)
      as [->|(t & n & ps & -> & Hq & _ & ->)]; [done|].
    unfold get_kind_properties. simpl. unfold get_node. simpl.
    destruct (decide (k = q)) as [->|Hne].
    + rewrite lookup_insert_eq, Hq. split; eauto.
    + by rewrite lookup_insert_ne.
Qed.

(** X14 (an update touches one property set): on a store left by any
    sequence of calls, and whatever the arguments,
    [update_properties_of_kind] leaves the children of every kind, the
    stored property set of every other kind, and the set of kinds that
    resolve as they were. *)
Theorem update_touches_one_set (limit : nat) (ops : list Op) (q : string)
    (old new : list string) (k : string) :
  let st := run limit ops None in
  let st' := (update_properties_of_kind q old new st).2 in
  get_descendant_kinds k st' = get_descendant_kinds k st
  ∧ (k ≠ q → get_kind_properties k st' = get_kind_properties k st)
  ∧ (is_Some (get_kind_properties k st') ↔ is_Some (get_kind_properties k st)).
Proof. intros st. apply update_properties_elsewhere. Qed.

(** X15 (the membership check decides inclusion): when the kind
    resolves, [are_properties_in_kind] returns a boolean, true exactly
    when the set of the listed properties is included in the stored
    property set of the kind. *)
Theorem membership_decides_inclusion (props : list string) (k : string) (st : Store)
    (ps : gset string) :
  get_kind_properties k st = Some ps →
  are_properties_in_kind props k st = Ret (bool_decide (list_to_set props ⊆ ps)).
Proof.
  intros Hk. destruct (membership_sound props k st ps Hk) as (b & -> & Hb).
  f_equal. destruct b.
  - symmetry. apply bool_decide_eq_true_2. intros x Hx.
    apply elem_of_list_to_set in Hx. by apply Hb.
  - symmetry. apply bool_decide_eq_false_2. intros Hsub.
    assert (false = true); [|done]. apply Hb. intros x Hx.
    apply Hsub. by apply elem_of_list_to_set.
Qed.

End Case.

#[local] Existing Instance Str.unchanged_unicode.

Lemma update_with_too_few_names_witness :
  update_properties_of_kind "Employee" ["salary"; "title"] ["wage"] (Some family_tree)
  = (Ret PropertyNotFound, Some family_tree).
Proof.
  assert (nodes family_tree !! "Employee"
          = Some (mkNode "Employee" "Employee" (mkEntity {["salary"]}) (Some "Person") []))
    as Hk by reflexivity.
  assert (length ["wage"] < length ["salary"; "title"]) as Hlen by (simpl; lia).
  destruct (update_with_too_few_names family_tree "Employee" _
              ["salary"; "title"] ["wage"] Hk Hlen) as [_ H].
  apply (H 1 "title"); [simpl; lia|reflexivity|].
  vm_compute. set_solver.
Defined.

Lemma membership_decides_inclusion_witness :
  are_properties_in_kind ["salary"; "salary"] "Employee" (Some family_tree) = Ret true.
Proof.
  rewrite (membership_decides_inclusion ["salary"; "salary"] "Employee"
             (Some family_tree) {["salary"]}).
  - reflexivity.
  - reflexivity.
Defined.

End Updates.

(** * The operations on objects against the operations on values *)

Module ObjectsFacts.
Import Treelib Ontology Props Objects TreelibFacts CreateKindFacts.

Section Case.
Context {unicode : Str.UnicodeCase}.

Lemma lookup_snapshot (h : Heap) (t : ObjTree) (id : string) :
  nodes (snapshot h t) !! id = snapshot_node h <$> obj_nodes t !! id.
Proof. simpl. apply lookup_fmap. Qed.

Lemma contains_snapshot (h : Heap) (t : ObjTree) (id : string) :
  contains (snapshot h t) id = obj_contains t id.
Proof.
  unfold contains, obj_contains. rewrite lookup_snapshot.
  apply bool_decide_ext. by rewrite fmap_is_Some.
Qed.

(** The snapshot reads the sets of the nodes only. *)
Lemma snapshot_ext (h h' : Heap) (t : ObjTree) :
  (∀ id n, obj_nodes t !! id = Some n → deref h' (obj_data n) = deref h (obj_data n)) →
  snapshot h' t = snapshot h t.
Proof.
  intros Hsame. unfold snapshot. f_equal. apply map_fmap_ext.
  intros id n Hn. unfold snapshot_node. by rewrite (Hsame id n Hn).
Qed.

Lemma deref_insert (h : Heap) (r : Ref) (v : gset string) : deref (<[r := v]> h) r = v.
Proof. unfold deref. by rewrite lookup_insert_eq. Qed.

Lemma deref_insert_ne (h : Heap) (r r' : Ref) (v : gset string) :
  r ≠ r' → deref (<[r := v]> h) r' = deref h r'.
Proof. intros Hne. unfold deref. by rewrite lookup_insert_ne. Qed.

(** Changing a set that no node holds leaves the snapshot as it is. *)
Lemma snapshot_insert_apart (h : Heap) (t : ObjTree) (r : Ref) (v : gset string) :
  apart t r → snapshot (<[r := v]> h) t = snapshot h t.
Proof.
  intros Hapart. apply snapshot_ext. intros id n Hn.
  apply deref_insert_ne. intros Heq. by apply (Hapart id n Hn).
Qed.

(** [create_node] on objects is [create_node] on the snapshot. *)
Lemma snapshot_create_node (h : Heap) (t : ObjTree) (tg nid : string)
    (parent : option string) (r : Ref) :
  outcome_map (snapshot h) (obj_create_node t tg nid parent r)
  = create_node (snapshot h t) tg nid parent (mkEntity (deref h r)).
Proof.
  unfold obj_create_node, create_node. rewrite contains_snapshot.
  destruct (obj_contains t nid); [done|].
  destruct parent as [pid|].
  - rewrite contains_snapshot. destruct (obj_contains t pid); [|done].
    simpl. unfold snapshot. simpl. f_equal. f_equal.
    apply map_eq. intros i.
    destruct (decide (i = pid)) as [->|Hne].
    + rewrite lookup_fmap, !lookup_alter_eq.
      destruct (decide (pid = nid)) as [->|Hne2].
      * by rewrite !lookup_insert_eq.
      * rewrite !lookup_insert_ne by done. rewrite lookup_fmap.
        by destruct (obj_nodes t !! pid).
    + rewrite lookup_fmap, !lookup_alter_ne by done.
      destruct (decide (i = nid)) as [->|Hne2].
      * by rewrite !lookup_insert_eq.
      * rewrite !lookup_insert_ne by done. by rewrite lookup_fmap.
  - simpl. destruct (obj_root t); [done|]. simpl. unfold snapshot. simpl.
    f_equal. f_equal. by rewrite fmap_insert.
Qed.

(** What the loader hands out reads as the snapshot it was made from. *)
Lemma snapshot_loaded (t : Tree) (h : Heap) :
  snapshot (loaded_heap t ∪ h) (loaded_tree t) = t.
Proof.
  destruct t as [ns rt]. unfold snapshot, loaded_tree. simpl. f_equal.
  apply map_eq. intros i. rewrite lookup_fmap, map_lookup_imap.
  destruct (ns !! i) as [n|] eqn:Hn; simpl; [|done].
  unfold snapshot_node, loaded_node, deref. simpl.
  assert ((loaded_heap (mkTree ns rt) ∪ h) !! (inl i : Ref) = Some (properties (data n))) as ->.
  { apply lookup_union_Some_l. unfold loaded_heap. simpl.
    rewrite lookup_kmap by apply _. rewrite lookup_fmap. by rewrite Hn. }
  by destruct n as [? ? [?] ? ?].
Qed.

(** The set of a node of the loaded tree is the one of the snapshot. *)
Lemma lookup_loaded_heap (t : Tree) (h : Heap) (id : string) (n : Node) :
  nodes t !! id = Some n → (loaded_heap t ∪ h) !! (inl id : Ref) = Some (properties (data n)).
Proof.
  intros Hn. apply lookup_union_Some_l. unfold loaded_heap.
  rewrite lookup_kmap by apply _. rewrite lookup_fmap. by rewrite Hn.
Qed.

(** The loader makes no set of the caller's. *)
Lemma lookup_loaded_heap_held (t : Tree) (h : Heap) (c : nat) :
  (loaded_heap t ∪ h) !! (inr c : Ref) = h !! (inr c : Ref).
Proof.
  apply lookup_union_r. unfold loaded_heap. apply lookup_kmap_None; [apply _|].
  intros id Heq. discriminate Heq.
Qed.

Lemma lookup_loaded_tree (t : Tree) (id : string) :
  obj_nodes (loaded_tree t) !! id = loaded_node id <$> nodes t !! id.
Proof. simpl. rewrite map_lookup_imap. by destruct (nodes t !! id). Qed.

(** The loop on the set object computes what the loop on the value does,
    and touches no other set. *)
Lemma update_in_place_loop (h : Heap) (r : Ref) (idx : nat) (old new : list string) :
  (∀ r', r' ≠ r → (update_in_place h r idx old new).2 !! r' = h !! r')
  ∧ match update_loop (deref h r) idx old new with
    | Ret (Some ps) =>
        (update_in_place h r idx old new).1 = Ret true
        ∧ deref (update_in_place h r idx old new).2 r = ps
    | Ret None => (update_in_place h r idx old new).1 = Ret false
    | Raise e => (update_in_place h r idx old new).1 = Raise e
    end.
Proof.
  revert h idx. induction old as [|prop rest IH]; intros h idx; simpl; [done|].
  destruct (bool_decide (prop ∈ deref h r)); [|done].
  destruct (new !! idx) as [n|]; simpl.
  - set (h2 := <[r := _]> (<[r := _]> h)).
    destruct (IH h2 (S idx)) as [Hother Hloop].
    assert (deref h2 r = deref h r ∖ {[prop]} ∪ {[n]}) as Hset.
    { subst h2. by rewrite !deref_insert. }
    rewrite Hset in Hloop. split; [|done].
    intros r' Hne. rewrite Hother by done. subst h2.
    by rewrite !lookup_insert_ne.
  - split; [|done]. intros r' Hne. by rewrite lookup_insert_ne.
Qed.

(** On the tree the loader hands out, the update in place saves what
    the update of the value saves. *)
Lemma obj_update_refines (kind : string) (old new : list string) (h : Heap) (st : Store) :
  ((obj_update_properties_of_kind kind old new h st).1.1,
   (obj_update_properties_of_kind kind old new h st).2)
  = update_properties_of_kind kind old new st
  ∧ ∀ c, (obj_update_properties_of_kind kind old new h st).1.2 !! (inr c : Ref)
         = h !! (inr c : Ref).
Proof.
  unfold obj_update_properties_of_kind, update_properties_of_kind, update_in_memory.
  destruct st as [t|]; simpl; [|done].
  unfold obj_get_node, get_node. rewrite lookup_loaded_tree.
  destruct (nodes t !! kind) as [n|] eqn:Hn; simpl;
    [|split; [done|intros c; apply lookup_loaded_heap_held]].
  destruct (update_in_place_loop (loaded_heap t ∪ h) (inl kind) 0 old new) as [Hother Hloop].
  assert (deref (loaded_heap t ∪ h) (inl kind) = properties (data n)) as Hset.
  { unfold deref. by rewrite (lookup_loaded_heap t h kind n Hn). }
  rewrite Hset in Hloop.
  assert (∀ c, (update_in_place (loaded_heap t ∪ h) (inl kind) 0 old new).2 !! (inr c : Ref)
               = h !! (inr c : Ref)) as Hheld.
  { intros c. rewrite Hother by done. apply lookup_loaded_heap_held. }
  destruct (update_in_place (loaded_heap t ∪ h) (inl kind) 0 old new) as [o h'] eqn:Hrun.
  simpl in *.
  destruct (update_loop (properties (data n)) 0 old new) as [[ps|]|e].
  - destruct Hloop as [-> Hps]. simpl. split; [|done]. f_equal. f_equal.
    unfold snapshot. simpl. f_equal. apply map_eq. intros i.
    rewrite lookup_fmap, map_lookup_imap.
    destruct (decide (i = kind)) as [->|Hne].
    + rewrite lookup_insert_eq, Hn. simpl. unfold snapshot_node. simpl. by rewrite Hps.
    + rewrite lookup_insert_ne by done.
      destruct (nodes t !! i) as [m|] eqn:Hm; simpl; [|done].
      unfold snapshot_node, deref. simpl.
      rewrite Hother by congruence. rewrite (lookup_loaded_heap t h i m Hm).
      by destruct m as [? ? [?] ? ?].
  - rewrite Hloop. done.
  - rewrite Hloop. done.
Qed.

(** A new set is none of the heap's. *)
Lemma new_set_fresh (h : Heap) : h !! (new_set h).1 = None.
Proof.
  unfold new_set. simpl.
  destruct (h !! (inr (fresh (held h)) : Ref)) as [v|] eqn:Hv; [exfalso|done].
  apply (is_fresh (held h)). unfold held. apply elem_of_set_omap.
  exists (inr (fresh (held h))). split; [|done]. apply elem_of_dom. eauto.
Qed.

Lemma closed_apart (tree : ObjTree) (h : Heap) (r : Ref) :
  closed tree h → h !! r = None → apart tree r.
Proof.
  intros Hclosed Hr id n Hn Heq. destruct (Hclosed id n Hn) as [v Hv]. congruence.
Qed.

(** The nodes [create_node] leaves under a parent: the new one, with the
    given set, and the former ones, with their sets. *)
Lemma obj_create_node_cells (t : ObjTree) (tg nid pid : string) (r : Ref) (t' : ObjTree)
    (id : string) (n : ObjNode) :
  obj_create_node t tg nid (Some pid) r = Ret t' → obj_nodes t' !! id = Some n →
  obj_data n = r ∨ ∃ n0, obj_nodes t !! id = Some n0 ∧ obj_data n0 = obj_data n.
Proof.
  unfold obj_create_node. destruct (obj_contains t nid); [done|].
  destruct (obj_contains t pid); [|done]. intros Heq Hn. inversion Heq; subst t'; clear Heq.
  simpl in Hn. destruct (decide (id = pid)) as [->|Hne].
  - rewrite lookup_alter_eq in Hn.
    destruct (decide (pid = nid)) as [->|Hne2].
    + rewrite lookup_insert_eq in Hn. inversion Hn. by left.
    + rewrite lookup_insert_ne in Hn by done.
      destruct (obj_nodes t !! pid) as [n0|]; [|done]. inversion Hn. right. eauto.
  - rewrite lookup_alter_ne in Hn by done.
    destruct (decide (id = nid)) as [->|Hne2].
    + rewrite lookup_insert_eq in Hn. inversion Hn. by left.
    + rewrite lookup_insert_ne in Hn by done. right. eauto.
Qed.

(** The insertion on objects does what the insertion on values does. *)
Lemma obj_insert_kind_refines (tree : ObjTree) (h : Heap) (K P : string) (pn : ObjNode)
    (c : Ref) (st : Store) :
  closed tree h → is_Some (h !! c) → apart tree c → obj_nodes tree !! P = Some pn →
  refined tree h (Some c) (obj_insert_kind tree h K P pn c st)
    (insert_kind (snapshot h tree) K P (snapshot_node h pn) (deref h c) st)
  ∧ (obj_insert_kind tree h K P pn c st).1.2
    = <[c := deref h c ∪ deref h (obj_data pn)]> h.
Proof.
  intros Hclosed Hc Hapart HP. unfold obj_insert_kind, insert_kind.
  pose proof (snapshot_create_node (<[c := deref h c ∪ deref h (obj_data pn)]> h)
                tree K K (Some P) c) as Hcn.
  rewrite (snapshot_insert_apart h tree c _ Hapart) in Hcn.
  rewrite deref_insert in Hcn. simpl properties. rewrite <- Hcn. clear Hcn.
  set (h' := <[c := deref h c ∪ deref h (obj_data pn)]> h).
  assert (∀ x, is_Some (h !! x) → Some x ≠ Some c → h' !! x = h !! x) as Hkeep.
  { intros x _ Hne. subst h'. rewrite lookup_insert_ne; [done|]. congruence. }
  assert (closed tree h') as Hclosed'.
  { intros id n Hn. subst h'. rewrite lookup_insert_ne; [by apply (Hclosed id n)|].
    intros Heq. by apply (Hapart id n Hn). }
  unfold refined.
  destruct (obj_create_node tree K K (Some P) c) as [tree'|e] eqn:Hcreate;
    cbn [fst snd outcome_map].
  - split; [|done]. split; [done|]. split; [done|].
    intros t' Ht'. inversion Ht'; subst t'. split.
    + intros id n Hn.
      destruct (obj_create_node_cells tree K K P c tree' id n Hcreate Hn)
        as [Heq|(n0 & Hn0 & Heq)].
      * rewrite Heq. subst h'. rewrite lookup_insert_eq. eauto.
      * rewrite <- Heq. by apply (Hclosed' id n0).
    + intros id n Hn.
      destruct (obj_create_node_cells tree K K P c tree' id n Hcreate Hn)
        as [Heq|(n0 & Hn0 & Heq)]; [|eauto].
      right. right. by rewrite Heq.
  - split; [|by destruct e].
    destruct e; cbn [fst snd outcome_map]; (split; [try done|split; [done|]]).
    all: try (intros t' Ht'; discriminate Ht').
    + subst h'. by rewrite (snapshot_insert_apart h tree c _ Hapart).
    + intros t' Ht'. inversion Ht'; subst t'. split; [done|]. eauto.
Qed.

(** A node that was in the tree is still there, with its set. *)
Lemma obj_create_node_old (t : ObjTree) (tg nid pid : string) (r : Ref) (t' : ObjTree)
    (id : string) (n0 : ObjNode) :
  obj_create_node t tg nid (Some pid) r = Ret t' → obj_nodes t !! id = Some n0 →
  ∃ n, obj_nodes t' !! id = Some n ∧ obj_data n = obj_data n0.
Proof.
  unfold obj_create_node, obj_contains. case_bool_decide as Hnid; [done|].
  case_bool_decide; [|done]. intros Heq Hn0. inversion Heq; subst t'; clear Heq.
  assert (id ≠ nid) as Hne by (intros ->; apply Hnid; eauto).
  simpl. destruct (decide (id = pid)) as [->|Hne2].
  - rewrite lookup_alter_eq, lookup_insert_ne by done. rewrite Hn0. simpl. eauto.
  - rewrite lookup_alter_ne, lookup_insert_ne by done. eauto.
Qed.

(** After the insertion the set [kind_properties] holds the properties of
    the parent as well. *)
Lemma obj_insert_kind_effect (tree : ObjTree) (h : Heap) (K P : string) (pn : ObjNode)
    (c : Ref) (st : Store) (t' : ObjTree) :
  apart tree c → obj_nodes tree !! P = Some pn →
  (obj_insert_kind tree h K P pn c st).1.1 = Ret t' →
  ∃ pn', obj_nodes t' !! P = Some pn'
         ∧ deref (obj_insert_kind tree h K P pn c st).1.2 c
           = deref h c ∪ deref (obj_insert_kind tree h K P pn c st).1.2 (obj_data pn').
Proof.
  intros Hapart HP. unfold obj_insert_kind. cbv zeta.
  assert (obj_data pn ≠ c) as Hne by (by apply (Hapart P pn)).
  destruct (obj_create_node tree K K (Some P) c) as [tree'|e] eqn:Hcreate;
    cbn [fst snd]; intros Ht'.
  - inversion Ht'; subst t'.
    destruct (obj_create_node_old tree K K P c tree' P pn Hcreate HP) as (pn' & HP' & Hd).
    exists pn'. split; [done|]. rewrite Hd, deref_insert. by rewrite deref_insert_ne.
  - destruct e; cbn [fst snd] in Ht' |- *; try discriminate Ht'. inversion Ht'; subst t'.
    exists pn. split; [done|]. rewrite deref_insert. by rewrite deref_insert_ne.
Qed.

(** Lines 53-74 on objects do what they do on values, when the nested
    call does. *)
Lemma obj_under_parent_refines
    (nested : ObjTree → Heap → Store → Outcome ObjTree * Heap * Store)
    (nested_v : Tree → Store → Outcome Tree * Store)
    (tree : ObjTree) (h : Heap) (K P : string) (c : Ref) (st : Store) :
  (∀ tree h st, closed tree h →
     refined tree h None (nested tree h st) (nested_v (snapshot h tree) st)) →
  closed tree h → is_Some (h !! c) → apart tree c →
  refined tree h (Some c) (obj_under_parent nested tree h K P c st)
    (under_parent nested_v (snapshot h tree) K P (deref h c) st)
  ∧ ∀ t', (obj_under_parent nested tree h K P c st).1.1 = Ret t' →
          ∃ pn, obj_nodes t' !! P = Some pn
                ∧ deref (obj_under_parent nested tree h K P c st).1.2 c
                  = deref h c ∪ deref (obj_under_parent nested tree h K P c st).1.2 (obj_data pn).
Proof.
  intros Hnested Hclosed Hc Hapart.
  unfold obj_under_parent, under_parent, obj_get_node, get_node.
  rewrite lookup_snapshot.
  destruct (obj_nodes tree !! P) as [pn|] eqn:HP; cbn [fmap option_fmap option_map].
  { split; [by apply obj_insert_kind_refines|].
    intros t'. by apply obj_insert_kind_effect. }
  destruct (Hnested tree h st Hclosed) as (Heq & Hkeep & Hret).
  destruct (nested tree h st) as [[r2 h2] st2]. cbn [fst snd] in *.
  rewrite <- Heq.
  assert (∀ x, is_Some (h !! x) → h2 !! x = h !! x) as Hkeep2.
  { intros x Hx. by apply Hkeep. }
  destruct r2 as [tree2|e]; cbn [outcome_map].
  - destruct (Hret tree2 eq_refl) as [Hclosed2 Hcells2].
    rewrite lookup_snapshot.
    destruct (obj_nodes tree2 !! P) as [pn2|] eqn:HP2; cbn [fmap option_fmap option_map].
    + assert (apart tree2 c) as Hapart2.
      { intros id n Hn Heq2.
        destruct (Hcells2 id n Hn) as [(n0 & Hn0 & Heq0)|[Hnone|Hc0]]; [| |done].
        - apply (Hapart id n0 Hn0). congruence.
        - rewrite Heq2 in Hnone. rewrite Hnone in Hc. by destruct Hc. }
      assert (is_Some (h2 !! c)) as Hc2 by (by rewrite Hkeep2).
      assert (deref h2 c = deref h c) as Hsame by (unfold deref; by rewrite Hkeep2).
      destruct (obj_insert_kind_refines tree2 h2 K P pn2 c st2 Hclosed2 Hc2 Hapart2 HP2)
        as [(E & Hk & Hr) _].
      rewrite Hsame in E. split; [|intros t' Ht'; rewrite <- Hsame;
                                     by apply obj_insert_kind_effect].
      split; [exact E|]. split.
      * intros x Hx Hne. rewrite Hk; [by apply Hkeep2|by rewrite Hkeep2|done].
      * intros t' Ht'. destruct (Hr t' Ht') as [Hclosed' Hcells']. split; [done|].
        intros id n Hn.
        destruct (Hcells' id n Hn) as [(n0 & Hn0 & Heq0)|[Hnone|Hc0]].
        -- destruct (Hcells2 id n0 Hn0) as [(n1 & Hn1 & Heq1)|[Hnone|Hc0]]; [| |done].
           ++ left. exists n1. split; [done|]. congruence.
           ++ right. left. by rewrite <- Heq0.
        -- right. left. destruct (h !! obj_data n) as [v|] eqn:Hv; [|done].
           rewrite Hkeep2 in Hnone by eauto. congruence.
        -- by right; right.
    + split; [|intros t' Ht'; discriminate Ht'].
      split; [done|]. split; [intros x Hx _; by apply Hkeep2|].
      intros t' Ht'. discriminate Ht'.
  - split; [|intros t' Ht'; discriminate Ht'].
    split; [done|]. split; [intros x Hx _; by apply Hkeep2|].
    intros t' Ht'. discriminate Ht'.
Qed.

Lemma create_kind_under_parent (limit : nat) (k p : string) (t : Tree)
    (ps : option (gset string)) (st : Store) :
  create_kind (S limit) k p (Some t) ps st
  = under_parent (λ t st, create_kind limit (Str.capitalize p) "Kind" (Some t) None st)
      t (Str.capitalize k) (Str.capitalize p) (default ∅ ps) st.
Proof. reflexivity. Qed.

(** A call's own set: the caller's, or a new one, which is empty and none
    of the tree's. *)
Lemma own_set_spec (tree : ObjTree) (kp : option Ref) (h : Heap) :
  closed tree h → (∀ c, kp = Some c → is_Some (h !! c) ∧ apart tree c) →
  is_Some ((own_set kp h).2 !! (own_set kp h).1)
  ∧ apart tree (own_set kp h).1
  ∧ closed tree (own_set kp h).2
  ∧ deref (own_set kp h).2 (own_set kp h).1 = default ∅ (deref h <$> kp)
  ∧ (∀ x, x ≠ (own_set kp h).1 → (own_set kp h).2 !! x = h !! x)
  ∧ (kp = Some (own_set kp h).1 ∧ (own_set kp h).2 = h
     ∨ kp = None ∧ h !! (own_set kp h).1 = None).
Proof.
  intros Hclosed Hkp. destruct kp as [c|]; simpl.
  - destruct (Hkp c eq_refl) as [Hc Hapart]. eauto 10.
  - pose proof (new_set_fresh h) as Hfresh. simpl in Hfresh.
    pose proof (closed_apart tree h _ Hclosed Hfresh) as Hapart.
    split; [rewrite lookup_insert_eq; eauto|]. split; [done|]. split.
    { intros id n Hn. rewrite lookup_insert_ne; [by apply (Hclosed id n)|].
      intros Heq. by apply (Hapart id n Hn). }
    split; [by rewrite deref_insert|]. split; [|by right].
    intros x Hne. by rewrite lookup_insert_ne.
Qed.

(** [create_kind] on objects, from a tree in memory, does what
    [create_kind] on values does from its snapshot. *)
Lemma obj_create_kind_refines (limit : nat) (k p : string) (tree : ObjTree)
    (kp : option Ref) (h : Heap) (st : Store) :
  closed tree h → (∀ c, kp = Some c → is_Some (h !! c) ∧ apart tree c) →
  refined tree h kp (obj_create_kind limit k p (Some tree) kp h st)
    (create_kind limit k p (Some (snapshot h tree)) (deref h <$> kp) st).
Proof.
  revert k p tree kp h st. induction limit as [|limit IH]; intros k p tree kp h st Hclosed Hkp.
  { split; [done|]. split; [done|]. intros t' Ht'. discriminate Ht'. }
  rewrite create_kind_under_parent. cbn [obj_create_kind].
  destruct (own_set_spec tree kp h Hclosed Hkp) as (Hc & Hapart & Hclosed1 & Hset & Hother & Hcase).
  set (c := (own_set kp h).1) in *. set (h1 := (own_set kp h).2) in *.
  cbn [fst snd].
  pose proof (obj_under_parent_refines
                (λ tree h st, obj_create_kind limit (Str.capitalize p) "Kind" (Some tree) None h st)
                (λ t st, create_kind limit (Str.capitalize p) "Kind" (Some t) None st)
                tree h1 (Str.capitalize k) (Str.capitalize p) c st) as Hbody.
  destruct Hbody as [(Heq & Hkeep & Hret) _]; [|done|done|done|].
  { intros tree' h' st' Hclosed'. apply (IH _ _ tree' None h' st' Hclosed'). done. }
  assert (snapshot h1 tree = snapshot h tree) as Hsnap.
  { apply snapshot_ext. intros id n Hn. unfold deref. rewrite Hother; [done|].
    intros Heq'. by apply (Hapart id n Hn). }
  rewrite Hsnap, Hset in Heq. split; [exact Heq|]. split.
  - intros x Hx Hne.
    assert (x ≠ c) as Hxc.
    { intros ->. destruct Hcase as [[Hk _]|[_ Hnone]]; [by destruct Hne|].
      rewrite Hnone in Hx. by destruct Hx. }
    rewrite Hkeep; [by apply Hother|by rewrite Hother|congruence].
  - intros t' Ht'. destruct (Hret t' Ht') as [Hclosed' Hcells]. split; [done|].
    intros id n Hn. destruct (Hcells id n Hn) as [Hold|[Hnone|Hc0]]; [by left| |].
    + right. left. destruct (decide (obj_data n = c)) as [Heq'|Hne'].
      * rewrite Heq' in Hnone. rewrite Hnone in Hc. by destruct Hc.
      * by rewrite <- Hother.
    + inversion Hc0 as [Heq']. destruct Hcase as [[Hk _]|[_ Hnone]].
      * right. right. by rewrite Heq'.
      * right. left. by rewrite Heq'.
Qed.

(** The top call, from the tree it starts from. *)
Lemma obj_create_kind_from (limit : nat) (k p : string) (kp : option Ref) (h : Heap)
    (st : Store) (tree0 : ObjTree) (h2 : Heap) :
  (∀ c, kp = Some c → is_Some (h !! c)) →
  closed tree0 h2 → apart tree0 (own_set kp h).1 →
  (∀ x, is_Some ((own_set kp h).2 !! x) → h2 !! x = (own_set kp h).2 !! x) →
  snapshot h2 tree0 = default root_tree st →
  let r := obj_under_parent
             (λ tree h st, obj_create_kind limit (Str.capitalize p) "Kind" (Some tree) None h st)
             tree0 h2 (Str.capitalize k) (Str.capitalize p) (own_set kp h).1 st in
  (outcome_map (snapshot r.1.2) r.1.1, r.2)
  = create_kind (S limit) k p None (deref h <$> kp) st
  ∧ (∀ x, is_Some (h !! x) → Some x ≠ kp → r.1.2 !! x = h !! x)
  ∧ (∀ c t', kp = Some c → r.1.1 = Ret t' →
       ∃ pn, obj_nodes t' !! Str.capitalize p = Some pn
             ∧ deref r.1.2 c = deref h c ∪ deref r.1.2 (obj_data pn)).
Proof.
  intros Hkp Hclosed Hapart Hsame Hsnap r.
  destruct (own_set_spec (mkObjTree ∅ None) kp h) as (Hc & _ & _ & Hset & Hother & Hcase).
  { intros id n Hn. simpl in Hn. by rewrite lookup_empty in Hn. }
  { intros c Hc. split; [by apply Hkp|]. intros id n Hn. simpl in Hn.
    by rewrite lookup_empty in Hn. }
  set (c := (own_set kp h).1) in *. set (h1 := (own_set kp h).2) in *.
  destruct (obj_under_parent_refines
              (λ tree h st, obj_create_kind limit (Str.capitalize p) "Kind" (Some tree) None h st)
              (λ t st, create_kind limit (Str.capitalize p) "Kind" (Some t) None st)
              tree0 h2 (Str.capitalize k) (Str.capitalize p) c st)
    as [(Heq & Hkeep & _) Heffect]; [|done|by rewrite Hsame|done|].
  { intros tree' h' st' Hclosed'.
    apply (obj_create_kind_refines limit _ _ tree' None h' st' Hclosed'). done. }
  fold r in Heq, Hkeep, Heffect.
  assert (deref h2 c = default ∅ (deref h <$> kp)) as Hset2.
  { rewrite <- Hset. unfold deref. by rewrite Hsame. }
  rewrite Hsnap, Hset2 in Heq.
  rewrite create_kind_start, create_kind_under_parent.
  split; [exact Heq|]. split.
  - intros x Hx Hne.
    assert (x ≠ c) as Hxc.
    { intros ->. destruct Hcase as [[Hk _]|[_ Hnone]]; [by destruct Hne|].
      rewrite Hnone in Hx. by destruct Hx. }
    assert (h1 !! x = h !! x) as H1 by (by apply Hother).
    assert (h2 !! x = h !! x) as H2 by (rewrite Hsame; [done|by rewrite H1]).
    rewrite Hkeep; [done|by rewrite H2|congruence].
  - intros c' t' Hc' Ht'. destruct (Heffect t' Ht') as (pn & Hpn & Hset3).
    exists pn. split; [done|].
    assert (c' = c) as -> by (destruct Hcase as [[Hk _]|[Hk _]]; congruence).
    rewrite Hset3, Hset2, Hc'. done.
Qed.

Lemma obj_create_root (r : Ref) :
  obj_create_node (mkObjTree ∅ None) "Kind" "Kind" None r
  = Ret (mkObjTree {[ "Kind" := mkObjNode "Kind" "Kind" r None [] ]} (Some "Kind")).
Proof. reflexivity. Qed.

(** [create_kind] on objects saves and returns what [create_kind] on
    values does. *)
Lemma obj_create_kind_top (limit : nat) (k p : string) (kp : option Ref) (h : Heap)
    (st : Store) :
  (∀ id, h !! (inl id : Ref) = None) →
  (∀ c, kp = Some c → is_Some (h !! c)) →
  let r := obj_create_kind limit k p None kp h st in
  (outcome_map (snapshot r.1.2) r.1.1, r.2) = create_kind limit k p None (deref h <$> kp) st
  ∧ (∀ x, is_Some (h !! x) → Some x ≠ kp → r.1.2 !! x = h !! x)
  ∧ (∀ c t', kp = Some c → r.1.1 = Ret t' →
       ∃ pn, obj_nodes t' !! Str.capitalize p = Some pn
             ∧ deref r.1.2 c = deref h c ∪ deref r.1.2 (obj_data pn)).
Proof.
  intros Hcaller Hkp. destruct limit as [|limit].
  { split; [done|]. split; [done|]. intros c t' _ Ht'. discriminate Ht'. }
  cbn [obj_create_kind].
  assert (is_Some ((own_set kp h).2 !! (own_set kp h).1)
          ∧ (∀ id, (own_set kp h).2 !! (inl id : Ref) = None)) as [Hc Hheld].
  { destruct kp as [c|]; simpl.
    - split; [by apply Hkp|done].
    - split; [rewrite lookup_insert_eq; eauto|].
      intros id. by rewrite lookup_insert_ne. }
  set (c := (own_set kp h).1) in *. set (h1 := (own_set kp h).2) in *.
  assert (∀ id, c ≠ inl id) as Hinr.
  { intros id Heq. rewrite Heq, Hheld in Hc. by destruct Hc. }
  destruct st as [t|]; cbn [obj_initial_tree load_ontology_graph fst snd].
  - apply obj_create_kind_from; [done| | | |].
    + intros id n Hn. rewrite lookup_loaded_tree in Hn.
      destruct (nodes t !! id) as [m|] eqn:Hm; [|done]. inversion Hn. simpl.
      rewrite (lookup_loaded_heap t h1 id m Hm). eauto.
    + intros id n Hn. rewrite lookup_loaded_tree in Hn.
      destruct (nodes t !! id) as [m|]; [|done]. inversion Hn. simpl. fold c.
      intros Heq. by apply (Hinr id).
    + fold h1. intros x Hx. destruct x as [id|n].
      * rewrite Hheld in Hx. by destruct Hx.
      * apply lookup_loaded_heap_held.
    + apply snapshot_loaded.
  - rewrite obj_create_root. cbn [fst snd].
    pose proof (new_set_fresh h1) as Hfresh.
    apply obj_create_kind_from; [done| | | |].
    + intros id n Hn. simpl in Hn. apply lookup_singleton_Some in Hn as [_ <-]. simpl.
      rewrite lookup_insert_eq. eauto.
    + intros id n Hn. simpl in Hn. apply lookup_singleton_Some in Hn as [_ <-]. simpl.
      fold c h1. intros Heq.
      assert (h1 !! c = None) as Hnone by (rewrite <- Heq; exact Hfresh).
      rewrite Hnone in Hc. by destruct Hc.
    + fold h1. intros x Hx. simpl. rewrite lookup_insert_ne; [done|].
      intros Heq. assert (h1 !! x = None) as Hnone by (rewrite <- Heq; exact Hfresh).
      rewrite Hnone in Hx. by destruct Hx.
    + simpl. unfold snapshot, root_tree. simpl. f_equal.
      rewrite map_fmap_singleton. unfold snapshot_node. simpl.
      by rewrite deref_insert.
Qed.

End Case.
End ObjectsFacts.

(** * Sets held by the caller or shared between nodes *)

Module Sharing.
Import Treelib Ontology Props Objects TreelibFacts ObjectsFacts.

Section Case.
Context {unicode : Str.UnicodeCase}.

(** X16 (the update in place): [update_properties_of_kind] run on
    objects, where the loop changes the set of the node in place in the
    tree the loader hands out, reports and saves exactly what it does on
    values; and it leaves every set the caller holds as it is. *)
Theorem update_on_objects (kind : string) (old new : list string) (h : Heap) (st : Store) :
  let r := obj_update_properties_of_kind kind old new h st in
  (r.1.1, r.2) = update_properties_of_kind kind old new st
  ∧ ∀ c, r.1.2 !! (inr c : Ref) = h !! (inr c : Ref).
Proof. apply obj_update_refines. Qed.

(** X17 ([create_kind] on objects): a call of [create_kind] whose
    [kind_properties] is a set the caller holds, or none, and whose
    caller holds no set of the tree the loader hands out, returns a tree
    that reads as the tree the call on values returns, and saves the same
    snapshot; it leaves the other sets of the caller as they are; and when
    it returns a tree, the caller's set has been changed in place: it now
    holds the properties of the parent as well. *)
Theorem create_kind_on_objects (limit : nat) (k p : string) (kp : option Ref) (h : Heap)
    (st : Store) :
  (∀ id, h !! (inl id : Ref) = None) →
  (∀ c, kp = Some c → is_Some (h !! c)) →
  let r := obj_create_kind limit k p None kp h st in
  (outcome_map (snapshot r.1.2) r.1.1, r.2) = create_kind limit k p None (deref h <$> kp) st
  ∧ (∀ x, is_Some (h !! x) → Some x ≠ kp → r.1.2 !! x = h !! x)
  ∧ (∀ c t', kp = Some c → r.1.1 = Ret t' →
       ∃ pn, obj_nodes t' !! Str.capitalize p = Some pn
             ∧ deref r.1.2 c = deref h c ∪ deref r.1.2 (obj_data pn)).
Proof. apply obj_create_kind_top. Qed.

(** X18 (nodes that share a set): in a tree in memory where two kinds
    hold the same set object, an update of one that applies all its pairs
    changes the set of both: after it both read as the result of the loop
    on the former set; whereas the update on the snapshot of that tree
    leaves the other kind's set as it was. *)
Theorem shared_set_changes_together (tree : ObjTree) (h h' : Heap) (k j : string)
    (nk nj : ObjNode) (old new : list string) :
  obj_nodes tree !! k = Some nk → obj_nodes tree !! j = Some nj →
  obj_data nj = obj_data nk → j ≠ k →
  update_in_memory tree h k old new = (Ret Updated, h') →
  ∃ ps, update_loop (deref h (obj_data nk)) 0 old new = Ret (Some ps)
        ∧ get_kind_properties k (Some (snapshot h' tree)) = Some ps
        ∧ get_kind_properties j (Some (snapshot h' tree)) = Some ps
        ∧ get_kind_properties j
            (update_properties_of_kind k old new (Some (snapshot h tree))).2
          = Some (deref h (obj_data nk)).
Proof.
  intros Hk Hj Hshare Hne Hrun. unfold update_in_memory, obj_get_node in Hrun.
  rewrite Hk in Hrun.
  destruct (update_in_place_loop h (obj_data nk) 0 old new) as [_ Hloop].
  destruct (update_in_place h (obj_data nk) 0 old new) as [[[]|e] h2]; try discriminate Hrun.
  inversion Hrun; subst h2. simpl in Hloop.
  destruct (update_loop (deref h (obj_data nk)) 0 old new) as [[ps|]|e]; try discriminate Hloop.
  destruct Hloop as [_ Hps]. exists ps. split; [done|].
  assert (∀ i n, obj_nodes tree !! i = Some n → obj_data n = obj_data nk →
            get_kind_properties i (Some (snapshot h' tree)) = Some ps) as Hget.
  { intros i n Hi Hd. unfold get_kind_properties. simpl. unfold get_node.
    rewrite lookup_snapshot, Hi. simpl. by rewrite Hd, Hps. }
  split; [by apply (Hget k nk)|]. split; [by apply (Hget j nj)|].
  rewrite Inheritance.update_properties_frame by done.
  unfold get_kind_properties. simpl. unfold get_node.
  rewrite lookup_snapshot, Hj. simpl. by rewrite Hshare.
Qed.

End Case.

#[local] Existing Instance Str.unchanged_unicode.

Lemma create_kind_on_objects_witness :
  (outcome_map
     (snapshot (obj_create_kind 2 "employee" "person" None (Some (inr 0))
                  {[ (inr 0 : Ref) := {["salary"]} ]}
                  (Some (add_child root_tree "Person" "Kind" {["name"]}))).1.2)
     (obj_create_kind 2 "employee" "person" None (Some (inr 0))
        {[ (inr 0 : Ref) := {["salary"]} ]}
        (Some (add_child root_tree "Person" "Kind" {["name"]}))).1.1,
   (obj_create_kind 2 "employee" "person" None (Some (inr 0))
      {[ (inr 0 : Ref) := {["salary"]} ]}
      (Some (add_child root_tree "Person" "Kind" {["name"]}))).2)
  = create_kind 2 "employee" "person" None (Some {["salary"]})
      (Some (add_child root_tree "Person" "Kind" {["name"]})).
Proof.
  destruct (create_kind_on_objects 2 "employee" "person" (Some (inr 0))
              {[ (inr 0 : Ref) := {["salary"]} ]}
              (Some (add_child root_tree "Person" "Kind" {["name"]})))
    as [H _].
  - intros id. by apply lookup_singleton_ne.
  - intros c Hc. inversion Hc. rewrite lookup_singleton_eq. eauto.
  - exact H.
Defined.

Lemma shared_set_changes_together_witness :
  get_kind_properties "Employee"
    (Some (snapshot {[ (inr 0 : Ref) := {["fullname"]} ]}
             (mkObjTree
                {[ "Person" := mkObjNode "Person" "Person" (inr 0) None ["Employee"];
                   "Employee" := mkObjNode "Employee" "Employee" (inr 0)
                                   (Some "Person") [] ]}
                (Some "Person"))))
  = Some {["fullname"]}.
Proof.
  destruct (shared_set_changes_together
              (mkObjTree
                 {[ "Person" := mkObjNode "Person" "Person" (inr 0) None ["Employee"];
                    "Employee" := mkObjNode "Employee" "Employee" (inr 0)
                                    (Some "Person") [] ]}
                 (Some "Person"))
              {[ (inr 0 : Ref) := {["name"]} ]}
              {[ (inr 0 : Ref) := {["fullname"]} ]}
              "Person" "Employee"
              (mkObjNode "Person" "Person" (inr 0) None ["Employee"])
              (mkObjNode "Employee" "Employee" (inr 0) (Some "Person") [])
              ["name"] ["fullname"])
    as (ps & Hloop & _ & H & _).
  - reflexivity.
  - reflexivity.
  - reflexivity.
  - discriminate.
  - vm_compute. reflexivity.
  - rewrite H. vm_compute in Hloop. inversion Hloop. reflexivity.
Defined.

End Sharing.
